(** * xtcjs: page conversion pipeline and XTC/XTG container codec

    A shallow embedding of the conversion code of the repository
    (src/lib/converter.ts, src/lib/workers/convert-page.worker.ts,
    src/lib/conversion/worker-pool.ts, the XTG encoder and the
    stand-alone app.js converter, with the canvas resizing, the viewer
    and the table-of-contents editor around them), followed by the
    properties proved about it.

    Conventions.
    - JavaScript integers (dimensions, indices, byte values) are [Z] or
      [nat]; typed-array stores are written with their wrap-around.
    - A JavaScript [number] that may be fractional or non-finite is a
      [number] below; each IEEE-754 rounding step is the function [rnd]
      and nothing is assumed about it.
    - Arrays are lists, indexed with stdpp's lookup and insert.
    - Code that mutates its argument returns the new value. *)

From Stdlib Require Import ZArith QArith Qround Qminmax Lia Permutation Sorted.
From Stdlib Require Import Lqa.
From Stdlib Require Import Strings.String Strings.Ascii DecimalString.
From stdpp Require Import base list gmap strings.

Local Open Scope Z_scope.

(** ** JavaScript numbers *)

Inductive number : Type :=
| Finite (q : Q)
| NaN
| PosInfinity
| NegInfinity.

(** [Number.isFinite] *)
Definition isFinite (value : number) : bool :=
  match value with
  | Finite _ => true
  | _ => false
  end.

(** [Number.isInteger], on a possibly missing value. *)
Definition isInteger (value : option number) : bool :=
  match value with
  | Some (Finite q) => Qeq_bool q (inject_Z (Qfloor q))
  | _ => false
  end.

(** ** Conversion options (src/lib/conversion/types.ts) *)

Inductive Orientation : Type := landscape | portrait.
Inductive Device : Type := X4 | X3.

Record ConversionOptions : Type := mkOptions {
  device : Device;
  splitMode : string;
  dithering : string;
  contrast : Z;
  horizontalMargin : number;
  verticalMargin : number;
  orientation : Orientation;
  landscapeFlipClockwise : bool;
  showProgressPreview : bool
}.

Record CropRect : Type := mkCropRect {
  x : Z;
  y : Z;
  width : Z;
  height : Z
}.

(** ** Margin crop (converter.ts 47-72, convert-page.worker.ts 38-63) *)

Section Crop.

(** Rounding of an arithmetic result to a double. *)
Variable rnd : Q -> Q.

Definition clampMarginPercent (value : number) : Q :=
  match value with
  | Finite v => Qmax 0 (Qmin 20 v)
  | _ => 0%Q
  end.

Definition getAxisCropRect (sourceWidth sourceHeight : Z)
    (options : ConversionOptions) : CropRect :=
  let horizontalMargin := clampMarginPercent (horizontalMargin options) in
  let verticalMargin := clampMarginPercent (verticalMargin options) in
  let maxCropX := (sourceWidth - 1) / 2 in
  let maxCropY := (sourceHeight - 1) / 2 in
  let cropX :=
    Z.min (Qfloor (rnd (rnd (inject_Z sourceWidth * horizontalMargin) / 100)%Q))
          maxCropX in
  let cropY :=
    Z.min (Qfloor (rnd (rnd (inject_Z sourceHeight * verticalMargin) / 100)%Q))
          maxCropY in
  {| x := cropX;
     y := cropY;
     width := Z.max 1 (sourceWidth - cropX * 2);
     height := Z.max 1 (sourceHeight - cropY * 2) |}.

End Crop.

(** ** Byte buffers

    An [ArrayBuffer] with its [Uint8Array] and [DataView] views is a
    list of bytes.  The code only writes inside the buffer it has just
    allocated; a write outside leaves the list unchanged. *)

Abbreviation Bytes := (list Z) (only parsing).

(** [new ArrayBuffer(size)], zero-filled. *)
Definition newBuffer (size : nat) : Bytes := replicate size 0.

(** [uint8[offset] = value] and [view.setUint8(offset, value)] *)
Definition setUint8 (buffer : Bytes) (offset : nat) (value : Z) : Bytes :=
  <[offset := value mod 256]> buffer.

(** [view.setUint16(offset, value, true)] *)
Definition setUint16 (buffer : Bytes) (offset : nat) (value : Z) : Bytes :=
  let buffer := setUint8 buffer offset value in
  setUint8 buffer (offset + 1) (value / 256).

(** [view.setUint32(offset, value, true)] *)
Definition setUint32 (buffer : Bytes) (offset : nat) (value : Z) : Bytes :=
  let buffer := setUint8 buffer offset value in
  let buffer := setUint8 buffer (offset + 1) (value / 256) in
  let buffer := setUint8 buffer (offset + 2) (value / 65536) in
  setUint8 buffer (offset + 3) (value / 16777216).

(** The helper [setBigUint64(view, offset, value)] of app.js. *)
Definition setBigUint64 (buffer : Bytes) (offset : nat) (value : Z) : Bytes :=
  let low := Z.land value 4294967295 in
  let high := Z.shiftr value 32 in
  let buffer := setUint32 buffer offset low in
  setUint32 buffer (offset + 4) high.

(** [uint8.set(source, offset)] *)
Definition setBytes (buffer : Bytes) (source : Bytes) (offset : nat) : Bytes :=
  if (offset + length source <=? length buffer)%nat
  then take offset buffer ++ source ++ drop (offset + length source) buffer
  else buffer.

(** Reading the fields back, as a little-endian reader does. *)
Definition getUint8 (buffer : Bytes) (offset : nat) : Z :=
  default 0 (buffer !! offset).

Definition getUint16 (buffer : Bytes) (offset : nat) : Z :=
  getUint8 buffer offset + 256 * getUint8 buffer (offset + 1).

Definition getUint32 (buffer : Bytes) (offset : nat) : Z :=
  getUint8 buffer offset + 256 * getUint8 buffer (offset + 1)
  + 65536 * getUint8 buffer (offset + 2) + 16777216 * getUint8 buffer (offset + 3).

Definition getUint64 (buffer : Bytes) (offset : nat) : Z :=
  getUint32 buffer offset + 4294967296 * getUint32 buffer (offset + 4).

(** ** XTG page encoder (processing/xtg imageDataToXtg, app.js 449-491) *)

Module ImageData.
(** [data] is the RGBA [Uint8ClampedArray], four bytes per pixel in
    row-major order. *)
Record t : Type := mk {
  width : nat;
  height : nat;
  data : Bytes
}.
End ImageData.

(** [Math.ceil(w / 8)] *)
Definition ceilDiv8 (w : nat) : nat :=
  (w / 8 + (if w mod 8 =? 0 then 0 else 1))%nat.

(** The body of the inner loop, for the pixel at column [x] of row [y].
    A read past the end of [data] is [undefined], and
    [undefined >= 128] is false. *)
Definition packPixel (w rowBytes : nat) (data : Bytes) (y : nat)
    (pixelData : Bytes) (x : nat) : Bytes :=
  let idx := ((y * w + x) * 4)%nat in
  let bit := match data !! idx with
             | Some value => 128 <=? value
             | None => false
             end in
  let byteIndex := (y * rowBytes + x / 8)%nat in
  let bitIndex := (7 - x mod 8)%nat in
  if bit then
    match pixelData !! byteIndex with
    | Some old =>
        <[byteIndex := Z.lor old (Z.shiftl 1 (Z.of_nat bitIndex)) mod 256]> pixelData
    | None => pixelData
    end
  else pixelData.

Definition packRow (w rowBytes : nat) (data : Bytes) (pixelData : Bytes)
    (y : nat) : Bytes :=
  foldl (packPixel w rowBytes data y) pixelData (seq 0 w).

Definition packPixels (w h : nat) (data : Bytes) : Bytes :=
  let rowBytes := ceilDiv8 w in
  foldl (packRow w rowBytes data) (newBuffer (rowBytes * h)) (seq 0 h).

(** The "digest": the first bytes of the packed bitmap, up to eight, in
    an eight-byte zero-filled array. *)
Definition md5digestOf (pixelData : Bytes) : Bytes :=
  foldl (fun md5digest i => <[i := default 0 (pixelData !! i)]> md5digest)
        (newBuffer 8) (seq 0 (Nat.min 8 (length pixelData))).

Definition imageDataToXtg (imageData : ImageData.t) : Bytes :=
  let w := ImageData.width imageData in
  let h := ImageData.height imageData in
  let data := ImageData.data imageData in
  let pixelData := packPixels w h data in
  let md5digest := md5digestOf pixelData in
  let headerSize := 22%nat in
  let totalSize := (headerSize + length pixelData)%nat in
  let buffer := newBuffer totalSize in
  let buffer := setUint8 buffer 0 0x58 in
  let buffer := setUint8 buffer 1 0x54 in
  let buffer := setUint8 buffer 2 0x47 in
  let buffer := setUint8 buffer 3 0x00 in
  let buffer := setUint16 buffer 4 (Z.of_nat w) in
  let buffer := setUint16 buffer 6 (Z.of_nat h) in
  let buffer := setUint8 buffer 8 0 in
  let buffer := setUint8 buffer 9 0 in
  let buffer := setUint32 buffer 10 (Z.of_nat (length pixelData)) in
  let buffer := setBytes buffer md5digest 14 in
  setBytes buffer pixelData headerSize.

(** ** XTC container of the stand-alone converter (app.js 392-447) *)

Definition TARGET_WIDTH : nat := 480.
Definition TARGET_HEIGHT : nat := 800.

(** The index-table loop: one 16-byte entry per blob, [relOffset]
    advancing by the blob length. *)
Fixpoint writeIndexTable (buffer : Bytes) (indexOffset : nat)
    (xtgBlobs : list Bytes) (i : nat) (relOffset : nat) : Bytes :=
  match xtgBlobs with
  | [] => buffer
  | blob :: rest =>
      let entryOffset := (indexOffset + i * 16)%nat in
      let buffer := setBigUint64 buffer entryOffset (Z.of_nat relOffset) in
      let buffer := setUint32 buffer (entryOffset + 8) (Z.of_nat (length blob)) in
      let buffer := setUint16 buffer (entryOffset + 12) (Z.of_nat TARGET_WIDTH) in
      let buffer := setUint16 buffer (entryOffset + 14) (Z.of_nat TARGET_HEIGHT) in
      writeIndexTable buffer indexOffset rest (S i) (relOffset + length blob)
  end.

(** The page-data loop. *)
Fixpoint writePageData (buffer : Bytes) (xtgBlobs : list Bytes)
    (writeOffset : nat) : Bytes :=
  match xtgBlobs with
  | [] => buffer
  | blob :: rest =>
      writePageData (setBytes buffer blob writeOffset) rest (writeOffset + length blob)
  end.

(** [buildXtc] after its first statement, on the encoded pages. *)
Definition buildXtcFromBlobs (xtgBlobs : list Bytes) : Bytes :=
  let pageCount := length xtgBlobs in
  let headerSize := 48%nat in
  let indexEntrySize := 16%nat in
  let indexOffset := headerSize in
  let dataOffset := (indexOffset + pageCount * indexEntrySize)%nat in
  let totalSize := foldl (fun totalSize blob => (totalSize + length blob)%nat)
                         dataOffset xtgBlobs in
  let buffer := newBuffer totalSize in
  let buffer := setUint8 buffer 0 0x58 in
  let buffer := setUint8 buffer 1 0x54 in
  let buffer := setUint8 buffer 2 0x43 in
  let buffer := setUint8 buffer 3 0x00 in
  let buffer := setUint16 buffer 4 1 in
  let buffer := setUint16 buffer 6 (Z.of_nat pageCount) in
  let buffer := setUint8 buffer 8 0 in
  let buffer := setUint8 buffer 9 0 in
  let buffer := setUint8 buffer 10 0 in
  let buffer := setUint8 buffer 11 0 in
  let buffer := setUint32 buffer 12 0 in
  let buffer := setBigUint64 buffer 16 0 in
  let buffer := setBigUint64 buffer 24 (Z.of_nat indexOffset) in
  let buffer := setBigUint64 buffer 32 (Z.of_nat dataOffset) in
  let buffer := setBigUint64 buffer 40 0 in
  let buffer := writeIndexTable buffer indexOffset xtgBlobs 0 dataOffset in
  writePageData buffer xtgBlobs dataOffset.

(** The summed [byteLength] of a list of blobs. *)
Fixpoint byteLength (xtgBlobs : list Bytes) : nat :=
  match xtgBlobs with
  | [] => 0
  | blob :: rest => length blob + byteLength rest
  end.

(** ** Cover handling (converter.ts 74-129) *)

Record TocEntry : Type := mkTocEntry {
  tocTitle : string;
  startPage : Z;
  endPage : Z
}.

(** The fields of [BookMetadata] the conversion reads. *)
Record BookMetadata : Type := mkMetadata {
  coverPage : option number;
  coverImagePath : option string;
  toc : list TocEntry
}.

(** An image entry of the archive: [entry] stands for the archive handle
    (zip entry or extracted bytes). *)
Record ImageFile : Type := mkImageFile {
  path : string;
  entry : nat;
  originalPage : Z
}.

Definition lowerChar (c : ascii) : ascii :=
  let n := nat_of_ascii c in
  if ((65 <=? n) && (n <=? 90))%nat then ascii_of_nat (n + 32) else c.

(** [String.prototype.toLowerCase] on the ASCII letters. *)
Fixpoint toLowerCase (s : string) : string :=
  match s with
  | EmptyString => EmptyString
  | String c r => String (lowerChar c) (toLowerCase r)
  end.

(** [.replace(/\\/g, '/')] *)
Fixpoint replaceBackslashes (s : string) : string :=
  match s with
  | EmptyString => EmptyString
  | String c r =>
      String (if Ascii.eqb c "\"%char then "/"%char else c) (replaceBackslashes r)
  end.

(** [.replace(/^\.\//, '')] *)
Definition stripDotSlash (s : string) : string :=
  match s with
  | String "."%char (String "/"%char r) => r
  | _ => s
  end.

(** [.replace(/^\/+/, '')] *)
Fixpoint stripLeadingSlashes (s : string) : string :=
  match s with
  | String "/"%char r => stripLeadingSlashes r
  | _ => s
  end.

Definition normalizeArchivePath (path : string) : string :=
  toLowerCase (stripLeadingSlashes (stripDotSlash (replaceBackslashes path))).

Fixpoint lastIndexOfFrom (ch : ascii) (s : string) (i found : Z) : Z :=
  match s with
  | EmptyString => found
  | String c r => lastIndexOfFrom ch r (i + 1) (if Ascii.eqb c ch then i else found)
  end.

Definition lastIndexOf (s : string) (ch : ascii) : Z :=
  lastIndexOfFrom ch s 0 (-1).

(** [s.slice(start)] for [0 <= start]. *)
Definition slice (s : string) (start : Z) : string :=
  substring (Z.to_nat start) (String.length s - Z.to_nat start) s.

Definition getBaseName (path : string) : string :=
  let slashIndex := lastIndexOf path "/"%char in
  if slashIndex <? 0 then path else slice path (slashIndex + 1).

(** [Array.prototype.findIndex]: the first index whose element satisfies
    the predicate, or -1. *)
Fixpoint findIndexFrom {A : Type} (p : A -> bool) (l : list A) (i : Z) : Z :=
  match l with
  | [] => -1
  | a :: r => if p a then i else findIndexFrom p r (i + 1)
  end.

Definition findIndex {A : Type} (p : A -> bool) (l : list A) : Z :=
  findIndexFrom p l 0.

(** [(metadata.coverPage ?? 0) > 0] *)
Definition isPositive (value : option number) : bool :=
  match value with
  | Some (Finite q) => if Qlt_le_dec 0 q then true else false
  | Some PosInfinity => true
  | _ => false
  end.

(** [file.originalPage === metadata.coverPage] *)
Definition strictEqualsPage (page : Z) (value : option number) : bool :=
  match value with
  | Some (Finite q) => Qeq_bool (inject_Z page) q
  | _ => false
  end.

(** Truthiness of an optional string. *)
Definition truthy (value : option string) : bool :=
  match value with
  | Some s => negb (String.eqb s "")
  | None => false
  end.

(** [imageFiles.splice(coverIndex, 1)] followed by [unshift]. *)
Definition spliceToFront {A : Type} (l : list A) (coverIndex : nat) : list A :=
  match l !! coverIndex with
  | Some coverImage => coverImage :: (take coverIndex l ++ drop (S coverIndex) l)
  | None => l
  end.

Definition moveCoverToFront (imageFiles : list ImageFile)
    (metadata : BookMetadata) : list ImageFile :=
  if (length imageFiles <? 2)%nat then imageFiles
  else
    let coverIndex := -1 in
    let coverIndex :=
      if isInteger (coverPage metadata) && isPositive (coverPage metadata)
      then findIndex (fun file => strictEqualsPage (originalPage file) (coverPage metadata))
                     imageFiles
      else coverIndex in
    let coverIndex :=
      if (coverIndex =? -1) && truthy (coverImagePath metadata)
      then
        let normalizedCoverPath :=
          normalizeArchivePath (default EmptyString (coverImagePath metadata)) in
        let coverIndex :=
          findIndex (fun file =>
                       String.eqb (normalizeArchivePath (path file)) normalizedCoverPath)
                    imageFiles in
        if coverIndex =? -1
        then
          let coverBaseName := getBaseName normalizedCoverPath in
          findIndex (fun file =>
                       String.eqb (getBaseName (normalizeArchivePath (path file)))
                                  coverBaseName)
                    imageFiles
        else coverIndex
      else coverIndex in
    if 0 <? coverIndex then spliceToFront imageFiles (Z.to_nat coverIndex)
    else imageFiles.

Definition getPageProcessingOptions (baseOptions : ConversionOptions)
    (isCoverPage : bool) : ConversionOptions :=
  if negb isCoverPage || String.eqb (splitMode baseOptions) "nosplit"
  then baseOptions
  else
    {| device := device baseOptions;
       splitMode := "nosplit";
       dithering := dithering baseOptions;
       contrast := contrast baseOptions;
       horizontalMargin := horizontalMargin baseOptions;
       verticalMargin := verticalMargin baseOptions;
       orientation := orientation baseOptions;
       landscapeFlipClockwise := landscapeFlipClockwise baseOptions;
       showProgressPreview := showProgressPreview baseOptions |}.

(** [imageFiles.forEach((imageFile, index) => imageFile.originalPage = index + 1)]
    of convertCbzToXtc and convertCbrToXtc, on the path-sorted entries. *)
Fixpoint assignOriginalPagesFrom (imageFiles : list ImageFile) (index : Z)
    : list ImageFile :=
  match imageFiles with
  | [] => []
  | f :: r =>
      {| path := path f; entry := entry f; originalPage := index + 1 |}
        :: assignOriginalPagesFrom r (index + 1)
  end.

Definition assignOriginalPages (imageFiles : list ImageFile) : list ImageFile :=
  assignOriginalPagesFrom imageFiles 0.

(** The processing order of an archive conversion: number the sorted
    entries, then move the cover to the front. *)
Definition archiveProcessingOrder (sortedFiles : list ImageFile)
    (metadata : BookMetadata) : list ImageFile :=
  moveCoverToFront (assignOriginalPages sortedFiles) metadata.

(** The [getPageOptions] callback both archive converters pass to
    processArchiveSourcePages:
    [(index) => getPageProcessingOptions(options, index === 0)]. *)
Definition archivePageOptions (options : ConversionOptions) (index : nat)
    : ConversionOptions :=
  getPageProcessingOptions options (index =? 0)%nat.

(** ** Page processing (converter.ts 676-768, convert-page.worker.ts 139-233) *)

(** A rectangle [{x, y, w, h}] of the cropped page, as
    calculateOverlapSegments returns them and extractAndRotate takes
    them. *)
Record Segment : Type := mkSegment {
  segX : Z;
  segY : Z;
  segW : Z;
  segH : Z
}.

(** A processed page.  The canvas API is outside the repository: the
    canvas of a page is described by what the code draws into it, the
    region of the cropped grayscale page ([drawn]) and the rotation in
    degrees (0 when the page is not rotated), before it is pad-resized
    to the target size and dithered. *)
Record ProcessedPage : Type := mkProcessedPage {
  name : string;
  drawn : Segment;
  rotation : Z
}.

(** [String(n)] for an integer. *)
Definition numberToString (n : Z) : string :=
  NilZero.string_of_int (Z.to_int n).

Fixpoint repeatChar (c : ascii) (count : nat) : string :=
  match count with
  | O => EmptyString
  | S k => String c (repeatChar c k)
  end.

(** [s.padStart(targetLength, '0')] *)
Definition padStart (s : string) (targetLength : nat) (c : ascii) : string :=
  (repeatChar c (targetLength - String.length s) +:+ s)%string.

(** [String.fromCharCode(97 + idx)] *)
Definition letterOf (idx : nat) : string :=
  String (ascii_of_nat (97 + idx)) EmptyString.

Definition pageName (pageNum : Z) (suffix : string) : string :=
  (padStart (numberToString pageNum) 4 "0"%char +:+ suffix)%string.

Section Pipeline.

Variable rnd : Q -> Q.

(** [calculateOverlapSegments] of processing/image, which the sources do
    not include: taken as a parameter. *)
Variable calculateOverlapSegments : Z -> Z -> list Segment.

Definition wholePage (width height : Z) : Segment :=
  {| segX := 0; segY := 0; segW := width; segH := height |}.

Fixpoint overlapPages (pageNum : Z) (landscapeRotation : Z)
    (segments : list Segment) (idx : nat) : list ProcessedPage :=
  match segments with
  | [] => []
  | seg :: rest =>
      {| name := pageName pageNum ("_3_" +:+ letterOf idx +:+ ".png");
         drawn := seg;
         rotation := landscapeRotation |}
        :: overlapPages pageNum landscapeRotation rest (S idx)
  end.

(** [processLoadedImage(img, pageNum, options)], for an image of
    [imgWidth] by [imgHeight] pixels. *)
Definition processLoadedImage (imgWidth imgHeight : Z) (pageNum : Z)
    (options : ConversionOptions) : list ProcessedPage :=
  let crop := getAxisCropRect rnd imgWidth imgHeight options in
  let width := width crop in
  let height := height crop in
  match orientation options with
  | portrait =>
      [ {| name := pageName pageNum "_0_page.png";
           drawn := wholePage width height;
           rotation := 0 |} ]
  | landscape =>
      let landscapeRotation := if landscapeFlipClockwise options then -90 else 90 in
      let shouldSplit :=
        (width <? height) && negb (String.eqb (splitMode options) "nosplit") in
      if shouldSplit then
        if String.eqb (splitMode options) "overlap" then
          overlapPages pageNum landscapeRotation
                       (calculateOverlapSegments width height) 0
        else
          let halfHeight := height / 2 in
          [ {| name := pageName pageNum "_2_a.png";
               drawn := {| segX := 0; segY := 0; segW := width; segH := halfHeight |};
               rotation := landscapeRotation |};
            {| name := pageName pageNum "_2_b.png";
               drawn := {| segX := 0; segY := halfHeight; segW := width;
                           segH := halfHeight |};
               rotation := landscapeRotation |} ]
      else
        [ {| name := pageName pageNum "_0_spread.png";
             drawn := wholePage width height;
             rotation := landscapeRotation |} ]
  end.

(** A page result of the worker: the processed page and whether a
    preview was rendered for it. *)
Record WorkerPageResult : Type := mkWorkerPageResult {
  workerPage : ProcessedPage;
  hasPreview : bool
}.

Definition buildWorkerPage (name : string) (drawn : Segment) (rotation : Z)
    (includePreview : bool) : WorkerPageResult :=
  {| workerPage := {| name := name; drawn := drawn; rotation := rotation |};
     hasPreview := includePreview |}.

Fixpoint overlapWorkerPages (pageNum : Z) (landscapeRotation : Z)
    (includePreview : bool) (segments : list Segment) (idx : nat)
    (previewAssigned : bool) : list WorkerPageResult :=
  match segments with
  | [] => []
  | seg :: rest =>
      buildWorkerPage (pageName pageNum ("_3_" +:+ letterOf idx +:+ ".png"))
                      seg landscapeRotation
                      (includePreview && negb previewAssigned)
        :: overlapWorkerPages pageNum landscapeRotation includePreview rest (S idx) true
  end.

(** [processBitmap(source, pageNum, options, includePreview)] of the
    page worker, for a bitmap of [srcWidth] by [srcHeight] pixels. *)
Definition processBitmap (srcWidth srcHeight : Z) (pageNum : Z)
    (options : ConversionOptions) (includePreview : bool)
    : list WorkerPageResult :=
  let crop := getAxisCropRect rnd srcWidth srcHeight options in
  let width := width crop in
  let height := height crop in
  match orientation options with
  | portrait =>
      [ buildWorkerPage (pageName pageNum "_0_page.png")
                        (wholePage width height) 0 includePreview ]
  | landscape =>
      let landscapeRotation := if landscapeFlipClockwise options then -90 else 90 in
      let shouldSplit :=
        (width <? height) && negb (String.eqb (splitMode options) "nosplit") in
      let previewAssigned := false in
      if shouldSplit then
        if String.eqb (splitMode options) "overlap" then
          overlapWorkerPages pageNum landscapeRotation includePreview
                             (calculateOverlapSegments width height) 0 previewAssigned
        else
          let halfHeight := height / 2 in
          [ buildWorkerPage (pageName pageNum "_2_a.png")
                            {| segX := 0; segY := 0; segW := width; segH := halfHeight |}
                            landscapeRotation (includePreview && negb previewAssigned);
            buildWorkerPage (pageName pageNum "_2_b.png")
                            {| segX := 0; segY := halfHeight; segW := width;
                               segH := halfHeight |}
                            landscapeRotation (includePreview && negb true) ]
      else
        [ buildWorkerPage (pageName pageNum "_0_spread.png")
                          (wholePage width height) landscapeRotation includePreview ]
  end.

End Pipeline.

(** Row [row] of the cropped page is inside the region a page draws:
    drawImage copies rows [segY .. segY + segH - 1]. *)
Definition coversRow (page : ProcessedPage) (row : Z) : bool :=
  (segY (drawn page) <=? row) && (row <? segY (drawn page) + segH (drawn page)).





(** ** Ordering of pages by name (converter.ts 187-210, app.js 261) *)

Fixpoint lexCompare (a b : list N) : comparison :=
  match a, b with
  | [], [] => Eq
  | [], _ :: _ => Lt
  | _ :: _, [] => Gt
  | u :: a', v :: b' =>
      match N.compare u v with
      | Eq => lexCompare a' b'
      | c => c
      end
  end.

(** [a.localeCompare(b)]: the collation is the platform's.  It is
    modelled as the lexicographic comparison of the strings under a
    collation key [rank] of the characters; the properties below ask of
    [rank] only that it orders the digits and the lower-case letters in
    the usual way, which the code-unit order and the Unicode collation
    order both do. *)
Definition localeCompare (rank : ascii -> N) (a b : string) : comparison :=
  lexCompare (map rank (list_ascii_of_string a)) (map rank (list_ascii_of_string b)).

(** [Array.prototype.sort(compare)] is a stable sort: the result is the
    one a stable insertion sort gives. *)
Fixpoint insertSorted {A : Type} (compare : A -> A -> comparison) (a : A)
    (sorted : list A) : list A :=
  match sorted with
  | [] => [a]
  | b :: rest =>
      match compare a b with
      | Gt => b :: insertSorted compare a rest
      | _ => a :: b :: rest
      end
  end.

Fixpoint sortBy {A : Type} (compare : A -> A -> comparison) (l : list A) : list A :=
  match l with
  | [] => []
  | a :: rest => insertSorted compare a (sortBy compare rest)
  end.

Record EncodedPage : Type := mkEncodedPage {
  encodedName : string;
  xtg : Bytes
}.

Inductive PreviewMode : Type := sparse | full.

Record ConversionResult : Type := mkConversionResult {
  resultName : string;
  resultData : Bytes;
  resultSize : nat;
  pageCount : nat;
  pageImages : list string;
  previewMode : PreviewMode
}.

(** Modelled from the spec: [PageMappingContext] of page-mapping, which
    the sources do not include, is the ordered list of
    (originalPageNumber, outputCount) pairs. *)
Abbreviation PageMappingContext := (list (Z * nat)) (only parsing).

(** Modelled from the spec: [addOriginalPage], missing with its class,
    appends a pair to the mapping. *)
Definition addOriginalPage (mappingCtx : PageMappingContext)
    (originalPage : Z) (outputCount : nat) : PageMappingContext :=
  mappingCtx ++ [(originalPage, outputCount)].

Section Finalize.

Variable rank : ascii -> N.

(** [buildXtcFromXtgPages] of xtc-format and [adjustTocForMapping] of
    page-mapping, which the sources do not include: parameters. *)
Variable buildXtcFromXtgPages : list Bytes -> BookMetadata -> Bytes.
Variable adjustTocForMapping : list TocEntry -> PageMappingContext -> list TocEntry.

Definition sortEncodedPages (encodedPages : list EncodedPage) : list EncodedPage :=
  sortBy (fun a b => localeCompare rank (encodedName a) (encodedName b)) encodedPages.

Definition finalizeConversionResult (outputName : string)
    (encodedPages : list EncodedPage) (mappingCtx : PageMappingContext)
    (metadata : BookMetadata) (sampledPreviews : list string) : ConversionResult :=
  let encodedPages := sortEncodedPages encodedPages in
  let metadata :=
    if (0 <? length (toc metadata))%nat
    then {| coverPage := coverPage metadata;
            coverImagePath := coverImagePath metadata;
            toc := adjustTocForMapping (toc metadata) mappingCtx |}
    else metadata in
  let xtcData := buildXtcFromXtgPages (map xtg encodedPages) metadata in
  {| resultName := outputName;
     resultData := xtcData;
     resultSize := length xtcData;
     pageCount := length encodedPages;
     pageImages := sampledPreviews;
     previewMode := sparse |}.

End Finalize.

(** ** The stand-alone converter's container (app.js 392-397) *)

Section StandaloneConverter.

(** [page.canvas.getContext('2d').getImageData(0, 0, TARGET_WIDTH,
    TARGET_HEIGHT).data]: the canvas API is outside the repository, the
    RGBA bytes it returns for a page are a parameter. *)
Variable canvasPixels : ProcessedPage -> Bytes.

Definition getImageData (page : ProcessedPage) : ImageData.t :=
  ImageData.mk TARGET_WIDTH TARGET_HEIGHT (canvasPixels page).

Definition buildXtc (pages : list ProcessedPage) : Bytes :=
  let xtgBlobs := map (fun page => imageDataToXtg (getImageData page)) pages in
  buildXtcFromBlobs xtgBlobs.

End StandaloneConverter.

(** The end of the stand-alone [convertCbzToXtc] (app.js 261-266):
    the processed pages are sorted by name and packed. *)
Definition sortProcessedPages (rank : ascii -> N) (processedPages : list ProcessedPage)
    : list ProcessedPage :=
  sortBy (fun a b => localeCompare rank (name a) (name b)) processedPages.

Definition standaloneContainer (rank : ascii -> N)
    (canvasPixels : ProcessedPage -> Bytes) (processedPages : list ProcessedPage) : Bytes :=
  buildXtc canvasPixels (sortProcessedPages rank processedPages).

(** ** Results of an archive batch (converter.ts 246-294, 310-318) *)

(** What processing one source page comes to: the page worker decoded
    and processed a bitmap of the given size, processImage decoded and
    processed an image of the given size in process, or the image failed
    to load and processImage resolved to no pages. *)
Inductive PageOutcome : Type :=
| ByWorker (srcWidth srcHeight : Z) (includePreview : bool)
| InProcess (imgWidth imgHeight : Z)
| DecodeFailed.

Section ArchiveBatch.

Variable rnd : Q -> Q.
Variable calculateOverlapSegments : Z -> Z -> list Segment.

(** The pixels of a processed page's canvas, at the target size. *)
Variable canvasImage : ProcessedPage -> ImageData.t.

(** [encodeCanvasPage], and the encoding buildWorkerPage applies. *)
Definition encodeCanvasPage (page : ProcessedPage) : EncodedPage :=
  {| encodedName := name page; xtg := imageDataToXtg (canvasImage page) |}.

(** The value stored in [pageResultsByIndex[index]]. *)
Definition pageResultsOf (index : nat) (options : ConversionOptions)
    (outcome : PageOutcome) : list EncodedPage :=
  let pageNum := Z.of_nat index + 1 in
  match outcome with
  | ByWorker srcWidth srcHeight includePreview =>
      map (fun result => encodeCanvasPage (workerPage result))
          (processBitmap rnd calculateOverlapSegments srcWidth srcHeight pageNum
                         options includePreview)
  | InProcess imgWidth imgHeight =>
      map encodeCanvasPage
          (processLoadedImage rnd calculateOverlapSegments imgWidth imgHeight pageNum
                              options)
  | DecodeFailed => []
  end.

End ArchiveBatch.

(** The loop after the join (converter.ts 310-316), from index [i] on:
    a hole of the results array counts as no pages. *)
Fixpoint collectResults (getOriginalPage : nat -> Z)
    (pageResultsByIndex : list (option (list EncodedPage))) (i : nat)
    (mappingCtx : PageMappingContext) (encodedPages : list EncodedPage)
    : PageMappingContext * list EncodedPage :=
  match pageResultsByIndex with
  | [] => (mappingCtx, encodedPages)
  | slot :: rest =>
      let pages := default [] slot in
      let mappingCtx := addOriginalPage mappingCtx (getOriginalPage i) (length pages) in
      let encodedPages := encodedPages ++ pages in
      collectResults getOriginalPage rest (S i) mappingCtx encodedPages
  end.

(** [pageResultsByIndex[index] = pageResults] (converter.ts 294). *)
Definition storeResults (pageResultsByIndex : list (option (list EncodedPage)))
    (completion : nat * list EncodedPage) : list (option (list EncodedPage)) :=
  <[fst completion := Some (snd completion)]> pageResultsByIndex.

(** [new Array(totalPages)] followed by the stores of the pages in the
    order in which their processing completed. *)
Definition resultsAfter (totalPages : nat)
    (completions : list (nat * list EncodedPage)) : list (option (list EncodedPage)) :=
  foldl storeResults (replicate totalPages None) completions.

(** The mapping context and page list processArchiveSourcePages returns
    (converter.ts 310-318). *)
Definition gatherBatch (getOriginalPage : nat -> Z) (totalPages : nat)
    (completions : list (nat * list EncodedPage))
    : PageMappingContext * list EncodedPage :=
  collectResults getOriginalPage (resultsAfter totalPages completions) 0 [] [].

(** The results array when every page of the batch has been processed:
    entry [index] holds the results of page [index]. *)
Fixpoint batchResults (rnd : Q -> Q) (calculateOverlapSegments : Z -> Z -> list Segment)
    (canvasImage : ProcessedPage -> ImageData.t)
    (batch : list (ConversionOptions * PageOutcome)) (index : nat)
    : list (option (list EncodedPage)) :=
  match batch with
  | [] => []
  | (options, outcome) :: rest =>
      Some (pageResultsOf rnd calculateOverlapSegments canvasImage index options outcome)
        :: batchResults rnd calculateOverlapSegments canvasImage rest (S index)
  end.

(** The pages the stand-alone converter makes of one cropped image
    (app.js 343-389). *)
Definition standalonePages (calculateOverlapSegments : Z -> Z -> list Segment)
    (width height : Z) (pageNum : Z) (splitMode : string) : list ProcessedPage :=
  let shouldSplit := (width <? height) && negb (String.eqb splitMode "nosplit") in
  if shouldSplit then
    if String.eqb splitMode "overlap" then
      overlapPages pageNum 90 (calculateOverlapSegments width height) 0
    else
      let halfHeight := height / 2 in
      [ {| name := pageName pageNum "_2_a.png";
           drawn := {| segX := 0; segY := 0; segW := width; segH := halfHeight |};
           rotation := 90 |};
        {| name := pageName pageNum "_2_b.png";
           drawn := {| segX := 0; segY := halfHeight; segW := width; segH := halfHeight |};
           rotation := 90 |} ]
  else
    [ {| name := pageName pageNum "_0_spread.png";
         drawn := wholePage width height;
         rotation := 90 |} ].

(** The pages of the stand-alone conversion loop (app.js 246-259), from
    page number [pageNum] on; [None] is an image that failed to load. *)
Fixpoint standaloneBatch (calculateOverlapSegments : Z -> Z -> list Segment)
    (images : list (option (Z * Z) * string)) (pageNum : Z) : list ProcessedPage :=
  match images with
  | [] => []
  | (Some (width, height), splitMode) :: rest =>
      standalonePages calculateOverlapSegments width height pageNum splitMode
        ++ standaloneBatch calculateOverlapSegments rest (pageNum + 1)
  | (None, _) :: rest => standaloneBatch calculateOverlapSegments rest (pageNum + 1)
  end.

(** ** Collation keys *)

Definition digitChar (d : nat) : ascii := ascii_of_nat (48 + d).
Definition letterChar (i : nat) : ascii := ascii_of_nat (97 + i).

(** The collation orders the digits by value and the lower-case letters
    alphabetically. *)
Definition digitsOrdered (rank : ascii -> N) : Prop :=
  forall i j : nat, (i < j <= 9)%nat -> (rank (digitChar i) < rank (digitChar j))%N.

Definition lettersOrdered (rank : ascii -> N) : Prop :=
  forall i j : nat, (i < j < 26)%nat -> (rank (letterChar i) < rank (letterChar j))%N.

(** The code-unit order. *)
Definition codeUnit (c : ascii) : N := N_of_ascii c.

(** The name suffixes one source page can produce. *)
Inductive pageSuffixes : list string -> Prop :=
| suffixes_none : pageSuffixes []
| suffixes_page : pageSuffixes ["_0_page.png"]
| suffixes_spread : pageSuffixes ["_0_spread.png"]
| suffixes_half : pageSuffixes ["_2_a.png"; "_2_b.png"]
| suffixes_overlap (count : nat) :
    (count <= 26)%nat ->
    pageSuffixes (map (fun idx => "_3_" +:+ letterOf idx +:+ ".png") (seq 0 count)).

(** The names of consecutive pages numbered from [pageNum], in
    generation order. *)
Fixpoint generatedNames (pageNum : Z) (suffixes : list (list string)) : list string :=
  match suffixes with
  | [] => []
  | page :: rest => map (pageName pageNum) page ++ generatedNames (pageNum + 1) rest
  end.

(** ** The worker pool (conversion/worker-pool.ts) *)

Record WorkerProcessedPage : Type := mkWorkerProcessedPage {
  workerName : string;
  workerXtg : Bytes;
  previewJpeg : option Bytes
}.

(** A message of a page worker: [pages] or [error] is present. *)
Record WorkerResponse : Type := mkWorkerResponse {
  responseJobId : nat;
  responsePages : option (list WorkerProcessedPage);
  responseError : option string
}.

(** A queued job.  Its [resolve] and [reject] callbacks settle the
    promise processPage returned for it: the promise is identified by
    the job's [id], and its state is kept in the pool's [promises].  A
    [Blob] is a handle. *)
Module QueueJob.
Record t : Type := mk {
  id : nat;
  pageNum : Z;
  blob : nat;
  options : ConversionOptions;
  includePreview : bool
}.
End QueueJob.

(** [terminated] records [worker.terminate()]. *)
Record WorkerSlot : Type := mkWorkerSlot {
  terminated : bool;
  busy : bool;
  currentJob : option QueueJob.t
}.

Inductive Settlement : Type :=
| Resolved (pages : list WorkerProcessedPage)
| Rejected (message : string).

Record ConvertWorkerPool : Type := mkPool {
  slots : list WorkerSlot;
  queue : list QueueJob.t;
  nextJobId : nat;
  isDestroyed : bool;
  promises : gmap nat Settlement
}.

(** What processPage returns: a promise rejected on the spot, or the
    promise of a job. *)
Inductive JobPromise : Type :=
| RejectedNow (message : string)
| PromiseOf (jobId : nat).

(** [job.resolve(...)] and [job.reject(...)]: settling a promise that is
    already settled does nothing. *)
Definition settle (promises : gmap nat Settlement) (jobId : nat)
    (outcome : Settlement) : gmap nat Settlement :=
  match promises !! jobId with
  | None => <[jobId := outcome]> promises
  | Some _ => promises
  end.

(** [new ConvertWorkerPool(poolSize)] *)
Definition newPool (poolSize : nat) : ConvertWorkerPool :=
  {| slots := replicate poolSize
                {| terminated := false; busy := false; currentJob := None |};
     queue := [];
     nextJobId := 1;
     isDestroyed := false;
     promises := ∅ |}.

(** The loop of [pump]: every slot that is not busy takes the next
    queued job (and posts it to its worker); the loop ends when the
    queue is empty. *)
Fixpoint pumpSlots (slots : list WorkerSlot) (queue : list QueueJob.t)
    : list WorkerSlot * list QueueJob.t :=
  match slots with
  | [] => ([], queue)
  | slot :: rest =>
      if busy slot then
        let '(rest', queue') := pumpSlots rest queue in (slot :: rest', queue')
      else
        match queue with
        | [] => (slot :: rest, [])
        | job :: queue' =>
            let '(rest', queue'') := pumpSlots rest queue' in
            ({| terminated := terminated slot; busy := true; currentJob := Some job |}
               :: rest', queue'')
        end
  end.

Definition pump (pool : ConvertWorkerPool) : ConvertWorkerPool :=
  if isDestroyed pool then pool
  else
    let '(slots', queue') := pumpSlots (slots pool) (queue pool) in
    {| slots := slots'; queue := queue'; nextJobId := nextJobId pool;
       isDestroyed := isDestroyed pool; promises := promises pool |}.

Definition processPage (pool : ConvertWorkerPool) (pageNum : Z) (blob : nat)
    (options : ConversionOptions) (includePreview : bool)
    : ConvertWorkerPool * JobPromise :=
  if isDestroyed pool then (pool, RejectedNow "Worker pool is destroyed")
  else
    let job := QueueJob.mk (nextJobId pool) pageNum blob options includePreview in
    let pool :=
      {| slots := slots pool; queue := queue pool ++ [job];
         nextJobId := S (nextJobId pool);
         isDestroyed := isDestroyed pool; promises := promises pool |} in
    (pump pool, PromiseOf (QueueJob.id job)).

(** [worker.onmessage] of the slot at [slotIndex]. *)
Definition onmessage (pool : ConvertWorkerPool) (slotIndex : nat)
    (message : WorkerResponse) : ConvertWorkerPool :=
  match slots pool !! slotIndex with
  | None => pool
  | Some slot =>
      match currentJob slot with
      | None => pool
      | Some job =>
          if negb (QueueJob.id job =? responseJobId message)%nat then pool
          else
            let slot := {| terminated := terminated slot; busy := false;
                           currentJob := None |} in
            let promises :=
              if truthy (responseError message)
              then settle (promises pool) (QueueJob.id job)
                          (Rejected (default EmptyString (responseError message)))
              else settle (promises pool) (QueueJob.id job)
                          (Resolved (default [] (responsePages message))) in
            pump {| slots := <[slotIndex := slot]> (slots pool); queue := queue pool;
                    nextJobId := nextJobId pool; isDestroyed := isDestroyed pool;
                    promises := promises |}
      end
  end.

(** [worker.onerror] of the slot at [slotIndex]. *)
Definition onerror (pool : ConvertWorkerPool) (slotIndex : nat)
    (eventMessage : string) : ConvertWorkerPool :=
  match slots pool !! slotIndex with
  | None => pool
  | Some slot =>
      let job := currentJob slot in
      let slot := {| terminated := terminated slot; busy := false;
                     currentJob := None |} in
      let promises :=
        match job with
        | Some job =>
            settle (promises pool) (QueueJob.id job)
                   (Rejected (if String.eqb eventMessage "" then "Page worker crashed"
                              else eventMessage))
        | None => promises pool
        end in
      pump {| slots := <[slotIndex := slot]> (slots pool); queue := queue pool;
              nextJobId := nextJobId pool; isDestroyed := isDestroyed pool;
              promises := promises |}
  end.

(** The first loop of [destroy]: reject the job of each slot and
    terminate its worker. *)
Fixpoint destroySlots (slots : list WorkerSlot) (promises : gmap nat Settlement)
    : list WorkerSlot * gmap nat Settlement :=
  match slots with
  | [] => ([], promises)
  | slot :: rest =>
      let promises :=
        match currentJob slot with
        | Some job => settle promises (QueueJob.id job) (Rejected "Worker pool destroyed")
        | None => promises
        end in
      let slot := {| terminated := true; busy := busy slot; currentJob := None |} in
      let '(rest', promises') := destroySlots rest promises in
      (slot :: rest', promises')
  end.

(** The second loop of [destroy]: reject the queued jobs. *)
Fixpoint rejectQueue (queue : list QueueJob.t) (promises : gmap nat Settlement)
    : gmap nat Settlement :=
  match queue with
  | [] => promises
  | job :: rest =>
      rejectQueue rest (settle promises (QueueJob.id job) (Rejected "Worker pool destroyed"))
  end.

Definition destroy (pool : ConvertWorkerPool) : ConvertWorkerPool :=
  if isDestroyed pool then pool
  else
    let '(slots', promises') := destroySlots (slots pool) (promises pool) in
    {| slots := slots'; queue := [];
       nextJobId := nextJobId pool;
       isDestroyed := true;
       promises := rejectQueue (queue pool) promises' |}.

(** A use of the pool: the calls of its owner and the events of its
    workers, in the order in which they happen. *)
Inductive PoolCall : Type :=
| CallProcessPage (pageNum : Z) (blob : nat) (options : ConversionOptions)
    (includePreview : bool)
| CallOnMessage (slotIndex : nat) (message : WorkerResponse)
| CallOnError (slotIndex : nat) (eventMessage : string)
| CallDestroy.

Definition applyCall (pool : ConvertWorkerPool) (call : PoolCall) : ConvertWorkerPool :=
  match call with
  | CallProcessPage pageNum blob options includePreview =>
      fst (processPage pool pageNum blob options includePreview)
  | CallOnMessage slotIndex message => onmessage pool slotIndex message
  | CallOnError slotIndex eventMessage => onerror pool slotIndex eventMessage
  | CallDestroy => destroy pool
  end.

Definition poolAfter (poolSize : nat) (calls : list PoolCall) : ConvertWorkerPool :=
  foldl applyCall (newPool poolSize) calls.

(** The jobs whose promise the pool holds: the queued ones and the one
    of each slot. *)
Fixpoint currentIds (slots : list WorkerSlot) : list nat :=
  match slots with
  | [] => []
  | slot :: rest =>
      match currentJob slot with
      | Some job => QueueJob.id job :: currentIds rest
      | None => currentIds rest
      end
  end.

Definition heldIds (pool : ConvertWorkerPool) : list nat :=
  map QueueJob.id (queue pool) ++ currentIds (slots pool).

(** ** The slots of processArchiveSourcePages (converter.ts 212-308)

    JavaScript runs the slots on one thread and switches between them
    only where one awaits.  A slot is therefore at the head of its loop,
    at one of its awaits, or has ended; an event runs one slot from
    where it stands to its next await, delivers a worker's answer to
    the pool, or settles the await of [Promise.all].  The events of a
    run may come in any order that the states allow.

    A slot ends in one of three ways.  It returns.  It throws: the
    await of [getBlob(index)] is outside the [try], so that a rejected
    [getBlob] rejects the slot and with it the join.  Or it hangs:
    processImage settles from the handlers of the image only, so that
    when processLoadedImage throws inside [img.onload] its promise
    never settles and the slot waits for ever.  A slot that throws or
    hangs keeps the page it held, which is never stored.
    [encodeCanvasPage], [toDataURL] and the [onProgress] callback are
    taken not to throw. *)

Inductive LaneState : Type :=
| AtLoopHead
| AwaitingBlob (index : nat)
| AwaitingWorker (index : nat) (promise : JobPromise)
| AwaitingImage (index : nat)
| Returned
| Thrown (index : nat)
| Hung (index : nat).

(** The variables of processArchiveSourcePages.  [poolObject] is the
    pool constructed at the start, whose promises the slots may still
    await after the variable [pool] is set to null; [poolSet] tells
    whether [pool] is non-null.  [stored] lists the assignments
    [pageResultsByIndex[index] = pageResults] in the order in which they
    happen.  [joined] tells whether the await of [Promise.all] has
    settled and the [finally] block has run. *)
Record Batch : Type := mkBatch {
  totalPages : nat;
  poolObject : ConvertWorkerPool;
  poolSet : bool;
  workerDisabled : bool;
  nextIndex : nat;
  completed : nat;
  lanes : list LaneState;
  stored : list (nat * list EncodedPage);
  joined : bool
}.

Inductive Event : Type :=
| RunLoop (lane : nat)
| BlobLoaded (lane : nat) (includePreview : bool)
| WorkerPosts (slotIndex : nat) (message : WorkerResponse)
| WorkerCrashes (slotIndex : nat) (eventMessage : string)
| WorkerSettled (lane : nat) (previewFails : bool)
| ImageProcessed (lane : nat) (pages : list EncodedPage)
| BlobRejected (lane : nat)
| ImageThrows (lane : nat)
| JoinSettles.

(** The state before [Promise.all] starts the slots: [concurrency] is
    the pool size when the worker pipeline is supported, 1 otherwise. *)
Definition startBatch (totalPages workerPoolSize : nat) (supported : bool) : Batch :=
  {| totalPages := totalPages;
     poolObject := newPool (if supported then workerPoolSize else 0);
     poolSet := supported;
     workerDisabled := false;
     nextIndex := 0;
     completed := 0;
     lanes := replicate (if supported then workerPoolSize else 1) AtLoopHead;
     stored := [];
     joined := false |}.

Definition setLane (batch : Batch) (lane : nat) (state : LaneState) : Batch :=
  {| totalPages := totalPages batch; poolObject := poolObject batch;
     poolSet := poolSet batch; workerDisabled := workerDisabled batch;
     nextIndex := nextIndex batch; completed := completed batch;
     lanes := <[lane := state]> (lanes batch); stored := stored batch;
     joined := joined batch |}.

Definition setPoolObject (batch : Batch) (pool : ConvertWorkerPool) : Batch :=
  {| totalPages := totalPages batch; poolObject := pool;
     poolSet := poolSet batch; workerDisabled := workerDisabled batch;
     nextIndex := nextIndex batch; completed := completed batch;
     lanes := lanes batch; stored := stored batch; joined := joined batch |}.

(** The [catch] block: the first failure disables the workers, destroys
    the pool and drops it. *)
Definition catchFailure (batch : Batch) : Batch :=
  if workerDisabled batch then batch
  else
    {| totalPages := totalPages batch; poolObject := destroy (poolObject batch);
       poolSet := false; workerDisabled := true;
       nextIndex := nextIndex batch; completed := completed batch;
       lanes := lanes batch; stored := stored batch; joined := joined batch |}.

(** [pageResultsByIndex[index] = pageResults; completed++], after which
    the slot is back at the head of its loop. *)
Definition storePage (batch : Batch) (lane index : nat)
    (pageResults : list EncodedPage) : Batch :=
  {| totalPages := totalPages batch; poolObject := poolObject batch;
     poolSet := poolSet batch; workerDisabled := workerDisabled batch;
     nextIndex := nextIndex batch; completed := S (completed batch);
     lanes := <[lane := AtLoopHead]> (lanes batch);
     stored := stored batch ++ [(index, pageResults)];
     joined := joined batch |}.

(** Every slot has returned: [Promise.all] resolves. *)
Definition allReturned (batch : Batch) : bool :=
  forallb (fun state => match state with Returned => true | _ => false end)
          (lanes batch).

(** A slot has thrown: [Promise.all] rejects. *)
Definition someThrown (batch : Batch) : bool :=
  existsb (fun state => match state with Thrown _ => true | _ => false end)
          (lanes batch).

(** The [finally] block that follows the await of [Promise.all]:
    [pool?.destroy()]. *)
Definition settleJoin (batch : Batch) : Batch :=
  {| totalPages := totalPages batch;
     poolObject := if poolSet batch then destroy (poolObject batch)
                   else poolObject batch;
     poolSet := poolSet batch; workerDisabled := workerDisabled batch;
     nextIndex := nextIndex batch; completed := completed batch;
     lanes := lanes batch; stored := stored batch; joined := true |}.

(** The state of the promise a slot awaits. *)
Definition promiseState (pool : ConvertWorkerPool) (promise : JobPromise)
    : option Settlement :=
  match promise with
  | RejectedNow message => Some (Rejected message)
  | PromiseOf jobId => promises pool !! jobId
  end.

Definition encodedOfWorker (page : WorkerProcessedPage) : EncodedPage :=
  {| encodedName := workerName page; xtg := workerXtg page |}.

Definition hasPreviewJpeg (page : WorkerProcessedPage) : bool :=
  match previewJpeg page with
  | Some _ => true
  | None => false
  end.

(** The job a worker is working on. *)
Definition jobOfSlot (pool : ConvertWorkerPool) (slotIndex : nat) : option QueueJob.t :=
  match slots pool !! slotIndex with
  | Some slot => currentJob slot
  | None => None
  end.

Section Slots.

(** [getPageOptions], a parameter of processArchiveSourcePages. *)
Variable getPageOptions : nat -> ConversionOptions.

(** One event; [None] when the state does not allow it.  A worker
    answers only for the job posted to it.  [previewFails] says whether
    turning the preview into a data URL fails, which can only happen
    when a page came with a preview.  The join settles once, when every
    slot has returned or one has thrown. *)
Definition step (batch : Batch) (event : Event) : option Batch :=
  match event with
  | RunLoop lane =>
      match lanes batch !! lane with
      | Some AtLoopHead =>
          if workerDisabled batch && (0 <? lane)%nat
          then Some (setLane batch lane Returned)
          else
            let index := nextIndex batch in
            let batch :=
              {| totalPages := totalPages batch; poolObject := poolObject batch;
                 poolSet := poolSet batch; workerDisabled := workerDisabled batch;
                 nextIndex := S (nextIndex batch); completed := completed batch;
                 lanes := lanes batch; stored := stored batch;
                 joined := joined batch |} in
            if (totalPages batch <=? index)%nat
            then Some (setLane batch lane Returned)
            else Some (setLane batch lane (AwaitingBlob index))
      | _ => None
      end
  | BlobLoaded lane includePreview =>
      match lanes batch !! lane with
      | Some (AwaitingBlob index) =>
          if poolSet batch && negb (workerDisabled batch)
          then
            let '(pool, promise) :=
              processPage (poolObject batch) (Z.of_nat index + 1) index
                          (getPageOptions index) includePreview in
            Some (setLane (setPoolObject batch pool) lane (AwaitingWorker index promise))
          else Some (setLane batch lane (AwaitingImage index))
      | _ => None
      end
  | WorkerPosts slotIndex message =>
      match jobOfSlot (poolObject batch) slotIndex with
      | Some job =>
          if (QueueJob.id job =? responseJobId message)%nat
          then Some (setPoolObject batch (onmessage (poolObject batch) slotIndex message))
          else None
      | None => None
      end
  | WorkerCrashes slotIndex eventMessage =>
      match jobOfSlot (poolObject batch) slotIndex with
      | Some job =>
          Some (setPoolObject batch (onerror (poolObject batch) slotIndex eventMessage))
      | None => None
      end
  | WorkerSettled lane previewFails =>
      match lanes batch !! lane with
      | Some (AwaitingWorker index promise) =>
          match promiseState (poolObject batch) promise with
          | Some (Resolved workerPages) =>
              let pageResults := map encodedOfWorker workerPages in
              let batch :=
                if previewFails && existsb hasPreviewJpeg workerPages
                then catchFailure batch else batch in
              match pageResults with
              | [] => Some (setLane batch lane (AwaitingImage index))
              | _ :: _ => Some (storePage batch lane index pageResults)
              end
          | Some (Rejected _) =>
              Some (setLane (catchFailure batch) lane (AwaitingImage index))
          | None => None
          end
      | _ => None
      end
  | ImageProcessed lane pages =>
      match lanes batch !! lane with
      | Some (AwaitingImage index) => Some (storePage batch lane index pages)
      | _ => None
      end
  | BlobRejected lane =>
      match lanes batch !! lane with
      | Some (AwaitingBlob index) => Some (setLane batch lane (Thrown index))
      | _ => None
      end
  | ImageThrows lane =>
      match lanes batch !! lane with
      | Some (AwaitingImage index) => Some (setLane batch lane (Hung index))
      | _ => None
      end
  | JoinSettles =>
      if joined batch then None
      else if allReturned batch || someThrown batch then Some (settleJoin batch)
      else None
  end.

Fixpoint runEvents (batch : Batch) (events : list Event) : option Batch :=
  match events with
  | [] => Some batch
  | event :: rest =>
      match step batch event with
      | Some batch' => runEvents batch' rest
      | None => None
      end
  end.

End Slots.

(** The index of the page a slot holds. *)
Definition laneIndex (state : LaneState) : option nat :=
  match state with
  | AwaitingBlob index | AwaitingWorker index _ | AwaitingImage index
  | Thrown index | Hung index => Some index
  | AtLoopHead | Returned => None
  end.


(** ** Sample inputs *)

Definition sampleOptions : ConversionOptions :=
  {| device := X4; splitMode := "overlap"; dithering := "floyd"; contrast := 0;
     horizontalMargin := Finite 5; verticalMargin := PosInfinity;
     orientation := landscape; landscapeFlipClockwise := false;
     showProgressPreview := false |}.

Definition halfOptions : ConversionOptions :=
  {| device := X4; splitMode := "half"; dithering := "floyd"; contrast := 0;
     horizontalMargin := Finite 0; verticalMargin := Finite 0;
     orientation := landscape; landscapeFlipClockwise := false;
     showProgressPreview := false |}.

Definition sampleFile (n : nat) : ImageFile :=
  {| path := pageName (Z.of_nat n) ".jpg"; entry := n; originalPage := 0 |}.

Definition tenFiles : list ImageFile := map sampleFile (seq 1 10).

Definition coverFive : BookMetadata :=
  {| coverPage := Some (Finite 5); coverImagePath := None; toc := [] |}.


Definition noSegments (width height : Z) : list Segment := [].

Definition whitePixels (page : ProcessedPage) : Bytes :=
  replicate (TARGET_WIDTH * TARGET_HEIGHT * 4) 255.

Definition spreadPage : ProcessedPage :=
  {| name := "0001_0_spread.png"; drawn := wholePage 1000 1501; rotation := 90 |}.

Definition threeSegments (width height : Z) : list Segment :=
  [ {| segX := 0; segY := 0; segW := width; segH := height / 2 |};
    {| segX := 0; segY := height / 4; segW := width; segH := height / 2 |};
    {| segX := 0; segY := height - height / 2; segW := width; segH := height / 2 |} ].

Definition blankImage (page : ProcessedPage) : ImageData.t :=
  ImageData.mk 8 1 (replicate 32 255).

Definition concatPages (pages : list Bytes) (metadata : BookMetadata) : Bytes :=
  concat pages.

Definition keepToc (toc : list TocEntry) (mappingCtx : PageMappingContext)
    : list TocEntry := toc.

Definition sampleBatch : list (ConversionOptions * PageOutcome) :=
  [ (getPageProcessingOptions halfOptions true, InProcess 1000 1501);
    (halfOptions, ByWorker 1000 1501 false);
    (halfOptions, DecodeFailed);
    (sampleOptions, InProcess 1000 1501);
    (halfOptions, ByWorker 1501 1000 true) ].

Definition sampleImages : list (option (Z * Z) * string) :=
  [ (Some (1000, 1501), "half"); (None, "half"); (Some (1501, 1000), "overlap") ].

Definition pageA : EncodedPage := {| encodedName := "0001_0_spread.png"; xtg := [1] |}.
Definition pageB : EncodedPage := {| encodedName := "0003_2_a.png"; xtg := [2] |}.
Definition pageC : EncodedPage := {| encodedName := "0003_2_b.png"; xtg := [3] |}.

(** Four pages complete out of order; page 2 fails to decode. *)
Definition sampleCompletions : list (nat * list EncodedPage) :=
  [ (2%nat, [pageB; pageC]); (0%nat, [pageA]); (3%nat, [pageA]); (1%nat, []) ].

(** A batch of three pages on two workers.  Both slots pull a page and
    submit it; the worker of slot 1 reports that it could not decode
    its page; slot 1 catches the rejection, which destroys the pool, and
    slot 0 then learns that its job was rejected with the pool. *)
Definition decodeFailed (jobId : nat) : WorkerResponse :=
  {| responseJobId := jobId; responsePages := None;
     responseError := Some "decode failed" |}.

Definition sampleFailure : list Event :=
  [ RunLoop 0; RunLoop 1; BlobLoaded 0 false; BlobLoaded 1 false;
    WorkerPosts 1 (decodeFailed 2); WorkerSettled 1 false; WorkerSettled 0 false ].



(** ** Invariants, measures and further samples *)

(** The red channel of pixel (x, y) is at least 128. *)
Definition redAtLeast128 (w : nat) (data : Bytes) (y x : nat) : bool :=
  match data !! ((y * w + x) * 4)%nat with
  | Some value => 128 <=? value
  | None => false
  end.

(** The state of [pixelData] when the rows before [y] and the columns
    before [x] of row [y] have been packed: a bit is set exactly when a
    packed pixel with red >= 128 maps to it. *)
Definition packed (w h : nat) (data : Bytes) (pixelData : Bytes) (y x : nat) : Prop :=
  length pixelData = (ceilDiv8 w * h)%nat /\
  forall (k : nat) (b : Z) (j : nat),
    pixelData !! k = Some b -> (j < 8)%nat ->
    (Z.testbit b (Z.of_nat j) = true <->
     exists y' x', (x' < w)%nat /\ (y' < y \/ (y' = y /\ x' < x))%nat /\
                   k = (y' * ceilDiv8 w + x' / 8)%nat /\ j = (7 - x' mod 8)%nat /\
                   redAtLeast128 w data y' x' = true).

(** A 10 x 2 image: two bytes per row, the second one padded. *)
Definition sampleImage : ImageData.t :=
  ImageData.mk 10 2
    (concat (map (fun red => [red; 0; 0; 255])
                 [255; 0; 0; 0; 0; 0; 0; 200; 128; 127;
                  0; 0; 0; 0; 0; 0; 0; 0; 0; 255])).

(** The collation key of a name. *)
Definition nameKey (rank : ascii -> N) (s : string) : list N :=
  map rank (list_ascii_of_string s).

(** [a] sorts before [b]. *)
Definition nameBefore (rank : ascii -> N) (a b : string) : Prop :=
  localeCompare rank a b = Lt.

(** The four digits of a padded page number, and the number they write. *)
Definition fourDigits (d3 d2 d1 d0 : nat) : string :=
  String (digitChar d3) (String (digitChar d2) (String (digitChar d1)
    (String (digitChar d0) EmptyString))).

Definition numberOf (d3 d2 d1 d0 : nat) : Z :=
  Z.of_nat (1000 * d3 + 100 * d2 + 10 * d1 + d0).

(** A slot that is not busy has no job; a busy slot of a live pool has one. *)
Definition idleSlot (slot : WorkerSlot) : Prop :=
  busy slot = false -> currentJob slot = None.

Definition workingSlot (slot : WorkerSlot) : Prop :=
  busy slot = true -> currentJob slot <> None.

(** The invariant of the pool: the promises it has issued and not
    settled are exactly those of the jobs it holds, each held once. *)
Record poolInvariant (pool : ConvertWorkerPool) : Prop := mkPoolInvariant {
  inv_nodup : NoDup (heldIds pool);
  inv_held : forall j, j ∈ heldIds pool <->
                       (1 <= j < nextJobId pool)%nat /\ promises pool !! j = None;
  inv_range : forall j outcome, promises pool !! j = Some outcome ->
                                (1 <= j < nextJobId pool)%nat;
  inv_idle : Forall idleSlot (slots pool);
  inv_working : isDestroyed pool = false -> Forall workingSlot (slots pool);
  inv_destroyed : isDestroyed pool = true -> heldIds pool = [];
  inv_next : (1 <= nextJobId pool)%nat
}.

(** After a pump, jobs wait in the queue only when every slot is busy. *)
Definition poolPumped (pool : ConvertWorkerPool) : Prop :=
  queue pool <> [] -> Forall (fun slot => busy slot = true) (slots pool).

(** A pool of two workers after three submissions and one failure: two
    jobs are in flight and one is rejected. *)
Definition busyPool : ConvertWorkerPool :=
  poolAfter 2
    [ CallProcessPage 1 0 halfOptions false;
      CallProcessPage 2 1 halfOptions false;
      CallProcessPage 3 2 halfOptions false;
      CallOnMessage 0 (mkWorkerResponse 1 None (Some "decode failed")) ].

(** The indices the slots are working on. *)
Fixpoint heldIndices (lanes : list LaneState) : list nat :=
  match lanes with
  | [] => []
  | state :: rest =>
      match laneIndex state with
      | Some index => index :: heldIndices rest
      | None => heldIndices rest
      end
  end.

(** The index a slot holds, as a list. *)
Definition optionList (index : option nat) : list nat :=
  match index with
  | Some i => [i]
  | None => []
  end.

(** The pages pulled so far: those a slot is working on and those
    stored. *)
Definition pulledIndices (batch : Batch) : list nat :=
  heldIndices (lanes batch) ++ map fst (stored batch).

(** What an event does to the slots, the next index and the stores. *)
Inductive laneStep (batch batch' : Batch) : Prop :=
| step_return (lane : nat) (state : LaneState) :
    lanes batch !! lane = Some state -> laneIndex state = None ->
    lanes batch' = <[lane := Returned]> (lanes batch) ->
    stored batch' = stored batch ->
    (nextIndex batch' = nextIndex batch /\ (0 < lane)%nat /\ workerDisabled batch = true \/
     nextIndex batch' = S (nextIndex batch) /\ (totalPages batch <= nextIndex batch)%nat) ->
    laneStep batch batch'
| step_pull (lane : nat) :
    lanes batch !! lane = Some AtLoopHead ->
    lanes batch' = <[lane := AwaitingBlob (nextIndex batch)]> (lanes batch) ->
    stored batch' = stored batch ->
    nextIndex batch' = S (nextIndex batch) ->
    (nextIndex batch < totalPages batch)%nat ->
    (workerDisabled batch = true -> lane = 0%nat) ->
    laneStep batch batch'
| step_move (lane : nat) (state state' : LaneState) (index : nat) :
    lanes batch !! lane = Some state ->
    laneIndex state = Some index -> laneIndex state' = Some index ->
    lanes batch' = <[lane := state']> (lanes batch) ->
    stored batch' = stored batch ->
    nextIndex batch' = nextIndex batch ->
    laneStep batch batch'
| step_store (lane : nat) (state : LaneState) (index : nat) (pages : list EncodedPage) :
    lanes batch !! lane = Some state ->
    laneIndex state = Some index ->
    lanes batch' = <[lane := AtLoopHead]> (lanes batch) ->
    stored batch' = stored batch ++ [(index, pages)] ->
    nextIndex batch' = nextIndex batch ->
    laneStep batch batch'
| step_worker :
    lanes batch' = lanes batch ->
    stored batch' = stored batch ->
    nextIndex batch' = nextIndex batch ->
    laneStep batch batch'.

(** Every page pulled is worked on by one slot or stored once, and the
    pages pulled are those below the next index. *)
Record indexInvariant (batch : Batch) : Prop := mkIndexInvariant {
  i_nodup : NoDup (pulledIndices batch);
  i_pulled : forall i, i ∈ pulledIndices batch <->
                       (i < nextIndex batch)%nat /\ (i < totalPages batch)%nat;
  i_lane0 : lanes batch !! 0%nat = Some Returned ->
            (totalPages batch <= nextIndex batch)%nat;
  i_lanes : (1 <= length (lanes batch))%nat
}.









(** A destroyed pool at rest: nothing queued, every worker terminated
    and without a job. *)
Definition deadPool (pool : ConvertWorkerPool) : Prop :=
  isDestroyed pool = true /\ queue pool = [] /\
  Forall (fun slot => terminated slot = true /\ currentJob slot = None) (slots pool).

(** The queue holds the newest submissions, oldest first, and the jobs
    with the workers are older than every queued one. *)
Definition fifoInvariant (pool : ConvertWorkerPool) : Prop :=
  let waiting := length (queue pool) in
  map QueueJob.id (queue pool) = seq (nextJobId pool - waiting) waiting /\
  (waiting < nextJobId pool)%nat /\
  Forall (fun held => (held < nextJobId pool - waiting)%nat) (currentIds (slots pool)).

(** ** The page worker's message handler (convert-page.worker.ts 235-260)

    What the handler's [try] block comes to: the page was decoded and
    processed and the answer posted, or something threw, an [Error]
    with its message or another value. *)
Inductive WorkerOutcome : Type :=
| Processed (pages : list WorkerProcessedPage)
| ThrewError (message : string)
| ThrewOther.

(** The message the handler posts for the request with [jobId]. *)
Definition workerResponse (jobId : nat) (outcome : WorkerOutcome) : WorkerResponse :=
  match outcome with
  | Processed pages =>
      {| responseJobId := jobId; responsePages := Some pages; responseError := None |}
  | ThrewError message =>
      {| responseJobId := jobId; responsePages := None; responseError := Some message |}
  | ThrewOther =>
      {| responseJobId := jobId; responsePages := None;
         responseError := Some "Worker processing failed" |}
  end.

(** How the promise of a job settles when its worker answers with
    [workerResponse]: an error with an empty message is not an error to
    the pool, which then resolves with [message.pages || []]. *)
Definition settlementOf (outcome : WorkerOutcome) : Settlement :=
  match outcome with
  | Processed pages => Resolved pages
  | ThrewError message => if String.eqb message "" then Resolved [] else Rejected message
  | ThrewOther => Rejected "Worker processing failed"
  end.

(** ** Preview sampling and pool size (converter.ts 135-155) *)

Definition PREVIEW_EVERY_N_PAGES : Z := 5.

(** Page numbers and page counts are positive integers; [%] is the
    remainder of JavaScript, [Z.rem]. *)
Definition shouldGenerateSampledPreview (pageNum totalPages : Z) : bool :=
  let interval := PREVIEW_EVERY_N_PAGES in
  let interval := if 150 <? totalPages then 8 else interval in
  let interval := if 350 <? totalPages then 12 else interval in
  let interval := if 700 <? totalPages then 20 else interval in
  (pageNum =? 1) || (pageNum =? totalPages) || (Z.rem pageNum interval =? 0).

(** [Math.max], [Math.min] and [Math.floor] of two numbers, and [<=]. *)
Definition mathMax (a b : number) : number :=
  match a, b with
  | NaN, _ | _, NaN => NaN
  | PosInfinity, _ | _, PosInfinity => PosInfinity
  | NegInfinity, other | other, NegInfinity => other
  | Finite p, Finite q => if Qle_bool p q then Finite q else Finite p
  end.

Definition mathMin (a b : number) : number :=
  match a, b with
  | NaN, _ | _, NaN => NaN
  | NegInfinity, _ | _, NegInfinity => NegInfinity
  | PosInfinity, other | other, PosInfinity => other
  | Finite p, Finite q => if Qle_bool p q then Finite p else Finite q
  end.

Definition mathFloor (a : number) : number :=
  match a with
  | Finite q => Finite (inject_Z (Qfloor q))
  | other => other
  end.

Definition numberLe (a b : number) : bool :=
  match a, b with
  | NaN, _ | _, NaN => false
  | NegInfinity, _ | _, PosInfinity => true
  | PosInfinity, _ | _, NegInfinity => false
  | Finite p, Finite q => Qle_bool p q
  end.

Section WorkerPoolSize.

(** The double [cores * 0.6] for a finite [cores]. *)
Variable timesPointSix : Q -> Q.

(** [navigator.hardwareConcurrency || 4]: the missing value, 0 and NaN
    are falsy. *)
Definition orFour (hardwareConcurrency : option number) : number :=
  match hardwareConcurrency with
  | None | Some NaN => Finite 4
  | Some (Finite q) => if Qeq_bool q 0 then Finite 4 else Finite q
  | Some infinite => infinite
  end.

Definition times06 (cores : number) : number :=
  match cores with
  | Finite q => Finite (timesPointSix q)
  | other => other
  end.

(** [calculateWorkerPoolSize()], from [navigator.hardwareConcurrency]
    and [navigator.deviceMemory]; the latter counts when it is a
    number. *)
Definition calculateWorkerPoolSize (hardwareConcurrency deviceMemory : option number)
    : number :=
  let cores := mathMax (Finite 1) (orFour hardwareConcurrency) in
  let poolSize := mathMax (Finite 1) (mathMin (Finite 6) (mathFloor (times06 cores))) in
  match deviceMemory with
  | Some memory =>
      if numberLe memory (Finite 1) then Finite 1
      else if numberLe memory (Finite 2) then mathMin poolSize (Finite 2)
      else if numberLe memory (Finite 4) then mathMin poolSize (Finite 3)
      else poolSize
  | None => poolSize
  end.

End WorkerPoolSize.

(** The interval between sampled previews for a page count. *)
Definition previewInterval (totalPages : Z) : Z :=
  if 700 <? totalPages then 20
  else if 350 <? totalPages then 12
  else if 150 <? totalPages then 8
  else 5.

(** An archive of two images that both fail to load, and the sample
    image with other green, blue and alpha bytes. *)
Definition brokenImages : list (option (Z * Z) * string) :=
  [ (None, "half"); (None, "overlap") ].

Definition recolouredImage : ImageData.t :=
  ImageData.mk 10 2
    (concat (map (fun red => [red; 77; 200; 0])
                 [255; 0; 0; 0; 0; 0; 0; 200; 128; 127;
                  0; 0; 0; 0; 0; 0; 0; 0; 0; 255])).

(** ** Vocabulary for paths *)

(** [ch] occurs in [s]. *)
Fixpoint occursIn (ch : ascii) (s : string) : bool :=
  match s with
  | EmptyString => false
  | String c r => Ascii.eqb c ch || occursIn ch r
  end.

Definition isUpperCase (c : ascii) : bool :=
  ((65 <=? nat_of_ascii c) && (nat_of_ascii c <=? 90))%nat.

(** [s] has an upper-case ASCII letter. *)
Fixpoint hasUpperCase (s : string) : bool :=
  match s with
  | EmptyString => false
  | String c r => isUpperCase c || hasUpperCase r
  end.

(** Ten files in a folder, and metadata naming the fifth as cover by a
    path with another folder, backslashes and capitals. *)
Definition folderFile (n : nat) : ImageFile :=
  {| path := ("Vol1/" +:+ pageName (Z.of_nat n) ".jpg")%string; entry := n;
     originalPage := Z.of_nat n |}.

Definition folderFiles : list ImageFile := map folderFile (seq 1 10).

Definition coverByPath : BookMetadata :=
  {| coverPage := None; coverImagePath := Some ".\SCANS\0005.JPG"; toc := [] |}.

(** ** Selecting the images of an archive
       (converter.ts 349-376 and 429-460, app.js 225-242) *)

(** An entry of the archive: its path, whether it is a directory, and
    its handle. *)
Record ArchiveEntry : Type := mkArchiveEntry {
  relativePath : string;
  dir : bool;
  zipEntry : nat
}.

Definition imageExtensions : list string :=
  [".jpg"; ".jpeg"; ".png"; ".gif"; ".bmp"; ".webp"].

(** [s.startsWith(prefix)] *)
Fixpoint startsWith (s prefix : string) : bool :=
  match prefix, s with
  | EmptyString, _ => true
  | String p prefix', String c s' => Ascii.eqb c p && startsWith s' prefix'
  | String _ _, EmptyString => false
  end.

(** [s.endsWith(suffix)]: some tail of [s] is [suffix]. *)
Fixpoint endsWith (s suffix : string) : bool :=
  String.eqb s suffix ||
  match s with
  | EmptyString => false
  | String _ r => endsWith r suffix
  end.

(** [s.substring(start)]: a negative [start] counts as 0. *)
Definition substringFrom (s : string) (start : Z) : string :=
  slice s (Z.max 0 start).

(** [list.includes(s)] *)
Definition includes (list : list string) (s : string) : bool :=
  existsb (String.eqb s) list.

(** [relativePath.toLowerCase().substring(relativePath.lastIndexOf('.'))] *)
Definition extensionOf (relativePath : string) : string :=
  substringFrom (toLowerCase relativePath) (lastIndexOf relativePath ".").

Definition isComicInfo (relativePath : string) : bool :=
  String.eqb (toLowerCase relativePath) "comicinfo.xml"
  || endsWith (toLowerCase relativePath) "/comicinfo.xml".

(** The callback of [zip.forEach], on the image files and the ComicInfo
    entry found so far. *)
Definition visitEntry (found : list ImageFile * option nat) (archiveEntry : ArchiveEntry)
    : list ImageFile * option nat :=
  let '(imageFiles, comicInfoEntry) := found in
  if dir archiveEntry then found
  else if startsWith (toLowerCase (relativePath archiveEntry)) "__macos" then found
  else
    let ext := extensionOf (relativePath archiveEntry) in
    let imageFiles :=
      if includes imageExtensions ext
      then imageFiles ++ [ {| path := relativePath archiveEntry;
                              entry := zipEntry archiveEntry;
                              originalPage := 0 |} ]
      else imageFiles in
    let comicInfoEntry :=
      if isComicInfo (relativePath archiveEntry) then Some (zipEntry archiveEntry)
      else comicInfoEntry in
    (imageFiles, comicInfoEntry).

Definition scanArchive (entries : list ArchiveEntry) : list ImageFile * option nat :=
  foldl visitEntry ([], None) entries.

(** The image files of convertCbzToXtc before the cover is moved:
    sorted by path and numbered, or the error thrown when there is
    none.  [collate] is [localeCompare] on paths, the collation of the
    platform, which the sources do not define; whatever it is, the sort
    rearranges the files. *)
Definition prepareImageFiles (collate : string -> string -> comparison)
    (entries : list ArchiveEntry) : string + list ImageFile :=
  let imageFiles := fst (scanArchive entries) in
  let imageFiles := sortBy (fun a b => collate (path a) (path b)) imageFiles in
  let imageFiles := assignOriginalPages imageFiles in
  if (length imageFiles =? 0)%nat then inl "No images found in CBZ"%string
  else inr imageFiles.

(** An entry counts as an image: it is no directory, its path does not
    start with "__macos" and ends with an image extension, whatever
    the letter case. *)
Definition isImageEntry (archiveEntry : ArchiveEntry) : bool :=
  negb (dir archiveEntry)
  && negb (startsWith (toLowerCase (relativePath archiveEntry)) "__macos")
  && existsb (endsWith (toLowerCase (relativePath archiveEntry))) imageExtensions.

Definition sampleEntries : list ArchiveEntry :=
  [ {| relativePath := "Vol1/"; dir := true; zipEntry := 0 |};
    {| relativePath := "Vol1/002.PNG"; dir := false; zipEntry := 1 |};
    {| relativePath := "__MACOSX/Vol1/._002.PNG"; dir := false; zipEntry := 2 |};
    {| relativePath := "Vol1/001.jpeg"; dir := false; zipEntry := 3 |};
    {| relativePath := "Vol1/notes.txt"; dir := false; zipEntry := 4 |};
    {| relativePath := "Vol1/ComicInfo.xml"; dir := false; zipEntry := 5 |} ].

(** ** Fitting a page into the target
       (canvas-utils.js 57-79, convert-page.worker.ts 95-108) *)

(** The destination rectangle of the call
    [ctx.drawImage(canvas, 0, 0, canvas.width, canvas.height, x, y, newWidth, newHeight)]. *)
Record Placement : Type := mkPlacement {
  dx : Z;
  dy : Z;
  dWidth : Z;
  dHeight : Z
}.

Section Resize.

Variable rnd : Q -> Q.

(** [resizeWithPadding(canvas)], for a canvas of [canvasWidth] by
    [canvasHeight] pixels.  A canvas without pixels makes the scale
    non-finite; no placement is given for it.  The halves of the small
    integers [TARGET_WIDTH - newWidth] and [TARGET_HEIGHT - newHeight]
    are exact doubles. *)
Definition resizeWithPadding (canvasWidth canvasHeight : Z) : option Placement :=
  if (canvasWidth <=? 0) || (canvasHeight <=? 0) then None
  else
    let scale :=
      Qmin (rnd (inject_Z (Z.of_nat TARGET_WIDTH) / inject_Z canvasWidth))
           (rnd (inject_Z (Z.of_nat TARGET_HEIGHT) / inject_Z canvasHeight)) in
    let newWidth := Qfloor (rnd (inject_Z canvasWidth * scale)) in
    let newHeight := Qfloor (rnd (inject_Z canvasHeight * scale)) in
    let x := (Z.of_nat TARGET_WIDTH - newWidth) / 2 in
    let y := (Z.of_nat TARGET_HEIGHT - newHeight) / 2 in
    Some {| dx := x; dy := y; dWidth := newWidth; dHeight := newHeight |}.

End Resize.

(** A rounding whose relative error is at most one in two thousand, as
    that of doubles is on the numbers met here. *)
Definition closeRounding (rnd : Q -> Q) : Prop :=
  forall q : Q, (0 <= q)%Q ->
    ((1999 # 2000) * q <= rnd q)%Q /\ (rnd q <= (2001 # 2000) * q)%Q.

(** ** PDF conversion (converter.ts 492-648) *)

Definition MAX_STORED_PREVIEWS : nat := 12.

(** A page of the document after [page.render]: the size of its canvas,
    which is that of the viewport at scale 2, and the data URL of the
    JPEG made from the canvas of its first output page. *)
Record RenderedPage : Type := mkRenderedPage {
  viewportWidth : Z;
  viewportHeight : Z;
  previewDataUrl : string
}.

(** The variables of the loop of convertPdfToXtc.  [progressCalls] lists
    the calls [onProgress(i / numPages, preview)] in order, each as the
    page number [i] and the preview passed. *)
Record PdfLoop : Type := mkPdfLoop {
  pdfEncodedPages : list EncodedPage;
  pdfSampledPreviews : list string;
  pdfMappingCtx : PageMappingContext;
  progressCalls : list (Z * option string)
}.

Section PdfPipeline.

Variable rnd : Q -> Q.
Variable calculateOverlapSegments : Z -> Z -> list Segment.
Variable canvasImage : ProcessedPage -> ImageData.t.

Fixpoint overlapCanvasPages (pageNum : Z) (landscapeRotation : Z)
    (segments : list Segment) (idx : nat) : list ProcessedPage :=
  match segments with
  | [] => []
  | seg :: rest =>
      {| name := pageName pageNum ("_3_" +:+ letterOf idx +:+ ".png");
         drawn := seg;
         rotation := landscapeRotation |}
        :: overlapCanvasPages pageNum landscapeRotation rest (S idx)
  end.

(** [processCanvasAsImage(sourceCanvas, pageNum, options)], for a source
    canvas of [sourceWidth] by [sourceHeight] pixels. *)
Definition processCanvasAsImage (sourceWidth sourceHeight : Z) (pageNum : Z)
    (options : ConversionOptions) : list ProcessedPage :=
  let crop := getAxisCropRect rnd sourceWidth sourceHeight options in
  let width := width crop in
  let height := height crop in
  match orientation options with
  | portrait =>
      [ {| name := pageName pageNum "_0_page.png";
           drawn := wholePage width height;
           rotation := 0 |} ]
  | landscape =>
      let landscapeRotation := if landscapeFlipClockwise options then -90 else 90 in
      let shouldSplit :=
        (width <? height) && negb (String.eqb (splitMode options) "nosplit") in
      if shouldSplit then
        if String.eqb (splitMode options) "overlap" then
          overlapCanvasPages pageNum landscapeRotation
                             (calculateOverlapSegments width height) 0
        else
          let halfHeight := height / 2 in
          [ {| name := pageName pageNum "_2_a.png";
               drawn := {| segX := 0; segY := 0; segW := width; segH := halfHeight |};
               rotation := landscapeRotation |};
            {| name := pageName pageNum "_2_b.png";
               drawn := {| segX := 0; segY := halfHeight; segW := width;
                           segH := halfHeight |};
               rotation := landscapeRotation |} ]
      else
        [ {| name := pageName pageNum "_0_spread.png";
             drawn := wholePage width height;
             rotation := landscapeRotation |} ]
  end.

(** The body of the loop for page [i] of [numPages].  Every page of
    processCanvasAsImage has a canvas, so that [pages[0].canvas] is
    truthy whenever there is a page. *)
Definition pdfPageStep (options : ConversionOptions) (numPages : Z)
    (loop : PdfLoop) (i : Z) (rendered : RenderedPage) : PdfLoop :=
  let pages :=
    processCanvasAsImage (viewportWidth rendered) (viewportHeight rendered) i options in
  let encodedPages :=
    pdfEncodedPages loop ++ map (encodeCanvasPage canvasImage) pages in
  let mappingCtx := addOriginalPage (pdfMappingCtx loop) i (length pages) in
  let includePreview :=
    showProgressPreview options
    && (length (pdfSampledPreviews loop) <? MAX_STORED_PREVIEWS)%nat
    && shouldGenerateSampledPreview i numPages in
  if includePreview && (0 <? length pages)%nat then
    {| pdfEncodedPages := encodedPages;
       pdfSampledPreviews :=
         if (length (pdfSampledPreviews loop) <? MAX_STORED_PREVIEWS)%nat
         then pdfSampledPreviews loop ++ [previewDataUrl rendered]
         else pdfSampledPreviews loop;
       pdfMappingCtx := mappingCtx;
       progressCalls := progressCalls loop ++ [(i, Some (previewDataUrl rendered))] |}
  else
    {| pdfEncodedPages := encodedPages;
       pdfSampledPreviews := pdfSampledPreviews loop;
       pdfMappingCtx := mappingCtx;
       progressCalls := progressCalls loop ++ [(i, None)] |}.

(** The loop from page [i] on, over the pages still to render. *)
Fixpoint pdfLoopFrom (options : ConversionOptions) (numPages : Z)
    (loop : PdfLoop) (i : Z) (document : list RenderedPage) : PdfLoop :=
  match document with
  | [] => loop
  | rendered :: rest =>
      pdfLoopFrom options numPages (pdfPageStep options numPages loop i rendered)
                  (i + 1) rest
  end.

Definition pdfLoop (options : ConversionOptions) (document : list RenderedPage)
    : PdfLoop :=
  pdfLoopFrom options (Z.of_nat (length document))
              {| pdfEncodedPages := []; pdfSampledPreviews := [];
                 pdfMappingCtx := []; progressCalls := [] |}
              1 document.

Variable rank : ascii -> N.
Variable buildXtcFromXtgPages : list Bytes -> BookMetadata -> Bytes.
Variable adjustTocForMapping : list TocEntry -> PageMappingContext -> list TocEntry.

(** [convertPdfToXtc], from the rendered pages of the document, the
    metadata found and the output name. *)
Definition convertPdfToXtc (outputName : string) (metadata : BookMetadata)
    (options : ConversionOptions) (document : list RenderedPage) : ConversionResult :=
  let loop := pdfLoop options document in
  finalizeConversionResult rank buildXtcFromXtgPages adjustTocForMapping
    outputName (pdfEncodedPages loop) (pdfMappingCtx loop) metadata
    (pdfSampledPreviews loop).

End PdfPipeline.

(** The previews passed to [onProgress]. *)
Definition previewsShown (progressCalls : list (Z * option string)) : list string :=
  omap snd progressCalls.

(** What the loop keeps: the previews stored are the previews shown, at
    most twelve of them, each for a sampled page; and the pages encoded
    are as many as the mapping counts. *)
Definition previewsKept (options : ConversionOptions) (numPages : Z)
    (loop : PdfLoop) : Prop :=
  pdfSampledPreviews loop = previewsShown (progressCalls loop) /\
  (length (pdfSampledPreviews loop) <= MAX_STORED_PREVIEWS)%nat /\
  (forall i url, (i, Some url) ∈ progressCalls loop ->
     showProgressPreview options = true /\
     shouldGenerateSampledPreview i numPages = true).

Definition pagesCounted (loop : PdfLoop) : Prop :=
  length (pdfEncodedPages loop) = list_sum (map snd (pdfMappingCtx loop)).

(** ** Thumbnails of the viewer (components/Viewer.tsx 8-30) *)

Definition MAX_THUMBNAILS : Z := 60.
Definition FOCUS_WINDOW : Z := 12.

(** [indices.add(index)] on a [Set], kept in insertion order. *)
Definition setAdd (indices : list Z) (index : Z) : list Z :=
  if bool_decide (index ∈ indices) then indices else indices ++ [index].

(** [for (let index = ...; index < totalPages; index += stride) indices.add(index)],
    from the value [index] on; [fuel] bounds the number of rounds. *)
Fixpoint addStrided (fuel : nat) (index stride totalPages : Z) (indices : list Z)
    : list Z :=
  match fuel with
  | O => indices
  | S fuel' =>
      if index <? totalPages
      then addStrided fuel' (index + stride) stride totalPages (setAdd indices index)
      else indices
  end.

(** [for (let index = ...; index <= end; index++) indices.add(index)] *)
Fixpoint addWindow (fuel : nat) (index last : Z) (indices : list Z) : list Z :=
  match fuel with
  | O => indices
  | S fuel' =>
      if index <=? last
      then addWindow fuel' (index + 1) last (setAdd indices index)
      else indices
  end.

(** [Math.ceil(a / b)] for integers [a] and [b > 0]; the quotient of
    two page counts rounds to a double with the same ceiling. *)
Definition ceilDiv (a b : Z) : Z := - ((- a) / b).

(** [getThumbnailIndices(currentIndex, totalPages)].  The first loop
    runs at most [totalPages] rounds and the second at most
    [2 * FOCUS_WINDOW + 1]. *)
Definition getThumbnailIndices (currentIndex totalPages : Z) : list Z :=
  if totalPages <=? MAX_THUMBNAILS then
    map Z.of_nat (seq 0 (Z.to_nat totalPages))
  else
    let stride :=
      Z.max 1 (ceilDiv totalPages (MAX_THUMBNAILS - (FOCUS_WINDOW * 2 + 2))) in
    let indices := setAdd (setAdd [] 0) (totalPages - 1) in
    let indices := addStrided (Z.to_nat totalPages) 0 stride totalPages indices in
    let start := Z.max 0 (currentIndex - FOCUS_WINDOW) in
    let last := Z.min (totalPages - 1) (currentIndex + FOCUS_WINDOW) in
    let indices := addWindow (Z.to_nat (2 * FOCUS_WINDOW + 1)) start last indices in
    sortBy Z.compare indices.

(** ** The table of contents in the metadata editor (routes/metadata 58-148) *)

(** The alert validateToc raises before it returns false. *)
Inductive TocAlert : Type :=
| InvalidRange (current : TocEntry)
| ChapterOverlap (current other : TocEntry).

(** The inner loop: the first later chapter that the test of the source
    finds to overlap [current]. *)
Fixpoint findOverlap (current : TocEntry) (others : list TocEntry) : option TocEntry :=
  match others with
  | [] => None
  | other :: rest =>
      if (startPage current <=? endPage other) && (endPage current >=? startPage other)
      then Some other
      else findOverlap current rest
  end.

(** The outer loop, from chapter [current] on. *)
Fixpoint firstTocAlert (toc : list TocEntry) : option TocAlert :=
  match toc with
  | [] => None
  | current :: rest =>
      if startPage current >? endPage current then Some (InvalidRange current)
      else
        match findOverlap current rest with
        | Some other => Some (ChapterOverlap current other)
        | None => firstTocAlert rest
        end
  end.

(** [validateToc()] on [metadata.toc]. *)
Definition validateToc (toc : list TocEntry) : bool :=
  match firstTocAlert toc with
  | Some _ => false
  | None => true
  end.

(** [handleAddChapter]: [parsed?.header.pageCount || 1] is 1 for a
    missing or zero page count. *)
Definition handleAddChapter (pageCount : option Z) (toc : list TocEntry)
    : list TocEntry :=
  let maxPage :=
    match pageCount with
    | Some count => if count =? 0 then 1 else count
    | None => 1
    end in
  toc ++ [ {| tocTitle := "New Chapter"; startPage := 1; endPage := maxPage |} ].

Inductive Direction : Type := up | down.

(** [handleMoveChapter(index, direction)], for the position [index] of a
    chapter of the list, as the buttons of the list pass it: no result
    is given for another index. *)
Definition handleMoveChapter (index : nat) (direction : Direction)
    (toc : list TocEntry) : option (list TocEntry) :=
  match toc !! index with
  | None => None
  | Some current =>
      let targetIndex :=
        match direction with
        | up => Z.of_nat index - 1
        | down => Z.of_nat index + 1
        end in
      if (targetIndex <? 0) || (targetIndex >=? Z.of_nat (length toc)) then Some toc
      else
        match toc !! Z.to_nat targetIndex with
        | Some target =>
            Some (<[Z.to_nat targetIndex := current]> (<[index := target]> toc))
        | None => Some toc
        end
  end.

(** The pages of a chapter. *)
Definition inChapter (page : Z) (chapter : TocEntry) : Prop :=
  startPage chapter <= page <= endPage chapter.

Definition sampleToc : list TocEntry :=
  [ {| tocTitle := "One"; startPage := 1; endPage := 10 |};
    {| tocTitle := "Two"; startPage := 11; endPage := 20 |};
    {| tocTitle := "Three"; startPage := 21; endPage := 30 |} ].

(** ** Navigation of the viewer (viewer.js 4-95, components/Viewer.tsx 41-77) *)

(** The module variables of viewer.js; [hidden] is the class of the
    viewer section. *)
Record ViewerState : Type := mkViewerState {
  viewerPages : list string;
  currentIndex : Z;
  isRotated : bool;
  hidden : bool
}.

Inductive Key : Type := ArrowLeft | ArrowRight | Escape | KeyR | OtherKey.

Inductive ViewerEvent : Type :=
| ClickPrev
| ClickNext
| ClickClose
| ClickRotate
| ClickThumbnail (index : Z)
| KeyDown (key : Key)
| OpenViewer (pageImages : list string).

(** The state when the module is loaded; the section starts hidden. *)
Definition initialViewer : ViewerState :=
  {| viewerPages := []; currentIndex := 0; isRotated := false; hidden := true |}.

Definition goToPage (viewer : ViewerState) (index : Z) : ViewerState :=
  if (index <? 0) || (index >=? Z.of_nat (length (viewerPages viewer))) then viewer
  else {| viewerPages := viewerPages viewer; currentIndex := index;
          isRotated := isRotated viewer; hidden := hidden viewer |}.

Definition toggleRotate (viewer : ViewerState) : ViewerState :=
  {| viewerPages := viewerPages viewer; currentIndex := currentIndex viewer;
     isRotated := negb (isRotated viewer); hidden := hidden viewer |}.

Definition openViewer (pageImages : list string) : ViewerState :=
  {| viewerPages := pageImages; currentIndex := 0; isRotated := false; hidden := false |}.

Definition closeViewer : ViewerState :=
  {| viewerPages := []; currentIndex := 0; isRotated := false; hidden := true |}.

Definition viewerStep (viewer : ViewerState) (event : ViewerEvent) : ViewerState :=
  match event with
  | ClickPrev => goToPage viewer (currentIndex viewer - 1)
  | ClickNext => goToPage viewer (currentIndex viewer + 1)
  | ClickClose => closeViewer
  | ClickRotate => toggleRotate viewer
  | ClickThumbnail index => goToPage viewer index
  | KeyDown key =>
      if hidden viewer then viewer
      else
        match key with
        | ArrowLeft => goToPage viewer (currentIndex viewer - 1)
        | ArrowRight => goToPage viewer (currentIndex viewer + 1)
        | Escape => closeViewer
        | KeyR => toggleRotate viewer
        | OtherKey => viewer
        end
  | OpenViewer pageImages => openViewer pageImages
  end.

Definition viewerAfter (events : list ViewerEvent) : ViewerState :=
  foldl viewerStep initialViewer events.

(** The page shown is a page of the book; without pages the index is 0
    and, before any book is opened, the viewer is hidden. *)
Definition showsPage (viewer : ViewerState) : Prop :=
  match viewerPages viewer with
  | [] => currentIndex viewer = 0
  | _ :: _ => 0 <= currentIndex viewer < Z.of_nat (length (viewerPages viewer))
  end.

(** ** The pages an archive conversion puts out
       (converter.ts 388-403 and 470-487) *)




(* ================================================================== *)
(** * Properties *)

(** ** Margin crop *)




(** A margin of 25 crops as one of 20; a negative margin and one that
    is not a finite number crop nothing. *)
Example getAxisCropRect_clamps :
  let crop horizontal vertical :=
    getAxisCropRect (fun q => q) 1000 1501
      {| device := X4; splitMode := "overlap"; dithering := "floyd"; contrast := 0;
         horizontalMargin := horizontal; verticalMargin := vertical;
         orientation := landscape; landscapeFlipClockwise := false;
         showProgressPreview := false |} in
  crop (Finite 25) (Finite 20) = {| x := 200; y := 300; width := 600; height := 901 |} /\
  crop (Finite (-3)) NaN = {| x := 0; y := 0; width := 1000; height := 1501 |} /\
  crop PosInfinity NegInfinity = {| x := 0; y := 0; width := 1000; height := 1501 |} /\
  crop (Finite (5 # 2)) (Finite 0) = {| x := 25; y := 0; width := 950; height := 1501 |}.
Proof. vm_compute. repeat split. Qed.

(** ** Cover handling *)

Lemma length_assignOriginalPagesFrom (l : list ImageFile) (i : Z) :
  length (assignOriginalPagesFrom l i) = length l.
Proof.
  revert i; induction l as [|f r IH]; intros i; simpl; [reflexivity|].
  now rewrite IH.
Qed.

Lemma lookup_assignOriginalPagesFrom (l : list ImageFile) (i : Z) (j : nat) (f : ImageFile) :
  assignOriginalPagesFrom l i !! j = Some f ->
  originalPage f = i + Z.of_nat j + 1.
Proof.
  revert i j; induction l as [|g r IH]; intros i j; simpl; [discriminate|].
  destruct j as [|j]; simpl.
  - intros [= <-]; simpl; lia.
  - intros H. apply IH in H. lia.
Qed.

Lemma findIndexFrom_first {A : Type} (p : A -> bool) (l : list A) (i : Z)
    (j : nat) (a : A) :
  l !! j = Some a -> p a = true ->
  (forall j' b, (j' < j)%nat -> l !! j' = Some b -> p b = false) ->
  findIndexFrom p l i = i + Z.of_nat j.
Proof.
  revert i j; induction l as [|c r IH]; intros i j; [discriminate|].
  destruct j as [|j]; simpl.
  - intros [= ->] Hp _. rewrite Hp. lia.
  - intros Hj Hp Hbefore.
    rewrite (Hbefore 0%nat c) by (simpl; (lia || reflexivity)).
    rewrite (IH (i + 1) j Hj Hp).
    + lia.
    + intros j' b Hlt Hb. apply (Hbefore (S j') b); [lia | exact Hb].
Qed.

Lemma strictEqualsPage_iff (page k : Z) (q : Q) :
  (q == inject_Z k)%Q ->
  strictEqualsPage page (Some (Finite q)) = true <-> page = k.
Proof.
  intros Hq. unfold strictEqualsPage. rewrite Qeq_bool_iff, Hq.
  apply inject_Z_injective.
Qed.

Lemma getPageProcessingOptions_cover (baseOptions : ConversionOptions) :
  splitMode (getPageProcessingOptions baseOptions true) = "nosplit".
Proof.
  unfold getPageProcessingOptions. simpl.
  destruct (String.eqb (splitMode baseOptions) "nosplit") eqn:E; [|reflexivity].
  now apply String.eqb_eq in E.
Qed.

Lemma getPageProcessingOptions_other (baseOptions : ConversionOptions) :
  getPageProcessingOptions baseOptions false = baseOptions.
Proof. reflexivity. Qed.

(** C6: with at least two source pages and a metadata cover page number
    [k] that is the original page number of a source page, the page
    numbered [k] is first in the processing order (the others follow in
    their original order), the options of the first page have splitMode
    "nosplit" whatever the global splitMode is, and every other page
    keeps the global options. *)
Theorem cover_first_and_unsplit (sortedFiles : list ImageFile)
    (metadata : BookMetadata) (options : ConversionOptions) (q : Q) (k : Z) :
  (2 <= length sortedFiles)%nat ->
  coverPage metadata = Some (Finite q) ->
  (q == inject_Z k)%Q ->
  1 <= k <= Z.of_nat (length sortedFiles) ->
  let numbered := assignOriginalPages sortedFiles in
  let order := archiveProcessingOrder sortedFiles metadata in
  (exists cover,
      numbered !! Z.to_nat (k - 1) = Some cover /\
      originalPage cover = k /\
      order = cover :: (take (Z.to_nat (k - 1)) numbered ++ drop (Z.to_nat k) numbered)) /\
  splitMode (archivePageOptions options 0) = "nosplit" /\
  (forall index, (0 < index)%nat -> archivePageOptions options index = options).
Proof.
  intros Hlen Hcover Hq Hk numbered order.
  assert (Hnl : length numbered = length sortedFiles)
    by apply length_assignOriginalPagesFrom.
  destruct (lookup_lt_is_Some_2 numbered (Z.to_nat (k - 1)) ltac:(lia)) as [cover Hc].
  assert (Hop : originalPage cover = k).
  { apply lookup_assignOriginalPagesFrom in Hc. lia. }
  split; [|split].
  - exists cover. split; [exact Hc|]. split; [exact Hop|].
    unfold order, archiveProcessingOrder, moveCoverToFront. fold numbered.
    rewrite Hnl.
    destruct (Nat.ltb_spec (length sortedFiles) 2) as [?|_]; [lia|].
    rewrite Hcover.
    assert (Hint : isInteger (Some (Finite q)) = true).
    { simpl. apply Qeq_bool_iff. rewrite Hq at 2. now rewrite Qfloor_Z. }
    assert (Hpos : isPositive (Some (Finite q)) = true).
    { simpl. destruct (Qlt_le_dec 0 q) as [_|Hle]; [reflexivity|].
      rewrite Hq in Hle. change 0%Q with (inject_Z 0) in Hle.
      rewrite <- Zle_Qle in Hle. lia. }
    rewrite Hint, Hpos. cbn [andb].
    assert (Hfind :
      findIndex (fun file => strictEqualsPage (originalPage file) (Some (Finite q)))
                numbered = k - 1).
    { unfold findIndex.
      rewrite (findIndexFrom_first _ numbered 0 (Z.to_nat (k - 1)) cover Hc).
      - lia.
      - now apply strictEqualsPage_iff with (k := k).
      - intros j' b Hlt Hb.
        destruct (strictEqualsPage (originalPage b) (Some (Finite q))) eqn:E;
          [|reflexivity].
        apply (strictEqualsPage_iff _ k q Hq) in E.
        apply lookup_assignOriginalPagesFrom in Hb. lia. }
    rewrite Hfind.
    destruct (Z.eqb_spec (k - 1) (-1)) as [?|_]; [lia|]. cbn [andb].
    destruct (Z.ltb_spec 0 (k - 1)) as [Hgt|Hle].
    + unfold spliceToFront. rewrite Hc.
      replace (S (Z.to_nat (k - 1))) with (Z.to_nat k) by lia. reflexivity.
    + replace (Z.to_nat (k - 1)) with 0%nat in * by lia.
      replace (Z.to_nat k) with 1%nat by lia.
      destruct numbered as [|c rest]; [discriminate|].
      cbn in Hc. injection Hc as ->. reflexivity.
  - apply getPageProcessingOptions_cover.
  - intros index Hidx. unfold archivePageOptions.
    destruct (Nat.eqb_spec index 0) as [?|_]; [lia|].
    apply getPageProcessingOptions_other.
Qed.

Lemma cover_first_and_unsplit_witness :
  let numbered := assignOriginalPages tenFiles in
  let order := archiveProcessingOrder tenFiles coverFive in
  (exists cover,
      numbered !! Z.to_nat (5 - 1) = Some cover /\
      originalPage cover = 5 /\
      order = cover :: (take (Z.to_nat (5 - 1)) numbered ++ drop (Z.to_nat 5) numbered)) /\
  splitMode (archivePageOptions sampleOptions 0) = "nosplit" /\
  (forall index, (0 < index)%nat -> archivePageOptions sampleOptions index = sampleOptions).
Proof.
  apply (cover_first_and_unsplit tenFiles coverFive sampleOptions 5%Q 5);
    [ simpl; lia | reflexivity | reflexivity | simpl; lia ].
Defined.

Example cover_reorder_ten_pages :
  map originalPage (archiveProcessingOrder tenFiles coverFive)
  = [5; 1; 2; 3; 4; 6; 7; 8; 9; 10].
Proof. vm_compute. reflexivity. Qed.


(** ** Page processing *)



Lemma half_split_bands (rnd : Q -> Q) (calc : Z -> Z -> list Segment)
    (imgWidth imgHeight pageNum : Z) (options : ConversionOptions) :
  orientation options = landscape ->
  splitMode options = "half" ->
  let crop := getAxisCropRect rnd imgWidth imgHeight options in
  width crop < height crop ->
  map drawn (processLoadedImage rnd calc imgWidth imgHeight pageNum options)
  = [ {| segX := 0; segY := 0; segW := width crop; segH := height crop / 2 |};
      {| segX := 0; segY := height crop / 2; segW := width crop;
         segH := height crop / 2 |} ].
Proof.
  intros Ho Hm crop Hlt. unfold processLoadedImage. fold crop. rewrite Ho, Hm.
  destruct (Z.ltb_spec (width crop) (height crop)) as [_|?]; [|lia].
  reflexivity.
Qed.

(** C3 (the code at an odd height): a 1000 x 1501 landscape page split
    with splitMode "half" yields the bands of rows 0..749 and 750..1499,
    in process and in the page worker alike; row 1500, the last row of
    the page, is in neither band. *)
Theorem half_split_odd_height_drops_last_row :
  let pages := processLoadedImage (fun q => q) noSegments 1000 1501 1 halfOptions in
  let workerPages :=
    map workerPage (processBitmap (fun q => q) noSegments 1000 1501 1 halfOptions false) in
  map drawn pages
  = [ {| segX := 0; segY := 0; segW := 1000; segH := 750 |};
      {| segX := 0; segY := 750; segW := 1000; segH := 750 |} ] /\
  workerPages = pages /\
  existsb (fun page => coversRow page 1499) pages = true /\
  existsb (fun page => coversRow page 1500) pages = false.
Proof. vm_compute. repeat split; reflexivity. Qed.

(** ** Byte buffers *)

Lemma length_setUint8 (buffer : Bytes) (offset : nat) (value : Z) :
  length (setUint8 buffer offset value) = length buffer.
Proof. apply length_insert. Qed.

Lemma length_setUint16 (buffer : Bytes) (offset : nat) (value : Z) :
  length (setUint16 buffer offset value) = length buffer.
Proof. unfold setUint16. now rewrite !length_setUint8. Qed.

Lemma length_setUint32 (buffer : Bytes) (offset : nat) (value : Z) :
  length (setUint32 buffer offset value) = length buffer.
Proof. unfold setUint32. now rewrite !length_setUint8. Qed.

Lemma length_setBigUint64 (buffer : Bytes) (offset : nat) (value : Z) :
  length (setBigUint64 buffer offset value) = length buffer.
Proof. unfold setBigUint64. now rewrite !length_setUint32. Qed.

Lemma length_setBytes (buffer source : Bytes) (offset : nat) :
  length (setBytes buffer source offset) = length buffer.
Proof.
  unfold setBytes.
  destruct (Nat.leb_spec (offset + length source) (length buffer)); [|reflexivity].
  rewrite !length_app, length_take, length_drop. lia.
Qed.

Lemma length_newBuffer (size : nat) : length (newBuffer size) = size.
Proof. apply length_replicate. Qed.

Create Rewrite HintDb buflen.

#[local] Hint Rewrite length_setUint8 length_setUint16 length_setUint32
  length_setBigUint64 length_setBytes length_newBuffer : buflen.

Lemma getUint8_setUint8_eq (buffer : Bytes) (offset : nat) (value : Z) :
  (offset < length buffer)%nat ->
  getUint8 (setUint8 buffer offset value) offset = value mod 256.
Proof.
  intros H. unfold getUint8, setUint8. now rewrite list_lookup_insert_eq.
Qed.

Lemma getUint8_setUint8_ne (buffer : Bytes) (offset i : nat) (value : Z) :
  offset <> i ->
  getUint8 (setUint8 buffer offset value) i = getUint8 buffer i.
Proof.
  intros H. unfold getUint8, setUint8. now rewrite list_lookup_insert_ne.
Qed.

Lemma getUint8_setUint16_ne (buffer : Bytes) (offset i : nat) (value : Z) :
  (i < offset \/ offset + 2 <= i)%nat ->
  getUint8 (setUint16 buffer offset value) i = getUint8 buffer i.
Proof.
  intros H. unfold setUint16. rewrite !getUint8_setUint8_ne by lia. reflexivity.
Qed.

Lemma getUint8_setUint32_ne (buffer : Bytes) (offset i : nat) (value : Z) :
  (i < offset \/ offset + 4 <= i)%nat ->
  getUint8 (setUint32 buffer offset value) i = getUint8 buffer i.
Proof.
  intros H. unfold setUint32. rewrite !getUint8_setUint8_ne by lia. reflexivity.
Qed.

Lemma getUint8_setBigUint64_ne (buffer : Bytes) (offset i : nat) (value : Z) :
  (i < offset \/ offset + 8 <= i)%nat ->
  getUint8 (setBigUint64 buffer offset value) i = getUint8 buffer i.
Proof.
  intros H. unfold setBigUint64. rewrite !getUint8_setUint32_ne by lia. reflexivity.
Qed.

Lemma getUint8_setBytes_ne (buffer source : Bytes) (offset i : nat) :
  (i < offset \/ offset + length source <= i)%nat ->
  getUint8 (setBytes buffer source offset) i = getUint8 buffer i.
Proof.
  intros H. unfold getUint8, setBytes.
  destruct (Nat.leb_spec (offset + length source) (length buffer)) as [Hfit|];
    [|reflexivity].
  f_equal. destruct H as [H|H].
  - rewrite lookup_app_l by (rewrite length_take; lia).
    now rewrite lookup_take_lt.
  - rewrite lookup_app_r by (rewrite length_take; lia).
    rewrite length_take, lookup_app_r by lia.
    rewrite lookup_drop. f_equal. lia.
Qed.

Lemma getUint16_setUint16 (buffer : Bytes) (offset : nat) (value : Z) :
  (offset + 2 <= length buffer)%nat ->
  getUint16 (setUint16 buffer offset value) offset = value mod 65536.
Proof.
  intros H. unfold getUint16, setUint16.
  rewrite getUint8_setUint8_ne by lia.
  rewrite !getUint8_setUint8_eq by (autorewrite with buflen; lia).
  Z.div_mod_to_equations. lia.
Qed.

Lemma getUint32_setUint32 (buffer : Bytes) (offset : nat) (value : Z) :
  (offset + 4 <= length buffer)%nat ->
  getUint32 (setUint32 buffer offset value) offset = value mod 4294967296.
Proof.
  intros H. unfold getUint32, setUint32.
  repeat first
    [ rewrite getUint8_setUint8_eq by (autorewrite with buflen; lia)
    | rewrite getUint8_setUint8_ne by lia ].
  Z.div_mod_to_equations. lia.
Qed.

Lemma getUint32_setUint32_ne (buffer : Bytes) (offset i : nat) (value : Z) :
  (i + 4 <= offset \/ offset + 4 <= i)%nat ->
  getUint32 (setUint32 buffer offset value) i = getUint32 buffer i.
Proof.
  intros H. unfold getUint32.
  rewrite (getUint8_setUint32_ne buffer offset i) by lia.
  rewrite (getUint8_setUint32_ne buffer offset (i + 1)) by lia.
  rewrite (getUint8_setUint32_ne buffer offset (i + 2)) by lia.
  rewrite (getUint8_setUint32_ne buffer offset (i + 3)) by lia.
  reflexivity.
Qed.

Lemma getUint64_setBigUint64 (buffer : Bytes) (offset : nat) (value : Z) :
  (offset + 8 <= length buffer)%nat ->
  0 <= value < 2 ^ 64 ->
  getUint64 (setBigUint64 buffer offset value) offset = value.
Proof.
  intros H Hv. unfold getUint64, setBigUint64.
  assert (Hlow : getUint32 (setUint32 (setUint32 buffer offset (Z.land value 4294967295))
                                      (offset + 4) (Z.shiftr value 32)) offset
                 = Z.land value 4294967295 mod 4294967296).
  { transitivity (getUint32 (setUint32 buffer offset (Z.land value 4294967295)) offset).
    - apply getUint32_setUint32_ne. lia.
    - apply getUint32_setUint32. lia. }
  rewrite Hlow.
  rewrite getUint32_setUint32 by (autorewrite with buflen; lia).
  change 4294967295 with (Z.ones 32). rewrite Z.land_ones by lia.
  rewrite Z.shiftr_div_pow2 by lia.
  change (2 ^ 32) with 4294967296. change (2 ^ 64) with 18446744073709551616 in Hv.
  Z.div_mod_to_equations. lia.
Qed.

Lemma getUint8_ext (a b : Bytes) (i j : nat) :
  a !! i = b !! j -> getUint8 a i = getUint8 b j.
Proof. unfold getUint8. now intros ->. Qed.

(** ** XTG page encoder *)

Lemma ceilDiv8_bound (w : nat) : (w <= 8 * ceilDiv8 w < w + 8)%nat.
Proof.
  unfold ceilDiv8.
  pose proof (Nat.div_mod_eq w 8) as D.
  pose proof (Nat.mod_upper_bound w 8 ltac:(lia)) as B.
  destruct (Nat.eqb_spec (w mod 8) 0); lia.
Qed.

Lemma ceilDiv8_eq (w : nat) : ceilDiv8 w = ((w + 7) / 8)%nat.
Proof.
  pose proof (ceilDiv8_bound w) as B.
  apply (Nat.div_unique (w + 7) 8 (ceilDiv8 w) (w + 7 - 8 * ceilDiv8 w)); lia.
Qed.

Lemma column_byte_lt (w x : nat) : (x < w -> x / 8 < ceilDiv8 w)%nat.
Proof.
  intros H. pose proof (ceilDiv8_bound w) as B.
  apply Nat.Div0.div_lt_upper_bound. lia.
Qed.

Lemma packed_init (w h : nat) (data : Bytes) :
  packed w h data (newBuffer (ceilDiv8 w * h)) 0 0.
Proof.
  split; [apply length_newBuffer|].
  intros k b j Hk Hj. apply lookup_replicate in Hk as [-> _].
  rewrite Z.bits_0. split; [discriminate|].
  intros (y' & x' & _ & H & _). lia.
Qed.

Lemma packPixel_packed (w h : nat) (data pixelData : Bytes) (y x : nat) :
  (y < h)%nat -> (x < w)%nat ->
  packed w h data pixelData y x ->
  packed w h data (packPixel w (ceilDiv8 w) data y pixelData x) y (S x).
Proof.
  intros Hy Hx [Hlen Hbits]. unfold packPixel.
  remember (7 - x mod 8)%nat as bi eqn:Hbi.
  change (match data !! ((y * w + x) * 4)%nat with
          | Some value => 128 <=? value
          | None => false
          end) with (redAtLeast128 w data y x).
  assert (Hin : (y * ceilDiv8 w + x / 8 < length pixelData)%nat).
  { pose proof (column_byte_lt w x Hx). rewrite Hlen. nia. }
  destruct (redAtLeast128 w data y x) eqn:Hred.
  - destruct (lookup_lt_is_Some_2 pixelData _ Hin) as [old Hold]. rewrite Hold.
    split; [now rewrite length_insert|].
    intros k b j Hk Hj.
    destruct (decide (k = y * ceilDiv8 w + x / 8)%nat) as [->|Hne].
    + rewrite list_lookup_insert_eq in Hk by exact Hin. injection Hk as <-.
      change 256 with (2 ^ 8). rewrite Z.mod_pow2_bits_low by lia.
      rewrite Z.lor_spec, Z.shiftl_1_l, Z.pow2_bits_eqb by lia.
      rewrite orb_true_iff, (Hbits _ old j Hold Hj), Z.eqb_eq.
      split.
      * intros [(y' & x' & H1 & H2 & H3 & H4 & H5)|Heq].
        -- exists y', x'. repeat split; try assumption. lia.
        -- exists y, x. repeat split; try assumption; lia.
      * intros (y' & x' & H1 & H2 & H3 & H4 & H5).
        destruct (decide (y' = y /\ x' = x)) as [[-> ->]|Hother].
        -- right. lia.
        -- left. exists y', x'. repeat split; try assumption. lia.
    + rewrite list_lookup_insert_ne in Hk by congruence.
      rewrite (Hbits k b j Hk Hj). split.
      * intros (y' & x' & H1 & H2 & H3 & H4 & H5).
        exists y', x'. repeat split; try assumption. lia.
      * intros (y' & x' & H1 & H2 & H3 & H4 & H5).
        exists y', x'. repeat split; try assumption.
        destruct (decide (y' = y /\ x' = x)) as [[-> ->]|Hother]; [contradiction|lia].
  - split; [exact Hlen|]. intros k b j Hk Hj. rewrite (Hbits k b j Hk Hj). split.
    + intros (y' & x' & H1 & H2 & H3 & H4 & H5).
      exists y', x'. repeat split; try assumption. lia.
    + intros (y' & x' & H1 & H2 & H3 & H4 & H5).
      exists y', x'. repeat split; try assumption.
      destruct (decide (y' = y /\ x' = x)) as [[-> ->]|Hother]; [congruence|lia].
Qed.

Lemma packRow_packed (w h : nat) (data pixelData : Bytes) (y : nat) :
  (y < h)%nat ->
  packed w h data pixelData y 0 ->
  packed w h data (packRow w (ceilDiv8 w) data pixelData y) (S y) 0.
Proof.
  intros Hy H0. unfold packRow.
  assert (Hcols : forall n, (n <= w)%nat ->
            packed w h data (foldl (packPixel w (ceilDiv8 w) data y) pixelData (seq 0 n)) y n).
  { induction n as [|n IH]; intros Hn; [exact H0|].
    rewrite seq_S, foldl_snoc. apply packPixel_packed; [exact Hy|lia|].
    apply IH. lia. }
  destruct (Hcols w (le_n w)) as [Hlen Hbits].
  split; [exact Hlen|]. intros k b j Hk Hj. rewrite (Hbits k b j Hk Hj). split.
  - intros (y' & x' & H1 & H2 & H3 & H4 & H5).
    exists y', x'. repeat split; try assumption. lia.
  - intros (y' & x' & H1 & H2 & H3 & H4 & H5).
    exists y', x'. repeat split; try assumption. lia.
Qed.

Lemma packPixels_packed (w h : nat) (data : Bytes) :
  packed w h data (packPixels w h data) h 0.
Proof.
  unfold packPixels.
  assert (Hrows : forall n, (n <= h)%nat ->
            packed w h data
                   (foldl (packRow w (ceilDiv8 w) data)
                          (newBuffer (ceilDiv8 w * h)) (seq 0 n)) n 0).
  { induction n as [|n IH]; intros Hn; [apply packed_init|].
    rewrite seq_S, foldl_snoc. apply packRow_packed; [lia|]. apply IH. lia. }
  apply Hrows. lia.
Qed.

Lemma length_packPixels (w h : nat) (data : Bytes) :
  length (packPixels w h data) = (ceilDiv8 w * h)%nat.
Proof. apply packPixels_packed. Qed.

(** Bit (7 - x mod 8) of byte (y * rowBytes + x / 8) of the packed
    bitmap is the bit of pixel (x, y). *)
Lemma packPixels_bit (w h : nat) (data : Bytes) (x y : nat) :
  (x < w)%nat -> (y < h)%nat ->
  exists b,
    packPixels w h data !! (y * ceilDiv8 w + x / 8)%nat = Some b /\
    Z.testbit b (Z.of_nat (7 - x mod 8)) = redAtLeast128 w data y x.
Proof.
  intros Hx Hy. destruct (packPixels_packed w h data) as [Hlen Hbits].
  pose proof (column_byte_lt w x Hx) as Hcol.
  assert (Hin : (y * ceilDiv8 w + x / 8 < length (packPixels w h data))%nat)
    by (rewrite Hlen; nia).
  destruct (lookup_lt_is_Some_2 _ _ Hin) as [b Hb]. exists b. split; [exact Hb|].
  pose proof (Nat.mod_upper_bound x 8 ltac:(lia)) as Hm.
  specialize (Hbits _ b (7 - x mod 8)%nat Hb ltac:(lia)).
  apply eq_true_iff_eq. rewrite Hbits. split.
  - intros (y' & x' & H1 & _ & H3 & H4 & H5).
    pose proof (column_byte_lt w x' H1) as Hcol'.
    pose proof (Nat.mod_upper_bound x' 8 ltac:(lia)) as Hm'.
    pose proof (Nat.div_mod_eq x 8). pose proof (Nat.div_mod_eq x' 8).
    assert (y' = y) by nia. subst y'.
    assert (x' = x) by lia. now subst x'.
  - intros Hred. exists y, x. repeat split; try assumption. lia.
Qed.

Lemma getUint32_setBytes_ne (buffer source : Bytes) (offset i : nat) :
  (i + 4 <= offset \/ offset + length source <= i)%nat ->
  getUint32 (setBytes buffer source offset) i = getUint32 buffer i.
Proof.
  intros H. unfold getUint32.
  rewrite (getUint8_setBytes_ne buffer source offset i) by lia.
  rewrite (getUint8_setBytes_ne buffer source offset (i + 1)) by lia.
  rewrite (getUint8_setBytes_ne buffer source offset (i + 2)) by lia.
  rewrite (getUint8_setBytes_ne buffer source offset (i + 3)) by lia.
  reflexivity.
Qed.

Lemma setBytes_tail (buffer source : Bytes) (offset : nat) :
  length buffer = (offset + length source)%nat ->
  setBytes buffer source offset = take offset buffer ++ source.
Proof.
  intros H. unfold setBytes. rewrite H, Nat.leb_refl, <- H.
  rewrite drop_all. now rewrite app_nil_r.
Qed.

Lemma length_md5digestOf (pixelData : Bytes) : length (md5digestOf pixelData) = 8%nat.
Proof.
  unfold md5digestOf.
  generalize (seq 0 (Nat.min 8 (length pixelData))). intros l.
  assert (H : forall acc : Bytes,
            length (foldl (fun md5digest i => <[i := default 0 (pixelData !! i)]> md5digest)
                          acc l) = length acc).
  { induction l as [|i l IH]; intros acc; simpl; [reflexivity|].
    now rewrite IH, length_insert. }
  now rewrite H, length_newBuffer.
Qed.

(** C2: the XTG blob of an image of [w] by [h] pixels is a 22-byte
    header followed by exactly [ceil(w/8) * h] body bytes; the uint32 at
    byte 10 of the header, little-endian, is that body length; and bit
    [7 - x mod 8] of body byte [y * ceil(w/8) + x / 8] is set exactly
    when the red channel of pixel (x, y) is at least 128.  The image
    data holds four bytes per pixel and the packed size fits the 32-bit
    field (as it does for every image a browser can allocate). *)
Theorem imageDataToXtg_layout (imageData : ImageData.t) :
  let w := ImageData.width imageData in
  let h := ImageData.height imageData in
  let data := ImageData.data imageData in
  let rowBytes := ceilDiv8 w in
  (1 <= w)%nat -> (1 <= h)%nat ->
  length data = (w * h * 4)%nat ->
  Z.of_nat (rowBytes * h) < 2 ^ 32 ->
  exists header body,
    imageDataToXtg imageData = header ++ body /\
    length header = 22%nat /\
    length body = (rowBytes * h)%nat /\
    getUint32 (imageDataToXtg imageData) 10 = Z.of_nat (rowBytes * h) /\
    forall x y, (x < w)%nat -> (y < h)%nat ->
      exists red b,
        data !! ((y * w + x) * 4)%nat = Some red /\
        body !! (y * rowBytes + x / 8)%nat = Some b /\
        (Z.testbit b (Z.of_nat (7 - x mod 8)) = true <-> 128 <= red).
Proof.
  intros w h data rowBytes _ _ Hdata Hfit.
  unfold imageDataToXtg. fold w h data.
  set (pixelData := packPixels w h data).
  assert (Hlen : length pixelData = (rowBytes * h)%nat) by apply length_packPixels.
  match goal with
  | |- context [setBytes ?b pixelData 22] => set (buffer := b)
  end.
  assert (Hbuf : length buffer = (22 + length pixelData)%nat).
  { unfold buffer. now autorewrite with buflen. }
  exists (take 22 buffer), pixelData.
  split; [now apply setBytes_tail|].
  split; [rewrite length_take; lia|].
  split; [exact Hlen|].
  split.
  - rewrite getUint32_setBytes_ne by lia. unfold buffer.
    rewrite getUint32_setBytes_ne by (rewrite length_md5digestOf; lia).
    rewrite getUint32_setUint32 by (autorewrite with buflen; lia).
    rewrite Hlen. apply Z.mod_small. change 4294967296 with (2 ^ 32). lia.
  - intros x y Hx Hy.
    assert (Hidx : ((y * w + x) * 4 < length data)%nat) by (rewrite Hdata; nia).
    destruct (lookup_lt_is_Some_2 data _ Hidx) as [red Hred].
    destruct (packPixels_bit w h data x y Hx Hy) as (b & Hb & Hbit).
    exists red, b. split; [exact Hred|]. split; [exact Hb|].
    rewrite Hbit. unfold redAtLeast128. rewrite Hred. apply Z.leb_le.
Qed.

Example imageDataToXtg_sample :
  imageDataToXtg sampleImage
  = [88; 84; 71; 0;  10; 0;  2; 0;  0;  0;  4; 0; 0; 0;
     129; 128; 0; 64; 0; 0; 0; 0;
     129; 128; 0; 64].
Proof. vm_compute. reflexivity. Qed.

Lemma imageDataToXtg_layout_witness :
  exists header body,
    imageDataToXtg sampleImage = header ++ body /\
    length header = 22%nat /\
    length body = (ceilDiv8 10 * 2)%nat /\
    getUint32 (imageDataToXtg sampleImage) 10 = Z.of_nat (ceilDiv8 10 * 2) /\
    forall x y, (x < 10)%nat -> (y < 2)%nat ->
      exists red b,
        ImageData.data sampleImage !! ((y * 10 + x) * 4)%nat = Some red /\
        body !! (y * ceilDiv8 10 + x / 8)%nat = Some b /\
        (Z.testbit b (Z.of_nat (7 - x mod 8)) = true <-> 128 <= red).
Proof.
  apply (imageDataToXtg_layout sampleImage);
    [ simpl; lia | simpl; lia | reflexivity | vm_compute; reflexivity ].
Defined.

(** ** XTC container *)

Lemma lookup_setBytes_ne (buffer source : Bytes) (offset i : nat) :
  (i < offset \/ offset + length source <= i)%nat ->
  setBytes buffer source offset !! i = buffer !! i.
Proof.
  intros H. unfold setBytes.
  destruct (Nat.leb_spec (offset + length source) (length buffer)) as [Hfit|];
    [|reflexivity].
  destruct H as [H|H].
  - rewrite lookup_app_l by (rewrite length_take; lia).
    now rewrite lookup_take_lt.
  - rewrite lookup_app_r by (rewrite length_take; lia).
    rewrite length_take, lookup_app_r by lia.
    rewrite lookup_drop. f_equal. lia.
Qed.

Lemma lookup_setBytes_in (buffer source : Bytes) (offset j : nat) :
  (offset + length source <= length buffer)%nat ->
  (j < length source)%nat ->
  setBytes buffer source offset !! (offset + j)%nat = source !! j.
Proof.
  intros Hfit Hj. unfold setBytes.
  destruct (Nat.leb_spec (offset + length source) (length buffer)); [|lia].
  rewrite lookup_app_r by (rewrite length_take; lia).
  rewrite length_take, lookup_app_l by lia. f_equal. lia.
Qed.

Lemma getUint16_ext (a b : Bytes) (offset : nat) :
  (forall i, (offset <= i < offset + 2)%nat -> getUint8 a i = getUint8 b i) ->
  getUint16 a offset = getUint16 b offset.
Proof. intros H. unfold getUint16. rewrite !H by lia. reflexivity. Qed.

Lemma getUint32_ext (a b : Bytes) (offset : nat) :
  (forall i, (offset <= i < offset + 4)%nat -> getUint8 a i = getUint8 b i) ->
  getUint32 a offset = getUint32 b offset.
Proof. intros H. unfold getUint32. rewrite !H by lia. reflexivity. Qed.

Lemma getUint64_ext (a b : Bytes) (offset : nat) :
  (forall i, (offset <= i < offset + 8)%nat -> getUint8 a i = getUint8 b i) ->
  getUint64 a offset = getUint64 b offset.
Proof.
  intros H. unfold getUint64.
  rewrite (getUint32_ext a b offset), (getUint32_ext a b (offset + 4));
    [reflexivity | |]; intros i Hi; apply H; lia.
Qed.

Lemma length_writeIndexTable (xtgBlobs : list Bytes) (buffer : Bytes)
    (indexOffset i relOffset : nat) :
  length (writeIndexTable buffer indexOffset xtgBlobs i relOffset) = length buffer.
Proof.
  revert buffer i relOffset. induction xtgBlobs as [|blob rest IH]; intros; simpl;
    [reflexivity|].
  rewrite IH. now autorewrite with buflen.
Qed.

Lemma length_writePageData (xtgBlobs : list Bytes) (buffer : Bytes) (writeOffset : nat) :
  length (writePageData buffer xtgBlobs writeOffset) = length buffer.
Proof.
  revert buffer writeOffset. induction xtgBlobs as [|blob rest IH]; intros; simpl;
    [reflexivity|].
  rewrite IH. now autorewrite with buflen.
Qed.

#[local] Hint Rewrite length_writeIndexTable length_writePageData : buflen.

(** The index loop started at entry [i] touches only the entries
    [i .. i + length xtgBlobs - 1]. *)
Lemma writeIndexTable_frame (xtgBlobs : list Bytes) (buffer : Bytes)
    (indexOffset i relOffset at_ : nat) :
  (at_ < indexOffset + i * 16 \/ indexOffset + (i + length xtgBlobs) * 16 <= at_)%nat ->
  getUint8 (writeIndexTable buffer indexOffset xtgBlobs i relOffset) at_
  = getUint8 buffer at_.
Proof.
  revert buffer i relOffset. induction xtgBlobs as [|blob rest IH];
    intros buffer i relOffset H; cbn [writeIndexTable]; [reflexivity|].
  cbn [length] in H. rewrite IH by lia.
  rewrite !getUint8_setUint16_ne by lia.
  rewrite getUint8_setUint32_ne by lia.
  now rewrite getUint8_setBigUint64_ne by lia.
Qed.

(** The data loop started at [writeOffset] touches nothing before it. *)
Lemma writePageData_frame (xtgBlobs : list Bytes) (buffer : Bytes)
    (writeOffset at_ : nat) :
  (at_ < writeOffset)%nat ->
  writePageData buffer xtgBlobs writeOffset !! at_ = buffer !! at_.
Proof.
  revert buffer writeOffset. induction xtgBlobs as [|blob rest IH];
    intros buffer writeOffset H; simpl; [reflexivity|].
  rewrite IH by lia. apply lookup_setBytes_ne. lia.
Qed.

Lemma foldl_totalSize (xtgBlobs : list Bytes) (start : nat) :
  foldl (fun totalSize blob => (totalSize + length blob)%nat) start xtgBlobs
  = (start + byteLength xtgBlobs)%nat.
Proof.
  revert start. induction xtgBlobs as [|blob rest IH]; intros start;
    cbn [foldl byteLength]; [lia|].
  rewrite IH. lia.
Qed.

Ltac peel_writes :=
  repeat first
    [ rewrite getUint8_setUint16_ne by lia
    | rewrite getUint8_setUint32_ne by lia
    | rewrite getUint8_setBigUint64_ne by lia
    | rewrite getUint8_setUint8_ne by lia
    | rewrite writeIndexTable_frame by lia ].

(** Entry [i + k] of the index table once the loop started at entry [i]
    with offset [relOffset] has run. *)
Lemma writeIndexTable_entry (xtgBlobs : list Bytes) (buffer : Bytes)
    (indexOffset i relOffset k : nat) (blob : Bytes) :
  xtgBlobs !! k = Some blob ->
  (indexOffset + (i + length xtgBlobs) * 16 <= length buffer)%nat ->
  Z.of_nat (relOffset + byteLength xtgBlobs) < 2 ^ 64 ->
  let out := writeIndexTable buffer indexOffset xtgBlobs i relOffset in
  let entryOffset := (indexOffset + (i + k) * 16)%nat in
  getUint64 out entryOffset = Z.of_nat (relOffset + byteLength (take k xtgBlobs)) /\
  getUint32 out (entryOffset + 8) = Z.of_nat (length blob) mod 4294967296 /\
  getUint16 out (entryOffset + 12) = Z.of_nat TARGET_WIDTH /\
  getUint16 out (entryOffset + 14) = Z.of_nat TARGET_HEIGHT.
Proof.
  revert buffer i relOffset k.
  induction xtgBlobs as [|first rest IH]; intros buffer i relOffset k Hk Hfit Hmax;
    [discriminate|].
  cbn [length byteLength] in Hfit, Hmax.
  destruct k as [|k]; cbn [writeIndexTable].
  - injection Hk as ->. cbn [take byteLength].
    replace (indexOffset + (i + 0) * 16)%nat with (indexOffset + i * 16)%nat by lia.
    set (entryOffset := (indexOffset + i * 16)%nat).
    repeat split.
    + erewrite getUint64_ext; [|intros at_ Hat; peel_writes; reflexivity].
      rewrite getUint64_setBigUint64 by lia. f_equal. lia.
    + erewrite getUint32_ext; [|intros at_ Hat; peel_writes; reflexivity].
      apply getUint32_setUint32. autorewrite with buflen. lia.
    + erewrite getUint16_ext; [|intros at_ Hat; peel_writes; reflexivity].
      rewrite getUint16_setUint16 by (autorewrite with buflen; lia). reflexivity.
    + erewrite getUint16_ext; [|intros at_ Hat; peel_writes; reflexivity].
      rewrite getUint16_setUint16 by (autorewrite with buflen; lia). reflexivity.
  - cbn [take byteLength].
    replace (indexOffset + (i + S k) * 16)%nat
      with (indexOffset + (S i + k) * 16)%nat by lia.
    replace (relOffset + (length first + byteLength (take k rest)))%nat
      with (relOffset + length first + byteLength (take k rest))%nat by lia.
    apply IH.
    + exact Hk.
    + autorewrite with buflen. lia.
    + lia.
Qed.

(** The bytes of page [k] once the data loop started at [writeOffset]
    has run. *)
Lemma writePageData_page (xtgBlobs : list Bytes) (buffer : Bytes)
    (writeOffset k j : nat) (blob : Bytes) :
  xtgBlobs !! k = Some blob ->
  (writeOffset + byteLength xtgBlobs <= length buffer)%nat ->
  (j < length blob)%nat ->
  writePageData buffer xtgBlobs writeOffset
    !! (writeOffset + byteLength (take k xtgBlobs) + j)%nat
  = blob !! j.
Proof.
  revert buffer writeOffset k.
  induction xtgBlobs as [|first rest IH]; intros buffer writeOffset k Hk Hfit Hj;
    [discriminate|].
  cbn [byteLength] in Hfit.
  destruct k as [|k]; cbn [writePageData take byteLength].
  - injection Hk as ->. rewrite writePageData_frame by lia.
    rewrite Nat.add_0_r. apply lookup_setBytes_in; lia.
  - replace (writeOffset + (length first + byteLength (take k rest)) + j)%nat
      with (writeOffset + length first + byteLength (take k rest) + j)%nat by lia.
    apply IH; [exact Hk | autorewrite with buflen; lia | exact Hj].
Qed.

Lemma byteLength_take_le (xtgBlobs : list Bytes) (k : nat) (blob : Bytes) :
  xtgBlobs !! k = Some blob ->
  (byteLength (take k xtgBlobs) + length blob <= byteLength xtgBlobs)%nat.
Proof.
  revert k. induction xtgBlobs as [|first rest IH]; intros k Hk; [discriminate|].
  destruct k as [|k]; cbn [take byteLength].
  - injection Hk as ->. lia.
  - specialize (IH k Hk). lia.
Qed.

Lemma length_buildXtcFromBlobs (xtgBlobs : list Bytes) :
  length (buildXtcFromBlobs xtgBlobs)
  = (48 + length xtgBlobs * 16 + byteLength xtgBlobs)%nat.
Proof.
  unfold buildXtcFromBlobs. autorewrite with buflen. apply foldl_totalSize.
Qed.

Lemma getUint8_writePageData_frame (xtgBlobs : list Bytes) (buffer : Bytes)
    (writeOffset at_ : nat) :
  (at_ < writeOffset)%nat ->
  getUint8 (writePageData buffer xtgBlobs writeOffset) at_ = getUint8 buffer at_.
Proof. intros H. apply getUint8_ext. now apply writePageData_frame. Qed.

Lemma byteLength_bound (xtgBlobs : list Bytes) :
  Forall (fun blob => Z.of_nat (length blob) < 2 ^ 32) xtgBlobs ->
  Z.of_nat (byteLength xtgBlobs) <= Z.of_nat (length xtgBlobs) * 4294967295.
Proof.
  induction 1 as [|blob rest Hblob _ IH]; cbn [byteLength length]; [lia|].
  change (2 ^ 32) with 4294967296 in Hblob. lia.
Qed.

(** The layout of the container [buildXtcFromBlobs] produces. *)
Lemma buildXtcFromBlobs_layout (xtgBlobs : list Bytes) :
  Z.of_nat (length xtgBlobs) < 65536 ->
  Forall (fun blob => Z.of_nat (length blob) < 2 ^ 32) xtgBlobs ->
  let out := buildXtcFromBlobs xtgBlobs in
  let dataOffset := (48 + length xtgBlobs * 16)%nat in
  getUint16 out 6 = Z.of_nat (length xtgBlobs) /\
  getUint64 out 24 = 48 /\
  getUint64 out 32 = Z.of_nat dataOffset /\
  forall i blob, xtgBlobs !! i = Some blob ->
    getUint64 out (48 + i * 16) = Z.of_nat (dataOffset + byteLength (take i xtgBlobs)) /\
    getUint32 out (48 + i * 16 + 8) = Z.of_nat (length blob) /\
    forall j, (j < length blob)%nat ->
      out !! (dataOffset + byteLength (take i xtgBlobs) + j)%nat = blob !! j.
Proof.
  intros Hcount Hsizes out dataOffset.
  pose proof (byteLength_bound xtgBlobs Hsizes) as Hbound.
  pose proof (length_buildXtcFromBlobs xtgBlobs) as Hlen. fold out in Hlen.
  unfold out, buildXtcFromBlobs. fold dataOffset.
  rewrite foldl_totalSize.
  set (size := (dataOffset + byteLength xtgBlobs)%nat).
  repeat split.
  - erewrite getUint16_ext;
      [|intros at_ Hat; rewrite getUint8_writePageData_frame by (unfold dataOffset; lia);
        peel_writes; reflexivity].
    rewrite getUint16_setUint16 by (autorewrite with buflen; unfold size, dataOffset; lia).
    apply Z.mod_small. lia.
  - erewrite getUint64_ext;
      [|intros at_ Hat; rewrite getUint8_writePageData_frame by (unfold dataOffset; lia);
        peel_writes; reflexivity].
    rewrite getUint64_setBigUint64
      by (autorewrite with buflen; unfold size, dataOffset; lia).
    reflexivity.
  - erewrite getUint64_ext;
      [|intros at_ Hat; rewrite getUint8_writePageData_frame by (unfold dataOffset; lia);
        peel_writes; reflexivity].
    rewrite getUint64_setBigUint64
      by (autorewrite with buflen; unfold size, dataOffset; lia).
    reflexivity.
  - erewrite getUint64_ext;
      [|intros at_ Hat; apply getUint8_writePageData_frame;
        apply lookup_lt_Some in H; unfold dataOffset; lia].
    match goal with
    | |- context [writeIndexTable ?b 48 xtgBlobs 0 dataOffset] => set (buffer := b)
    end.
    destruct (writeIndexTable_entry xtgBlobs buffer 48 0 dataOffset i blob H) as (E & _).
    + unfold buffer. autorewrite with buflen. unfold size, dataOffset. lia.
    + unfold dataOffset. lia.
    + exact E.
  - erewrite getUint32_ext;
      [|intros at_ Hat; apply getUint8_writePageData_frame;
        apply lookup_lt_Some in H; unfold dataOffset; lia].
    match goal with
    | |- context [writeIndexTable ?b 48 xtgBlobs 0 dataOffset] => set (buffer := b)
    end.
    destruct (writeIndexTable_entry xtgBlobs buffer 48 0 dataOffset i blob H)
      as (_ & E & _).
    + unfold buffer. autorewrite with buflen. unfold size, dataOffset. lia.
    + unfold dataOffset. lia.
    + change (48 + (0 + i) * 16 + 8)%nat with (48 + i * 16 + 8)%nat in E.
      rewrite E. apply Z.mod_small.
      rewrite Forall_lookup in Hsizes. specialize (Hsizes i blob H).
      change (2 ^ 32) with 4294967296 in Hsizes. lia.
  - intros j Hj. apply writePageData_page; [exact H| |exact Hj].
    autorewrite with buflen. unfold size. lia.
Qed.

Lemma length_imageDataToXtg (imageData : ImageData.t) :
  length (imageDataToXtg imageData)
  = (22 + ceilDiv8 (ImageData.width imageData) * ImageData.height imageData)%nat.
Proof.
  unfold imageDataToXtg. autorewrite with buflen. now rewrite length_packPixels.
Qed.

Lemma target_blob_size (canvasPixels : ProcessedPage -> Bytes) (page : ProcessedPage) :
  Z.of_nat (length (imageDataToXtg (getImageData canvasPixels page))) = 48022.
Proof. rewrite length_imageDataToXtg. reflexivity. Qed.

(** C1 (as the code has it): for a non-empty list of fewer than 65536
    pages, the container buildXtc produces has indexOffset = 48 (u64 at
    byte 24), dataOffset (u64 at byte 32) = indexOffset + pageCount * 16
    and pageCount (u16 at byte 6) = the number of index entries; the u64
    offset of index entry i is the position of page i in the whole
    buffer, dataOffset plus the byte lengths of pages 0..i-1; its u32
    size is the length of page i, whose bytes are at that position; and
    offset + size <= the length of the buffer. *)
Theorem buildXtc_structure (canvasPixels : ProcessedPage -> Bytes)
    (pages : list ProcessedPage) :
  pages <> [] ->
  Z.of_nat (length pages) < 65536 ->
  let xtgBlobs := map (fun page => imageDataToXtg (getImageData canvasPixels page)) pages in
  let out := buildXtc canvasPixels pages in
  let pageCount := getUint16 out 6 in
  let indexOffset := getUint64 out 24 in
  let dataOffset := getUint64 out 32 in
  indexOffset = 48 /\
  dataOffset = indexOffset + pageCount * 16 /\
  pageCount = Z.of_nat (length xtgBlobs) /\
  forall i blob, xtgBlobs !! i = Some blob ->
    let offset := getUint64 out (48 + i * 16) in
    let size := getUint32 out (48 + i * 16 + 8) in
    offset = dataOffset + Z.of_nat (byteLength (take i xtgBlobs)) /\
    size = Z.of_nat (length blob) /\
    (forall j, (j < length blob)%nat -> out !! (Z.to_nat offset + j)%nat = blob !! j) /\
    offset + size <= Z.of_nat (length out).
Proof.
  intros _ Hcount xtgBlobs out.
  assert (Hout : out = buildXtcFromBlobs xtgBlobs) by reflexivity.
  clearbody out. subst out.
  assert (Hcount' : Z.of_nat (length xtgBlobs) < 65536).
  { unfold xtgBlobs. now rewrite length_map. }
  assert (Hsizes : Forall (fun blob : Bytes => Z.of_nat (length blob) < 2 ^ 32) xtgBlobs).
  { unfold xtgBlobs. apply Forall_map, Forall_forall. intros page _.
    cbv beta. rewrite target_blob_size. reflexivity. }
  clearbody xtgBlobs.
  intros pageCount indexOffset dataOffset.
  set (out := buildXtcFromBlobs xtgBlobs) in *.
  destruct (buildXtcFromBlobs_layout xtgBlobs Hcount' Hsizes)
    as (Hpc & Hio & Hdo & Hentries).
  fold out in Hpc, Hio, Hdo, Hentries.
  unfold pageCount, indexOffset, dataOffset. rewrite Hpc, Hio, Hdo.
  split; [reflexivity|]. split; [lia|]. split; [reflexivity|].
  intros i blob Hi. cbv zeta.
  destruct (Hentries i blob Hi) as (Hoff & Hsize & Hdata).
  rewrite Hoff, Hsize.
  split; [lia|]. split; [reflexivity|]. split.
  - intros j Hj. rewrite Nat2Z.id. now apply Hdata.
  - pose proof (byteLength_take_le xtgBlobs i blob Hi).
    unfold out. rewrite length_buildXtcFromBlobs. lia.
Qed.

Lemma buildXtc_structure_witness :
  let pages := [spreadPage; spreadPage] in
  let xtgBlobs := map (fun page => imageDataToXtg (getImageData whitePixels page)) pages in
  let out := buildXtc whitePixels pages in
  let pageCount := getUint16 out 6 in
  let indexOffset := getUint64 out 24 in
  let dataOffset := getUint64 out 32 in
  indexOffset = 48 /\
  dataOffset = indexOffset + pageCount * 16 /\
  pageCount = Z.of_nat (length xtgBlobs) /\
  forall i blob, xtgBlobs !! i = Some blob ->
    let offset := getUint64 out (48 + i * 16) in
    let size := getUint32 out (48 + i * 16 + 8) in
    offset = dataOffset + Z.of_nat (byteLength (take i xtgBlobs)) /\
    size = Z.of_nat (length blob) /\
    (forall j, (j < length blob)%nat -> out !! (Z.to_nat offset + j)%nat = blob !! j) /\
    offset + size <= Z.of_nat (length out).
Proof.
  apply (buildXtc_structure whitePixels [spreadPage; spreadPage]).
  - discriminate.
  - simpl. lia.
Defined.

Example buildXtcFromBlobs_sample :
  buildXtcFromBlobs [[1; 2; 3]; [4; 5]]
  = [88; 84; 67; 0;  1; 0;  2; 0;  0; 0; 0; 0;  0; 0; 0; 0;
     0; 0; 0; 0; 0; 0; 0; 0;   48; 0; 0; 0; 0; 0; 0; 0;
     80; 0; 0; 0; 0; 0; 0; 0;  0; 0; 0; 0; 0; 0; 0; 0;
     80; 0; 0; 0; 0; 0; 0; 0;  3; 0; 0; 0;  224; 1;  32; 3;
     83; 0; 0; 0; 0; 0; 0; 0;  2; 0; 0; 0;  224; 1;  32; 3;
     1; 2; 3; 4; 5].
Proof. vm_compute. reflexivity. Qed.

Lemma single_page_container (blob : Bytes) :
  Z.of_nat (length blob) = 48022 ->
  let out := buildXtcFromBlobs [blob] in
  getUint64 out 32 = 64 /\ getUint64 out 48 = 64 /\ getUint32 out 56 = 48022 /\
  Z.of_nat (length out) = 48086.
Proof.
  intros Hblob out.
  assert (Hsizes : Forall (fun b : Bytes => Z.of_nat (length b) < 2 ^ 32) [blob]).
  { constructor; [|constructor]. rewrite Hblob. reflexivity. }
  assert (Hcount : Z.of_nat (length [blob]) < 65536) by (cbn [length]; lia).
  destruct (buildXtcFromBlobs_layout [blob] Hcount Hsizes) as (_ & _ & Hdo & Hentries).
  destruct (Hentries 0%nat blob eq_refl) as (Hoff & Hsize & _).
  fold out in Hdo, Hoff, Hsize.
  change (48 + 0 * 16 + 8)%nat with 56%nat in Hsize.
  change (48 + 0 * 16)%nat with 48%nat in Hoff.
  cbn [length take byteLength] in Hdo, Hoff.
  split; [rewrite Hdo; reflexivity|].
  split; [rewrite Hoff; reflexivity|].
  split; [rewrite Hsize; exact Hblob|].
  unfold out. rewrite length_buildXtcFromBlobs. cbn [length byteLength]. lia.
Qed.

(** C1 (the claim as stated fails): for a single white 480 x 800 page,
    buildXtc writes 64 as the offset of entry 0, the position of the
    page in the buffer, not 0, its position relative to dataOffset; and
    offset + size = 48086 exceeds totalBufferLength - dataOffset =
    48022. *)
Lemma buildXtc_offset_not_relative :
  let out := buildXtc whitePixels [spreadPage] in
  let dataOffset := getUint64 out 32 in
  let offset := getUint64 out 48 in
  let size := getUint32 out 56 in
  dataOffset = 64 /\ offset = 64 /\ size = 48022 /\ Z.of_nat (length out) = 48086 /\
  ~ (offset = 0) /\
  ~ (offset + size <= Z.of_nat (length out) - dataOffset).
Proof.
  cbv zeta. unfold buildXtc. cbn [map].
  remember (getImageData whitePixels spreadPage) as imageData eqn:Himage.
  assert (Hblob : Z.of_nat (length (imageDataToXtg imageData)) = 48022).
  { rewrite length_imageDataToXtg, Himage. reflexivity. }
  clear Himage.
  destruct (single_page_container _ Hblob) as (Hd & Ho & Hs & Hl).
  rewrite Hd, Ho, Hs, Hl. repeat split; lia.
Qed.

(** ** Ordering of pages by name *)

Lemma lexCompare_refl (a : list N) : lexCompare a a = Eq.
Proof.
  induction a as [|u a IH]; cbn [lexCompare]; [reflexivity|].
  now rewrite N.compare_refl.
Qed.

Lemma lexCompare_eq (a b : list N) : lexCompare a b = Eq -> a = b.
Proof.
  revert b. induction a as [|u a IH]; intros [|v b]; cbn [lexCompare];
    try discriminate; [reflexivity|].
  destruct (N.compare_spec u v) as [->| |]; try discriminate.
  intros H. f_equal. now apply IH.
Qed.

Lemma lexCompare_antisym (a b : list N) :
  lexCompare b a = CompOpp (lexCompare a b).
Proof.
  revert b. induction a as [|u a IH]; intros [|v b]; cbn [lexCompare];
    try reflexivity.
  rewrite (N.compare_antisym u v).
  destruct (N.compare u v); cbn [CompOpp]; [apply IH|reflexivity|reflexivity].
Qed.

Lemma lexCompare_trans (a b c : list N) :
  lexCompare a b = Lt -> lexCompare b c = Lt -> lexCompare a c = Lt.
Proof.
  revert b c. induction a as [|u a IH]; intros [|v b] [|w c]; cbn [lexCompare];
    try discriminate; try reflexivity.
  destruct (N.compare_spec u v) as [->|Huv|Huv]; try discriminate.
  - destruct (N.compare_spec v w) as [->|Hvw|Hvw]; try discriminate;
      [apply IH|reflexivity].
  - intros _. destruct (N.compare_spec v w) as [->|Hvw|Hvw]; try discriminate; intros _.
    + now rewrite (proj2 (N.compare_lt_iff u w) Huv).
    + now rewrite (proj2 (N.compare_lt_iff u w) (N.lt_trans _ _ _ Huv Hvw)).
Qed.

Lemma lexCompare_app_same (p a b : list N) :
  lexCompare (p ++ a) (p ++ b) = lexCompare a b.
Proof.
  induction p as [|u p IH]; [reflexivity|].
  cbn [app lexCompare]. now rewrite N.compare_refl.
Qed.

Section SortBy.

Context {A : Type}.
Variable compare : A -> A -> comparison.

Hypothesis compare_antisym : forall a b, compare b a = CompOpp (compare a b).
Hypothesis compare_le_trans :
  forall a b c, compare a b <> Gt -> compare b c <> Gt -> compare a c <> Gt.

Let before (a b : A) : Prop := compare a b = Lt.
Let notAfter (a b : A) : Prop := compare a b <> Gt.

Lemma insertSorted_Permutation (a : A) (l : list A) :
  Permutation (insertSorted compare a l) (a :: l).
Proof.
  induction l as [|b l IH]; cbn [insertSorted]; [reflexivity|].
  destruct (compare a b); try reflexivity.
  rewrite IH. apply perm_swap.
Qed.

Lemma sortBy_Permutation (l : list A) : Permutation (sortBy compare l) l.
Proof.
  induction l as [|a l IH]; cbn [sortBy]; [reflexivity|].
  rewrite insertSorted_Permutation. now constructor.
Qed.

Lemma insertSorted_sorted (a : A) (l : list A) :
  StronglySorted notAfter l -> StronglySorted notAfter (insertSorted compare a l).
Proof.
  induction 1 as [|b l Hl IH Hb]; cbn [insertSorted].
  - repeat constructor.
  - destruct (compare a b) eqn:E.
    + constructor; [now constructor|]. constructor.
      * unfold notAfter. now rewrite E.
      * eapply Forall_impl; [exact Hb|]. intros c Hc. cbv beta in Hc.
        apply (compare_le_trans a b c); [now rewrite E|exact Hc].
    + constructor; [now constructor|]. constructor.
      * unfold notAfter. now rewrite E.
      * eapply Forall_impl; [exact Hb|]. intros c Hc. cbv beta in Hc.
        apply (compare_le_trans a b c); [now rewrite E|exact Hc].
    + constructor; [exact IH|].
      rewrite (insertSorted_Permutation a l). constructor; [|exact Hb].
      unfold notAfter. rewrite compare_antisym, E. discriminate.
Qed.

Lemma sortBy_sorted (l : list A) : StronglySorted notAfter (sortBy compare l).
Proof.
  induction l as [|a l IH]; cbn [sortBy]; [constructor|].
  now apply insertSorted_sorted.
Qed.

(** A strictly ascending list is the only ascending arrangement of its
    elements. *)
Lemma ascending_unique (l1 l2 : list A) :
  StronglySorted before l1 -> StronglySorted notAfter l2 ->
  Permutation l1 l2 -> l1 = l2.
Proof.
  intros H1. revert l2. induction H1 as [|a l1 Hl1 IH Ha]; intros l2 H2 Hperm.
  - now apply Permutation_nil in Hperm.
  - destruct l2 as [|b l2]; [now apply Permutation_sym, Permutation_nil in Hperm|].
    apply StronglySorted_inv in H2 as [H2 Hb].
    assert (Heq : a = b).
    { assert (Hin : In b (a :: l1))
        by (eapply Permutation_in; [symmetry; exact Hperm|now left]).
      destruct Hin as [Hin|Hin]; [exact Hin|].
      rewrite List.Forall_forall in Ha. specialize (Ha b Hin).
      assert (Hin' : In a (b :: l2)) by (eapply Permutation_in; [exact Hperm|now left]).
      destruct Hin' as [Hin'|Hin']; [now symmetry|].
      rewrite List.Forall_forall in Hb. specialize (Hb a Hin').
      exfalso. apply Hb. unfold before in Ha. now rewrite compare_antisym, Ha. }
    subst b. f_equal. apply IH; [exact H2|].
    now apply Permutation_cons_inv in Hperm.
Qed.

(** Sorting any arrangement of a strictly ascending list gives that
    list. *)
Lemma sortBy_ascending (l arrival : list A) :
  StronglySorted before l -> Permutation arrival l -> sortBy compare arrival = l.
Proof.
  intros Hl Hperm. symmetry. apply ascending_unique; [exact Hl|apply sortBy_sorted|].
  rewrite sortBy_Permutation. now symmetry.
Qed.

End SortBy.

(** ** Page names *)

Lemma append_cons (c : ascii) (a b : string) :
  (String c a +:+ b)%string = String c (a +:+ b).
Proof. reflexivity. Qed.

Lemma append_nil (b : string) : ("" +:+ b)%string = b.
Proof. reflexivity. Qed.

Lemma nameKey_app (rank : ascii -> N) (a b : string) :
  nameKey rank (a +:+ b) = nameKey rank a ++ nameKey rank b.
Proof.
  unfold nameKey. induction a as [|c a IH]; [reflexivity|].
  rewrite append_cons. cbn [list_ascii_of_string map app]. now rewrite IH.
Qed.

Lemma app_empty_r (s : string) : (s +:+ "")%string = s.
Proof. induction s as [|c s IH]; [reflexivity|]. now rewrite append_cons, IH. Qed.

Lemma app_assoc_string (a b c : string) :
  ((a +:+ b) +:+ c)%string = (a +:+ (b +:+ c))%string.
Proof. induction a as [|x a IH]; [reflexivity|]. now rewrite !append_cons, IH. Qed.

Lemma padded_digits_table :
  forallb (fun d3 => forallb (fun d2 => forallb (fun d1 => forallb (fun d0 =>
    String.eqb (pageName (numberOf d3 d2 d1 d0) "") (fourDigits d3 d2 d1 d0))
    (seq 0 10)) (seq 0 10)) (seq 0 10)) (seq 0 10) = true.
Proof. vm_compute. reflexivity. Qed.

(** A page number up to 9999 is padded to its four decimal digits. *)
Lemma pageName_digits (d3 d2 d1 d0 : nat) (suffix : string) :
  (d3 <= 9)%nat -> (d2 <= 9)%nat -> (d1 <= 9)%nat -> (d0 <= 9)%nat ->
  pageName (numberOf d3 d2 d1 d0) suffix = (fourDigits d3 d2 d1 d0 +:+ suffix)%string.
Proof.
  intros H3 H2 H1 H0.
  pose proof padded_digits_table as T.
  rewrite forallb_forall in T. specialize (T d3 ltac:(apply in_seq; lia)).
  rewrite forallb_forall in T. specialize (T d2 ltac:(apply in_seq; lia)).
  rewrite forallb_forall in T. specialize (T d1 ltac:(apply in_seq; lia)).
  rewrite forallb_forall in T. specialize (T d0 ltac:(apply in_seq; lia)).
  apply String.eqb_eq in T. rewrite <- T.
  unfold pageName. now rewrite app_empty_r.
Qed.

Lemma pageName_prefix (pageNum : Z) (suffix : string) :
  pageName pageNum suffix = (pageName pageNum "" +:+ suffix)%string.
Proof. unfold pageName. now rewrite app_empty_r. Qed.

(** Two names of the same page compare as their suffixes do. *)
Lemma localeCompare_same_page (rank : ascii -> N) (pageNum : Z) (s t : string) :
  localeCompare rank (pageName pageNum s) (pageName pageNum t) = localeCompare rank s t.
Proof.
  unfold localeCompare. fold (nameKey rank (pageName pageNum s)).
  fold (nameKey rank (pageName pageNum t)).
  rewrite (pageName_prefix pageNum s), (pageName_prefix pageNum t), !nameKey_app.
  apply lexCompare_app_same.
Qed.

Lemma digits_of (n : Z) :
  0 <= n <= 9999 ->
  exists d3 d2 d1 d0 : nat,
    (d3 <= 9)%nat /\ (d2 <= 9)%nat /\ (d1 <= 9)%nat /\ (d0 <= 9)%nat /\
    n = numberOf d3 d2 d1 d0.
Proof.
  intros H.
  exists (Z.to_nat (n / 1000)), (Z.to_nat (n / 100 mod 10)),
         (Z.to_nat (n / 10 mod 10)), (Z.to_nat (n mod 10)).
  unfold numberOf. repeat split; try (Z.div_mod_to_equations; lia).
Qed.

Lemma compare_digit (rank : ascii -> N) (i j : nat) :
  digitsOrdered rank -> (i < j <= 9)%nat ->
  N.compare (rank (digitChar i)) (rank (digitChar j)) = Lt.
Proof. intros Hd Hij. apply N.compare_lt_iff. now apply Hd. Qed.

(** A name of an earlier page sorts before a name of a later page. *)
Lemma localeCompare_pages (rank : ascii -> N) (p q : Z) (s t : string) :
  digitsOrdered rank ->
  0 <= p -> p < q -> q <= 9999 ->
  localeCompare rank (pageName p s) (pageName q t) = Lt.
Proof.
  intros Hd Hp Hpq Hq.
  destruct (digits_of p ltac:(lia)) as (a3 & a2 & a1 & a0 & A3 & A2 & A1 & A0 & ->).
  destruct (digits_of q ltac:(lia)) as (b3 & b2 & b1 & b0 & B3 & B2 & B1 & B0 & ->).
  rewrite !pageName_digits by assumption.
  unfold numberOf in Hpq. unfold localeCompare, fourDigits.
  rewrite !append_cons. cbn [list_ascii_of_string map lexCompare].
  destruct (lt_eq_lt_dec a3 b3) as [[H3|<-]|H3]; [now rewrite compare_digit| |lia].
  rewrite N.compare_refl.
  destruct (lt_eq_lt_dec a2 b2) as [[H2|<-]|H2]; [now rewrite compare_digit| |lia].
  rewrite N.compare_refl.
  destruct (lt_eq_lt_dec a1 b1) as [[H1|<-]|H1]; [now rewrite compare_digit| |lia].
  rewrite N.compare_refl.
  destruct (lt_eq_lt_dec a0 b0) as [[H0|<-]|H0]; [now rewrite compare_digit|lia|lia].
Qed.

Lemma StronglySorted_map_seq {A : Type} (R : A -> A -> Prop) (f : nat -> A)
    (start count : nat) :
  (forall i j, (start <= i < j)%nat -> (j < start + count)%nat -> R (f i) (f j)) ->
  StronglySorted R (map f (seq start count)).
Proof.
  revert start. induction count as [|count IH]; intros start H; cbn [seq map];
    constructor.
  - apply IH. intros i j Hij Hj. apply H; lia.
  - rewrite List.Forall_forall. intros b Hb. apply in_map_iff in Hb as (j & <- & Hj).
    apply in_seq in Hj. apply H; lia.
Qed.

Lemma StronglySorted_append {A : Type} (R : A -> A -> Prop) (l1 l2 : list A) :
  StronglySorted R l1 -> StronglySorted R l2 ->
  (forall a b, In a l1 -> In b l2 -> R a b) ->
  StronglySorted R (l1 ++ l2).
Proof.
  intros H1 H2 Hcross. induction H1 as [|a l1 Hl1 IH Ha]; [exact H2|].
  cbn [app]. constructor.
  - apply IH. intros c b Hc Hb. apply Hcross; [now right|exact Hb].
  - rewrite List.Forall_forall in *. intros b Hb. apply in_app_or in Hb as [Hb|Hb].
    + now apply Ha.
    + apply Hcross; [now left|exact Hb].
Qed.

Lemma overlap_suffix_before (rank : ascii -> N) (i j : nat) :
  lettersOrdered rank -> (i < j < 26)%nat ->
  nameBefore rank ("_3_" +:+ letterOf i +:+ ".png") ("_3_" +:+ letterOf j +:+ ".png").
Proof.
  intros Hl Hij. unfold nameBefore, localeCompare, letterOf.
  rewrite !append_cons, !append_nil.
  cbn [list_ascii_of_string map lexCompare]. rewrite !N.compare_refl.
  fold (letterChar i) (letterChar j).
  now rewrite (proj2 (N.compare_lt_iff _ _) (Hl i j Hij)).
Qed.

Lemma pageSuffixes_ascending (rank : ascii -> N) (suffixes : list string) :
  lettersOrdered rank -> pageSuffixes suffixes ->
  StronglySorted (nameBefore rank) suffixes.
Proof.
  intros Hl [| | | |count Hcount]; try (repeat constructor).
  - unfold nameBefore, localeCompare.
    cbn [list_ascii_of_string map lexCompare]. rewrite !N.compare_refl.
    pose proof (Hl 0%nat 1%nat ltac:(lia)) as Hab.
    change (letterChar 0) with "a"%char in Hab.
    change (letterChar 1) with "b"%char in Hab.
    now rewrite (proj2 (N.compare_lt_iff _ _) Hab).
  - apply StronglySorted_map_seq. intros i j Hij Hj.
    apply overlap_suffix_before; [exact Hl|lia].
Qed.

Lemma generatedNames_In (name : string) (suffixes : list (list string)) (pageNum : Z) :
  In name (generatedNames pageNum suffixes) ->
  exists q t, pageNum <= q < pageNum + Z.of_nat (length suffixes) /\ name = pageName q t.
Proof.
  revert pageNum. induction suffixes as [|page rest IH]; intros pageNum H;
    cbn [generatedNames] in H; [contradiction|].
  cbn [length]. apply in_app_or in H as [H|H].
  - apply in_map_iff in H as (t & <- & _). exists pageNum, t. split; [lia|reflexivity].
  - destruct (IH _ H) as (q & t & Hq & ->). exists q, t. split; [lia|reflexivity].
Qed.

(** The names of pages numbered up to 9999 are strictly ascending in
    generation order. *)
Lemma generatedNames_ascending (rank : ascii -> N) (suffixes : list (list string))
    (pageNum : Z) :
  digitsOrdered rank -> lettersOrdered rank ->
  Forall pageSuffixes suffixes ->
  0 <= pageNum -> pageNum + Z.of_nat (length suffixes) <= 10000 ->
  StronglySorted (nameBefore rank) (generatedNames pageNum suffixes).
Proof.
  intros Hd Hl Hs. revert pageNum.
  induction Hs as [|page rest Hpage _ IH]; intros pageNum H0 Hmax;
    cbn [generatedNames]; [constructor|].
  cbn [length] in Hmax. apply StronglySorted_append.
  - pose proof (pageSuffixes_ascending rank page Hl Hpage) as Hsorted.
    clear Hpage. induction Hsorted as [|s page Hp IHp Hs]; cbn [map]; constructor.
    + exact IHp.
    + rewrite List.Forall_forall in *. intros b Hb.
      apply in_map_iff in Hb as (t & <- & Ht).
      unfold nameBefore. rewrite localeCompare_same_page. now apply Hs.
  - apply IH; lia.
  - intros a b Ha Hb. apply in_map_iff in Ha as (s & <- & _).
    apply generatedNames_In in Hb as (q & t & Hq & ->).
    apply localeCompare_pages; [exact Hd|lia..].
Qed.

Lemma lexCompare_le_trans (a b c : list N) :
  lexCompare a b <> Gt -> lexCompare b c <> Gt -> lexCompare a c <> Gt.
Proof.
  intros Hab Hbc.
  destruct (lexCompare a b) eqn:Eab; [|clear Hab|contradiction].
  - apply lexCompare_eq in Eab as ->. exact Hbc.
  - destruct (lexCompare b c) eqn:Ebc; [| |contradiction].
    + apply lexCompare_eq in Ebc as <-. rewrite Eab. discriminate.
    + rewrite (lexCompare_trans a b c Eab Ebc). discriminate.
Qed.

(** Sorting by name any arrangement of pages whose names are strictly
    ascending gives the ascending arrangement. *)
Lemma sortBy_name_ascending {A : Type} (rank : ascii -> N) (nameOf : A -> string)
    (l arrival : list A) :
  StronglySorted (nameBefore rank) (map nameOf l) ->
  Permutation arrival l ->
  sortBy (fun a b => localeCompare rank (nameOf a) (nameOf b)) arrival = l.
Proof.
  intros Hsorted Hperm. apply sortBy_ascending.
  - intros a b. apply lexCompare_antisym.
  - intros a b c. apply lexCompare_le_trans.
  - clear Hperm. induction l as [|a l IH]; [constructor|].
    cbn [map] in Hsorted. apply StronglySorted_inv in Hsorted as [Hl Ha].
    constructor; [now apply IH|].
    rewrite List.Forall_forall in *. intros b Hb. apply Ha. now apply in_map.
  - exact Hperm.
Qed.

Lemma overlapPages_names (pageNum rot : Z) (segments : list Segment) (idx : nat) :
  map name (overlapPages pageNum rot segments idx)
  = map (fun i => pageName pageNum ("_3_" +:+ letterOf i +:+ ".png"))
        (seq idx (length segments)).
Proof.
  revert idx. induction segments as [|seg rest IH]; intros idx; [reflexivity|].
  cbn [overlapPages map length seq name]. now rewrite IH.
Qed.

Lemma overlapWorkerPages_pages (pageNum rot : Z) (includePreview : bool)
    (segments : list Segment) (idx : nat) (previewAssigned : bool) :
  map workerPage
      (overlapWorkerPages pageNum rot includePreview segments idx previewAssigned)
  = overlapPages pageNum rot segments idx.
Proof.
  revert idx previewAssigned. induction segments as [|seg rest IH];
    intros idx previewAssigned; [reflexivity|].
  cbn [overlapWorkerPages overlapPages map buildWorkerPage workerPage]. now rewrite IH.
Qed.

(** The page worker makes the pages processLoadedImage makes. *)
Lemma processBitmap_pages (rnd : Q -> Q) (calc : Z -> Z -> list Segment)
    (srcWidth srcHeight pageNum : Z) (options : ConversionOptions)
    (includePreview : bool) :
  map workerPage (processBitmap rnd calc srcWidth srcHeight pageNum options includePreview)
  = processLoadedImage rnd calc srcWidth srcHeight pageNum options.
Proof.
  unfold processBitmap, processLoadedImage.
  destruct (orientation options); [|reflexivity].
  destruct (_ && _); [|reflexivity].
  destruct (String.eqb (splitMode options) "overlap"); [|reflexivity].
  apply overlapWorkerPages_pages.
Qed.

Lemma map_pageName_overlap (pageNum : Z) (count : nat) :
  map (fun i => pageName pageNum ("_3_" +:+ letterOf i +:+ ".png")) (seq 0 count)
  = map (pageName pageNum)
        (map (fun idx => "_3_" +:+ letterOf idx +:+ ".png") (seq 0 count)).
Proof. now rewrite List.map_map. Qed.

Lemma processLoadedImage_suffixes (rnd : Q -> Q) (calc : Z -> Z -> list Segment)
    (imgWidth imgHeight pageNum : Z) (options : ConversionOptions) :
  (forall w h, (length (calc w h) <= 26)%nat) ->
  exists suffixes,
    pageSuffixes suffixes /\
    map name (processLoadedImage rnd calc imgWidth imgHeight pageNum options)
    = map (pageName pageNum) suffixes.
Proof.
  intros Hcalc. unfold processLoadedImage.
  destruct (orientation options).
  - destruct (_ && _).
    + destruct (String.eqb (splitMode options) "overlap").
      * eexists. split; cycle 1.
        -- rewrite overlapPages_names. apply map_pageName_overlap.
        -- apply suffixes_overlap, Hcalc.
      * eexists. split; [apply suffixes_half|reflexivity].
    + eexists. split; [apply suffixes_spread|reflexivity].
  - eexists. split; [apply suffixes_page|reflexivity].
Qed.

Lemma standalonePages_suffixes (calc : Z -> Z -> list Segment)
    (width height pageNum : Z) (splitMode : string) :
  (forall w h, (length (calc w h) <= 26)%nat) ->
  exists suffixes,
    pageSuffixes suffixes /\
    map name (standalonePages calc width height pageNum splitMode)
    = map (pageName pageNum) suffixes.
Proof.
  intros Hcalc. unfold standalonePages.
  destruct (_ && _).
  - destruct (String.eqb splitMode "overlap").
    + eexists. split; cycle 1.
      * rewrite overlapPages_names. apply map_pageName_overlap.
      * apply suffixes_overlap, Hcalc.
    + eexists. split; [apply suffixes_half|reflexivity].
  - eexists. split; [apply suffixes_spread|reflexivity].
Qed.

Lemma pageResultsOf_suffixes (rnd : Q -> Q) (calc : Z -> Z -> list Segment)
    (canvasImage : ProcessedPage -> ImageData.t) (index : nat)
    (options : ConversionOptions) (outcome : PageOutcome) :
  (forall w h, (length (calc w h) <= 26)%nat) ->
  exists suffixes,
    pageSuffixes suffixes /\
    map encodedName (pageResultsOf rnd calc canvasImage index options outcome)
    = map (pageName (Z.of_nat index + 1)) suffixes.
Proof.
  intros Hcalc. unfold pageResultsOf.
  destruct outcome as [srcWidth srcHeight includePreview|imgWidth imgHeight|].
  - destruct (processLoadedImage_suffixes rnd calc srcWidth srcHeight
                (Z.of_nat index + 1) options Hcalc) as (suffixes & Hs & Hn).
    exists suffixes. split; [exact Hs|].
    rewrite <- Hn, <- (processBitmap_pages rnd calc _ _ _ _ includePreview).
    rewrite !List.map_map. reflexivity.
  - destruct (processLoadedImage_suffixes rnd calc imgWidth imgHeight
                (Z.of_nat index + 1) options Hcalc) as (suffixes & Hs & Hn).
    exists suffixes. split; [exact Hs|].
    rewrite <- Hn, List.map_map. reflexivity.
  - exists []. split; [constructor|reflexivity].
Qed.

(** What the loop after the join returns. *)
Lemma collectResults_spec (getOriginalPage : nat -> Z)
    (pageResultsByIndex : list (option (list EncodedPage))) (i : nat)
    (mappingCtx : PageMappingContext) (encodedPages : list EncodedPage) :
  collectResults getOriginalPage pageResultsByIndex i mappingCtx encodedPages
  = (mappingCtx
       ++ imap (fun k slot => (getOriginalPage (i + k)%nat, length (default [] slot)))
               pageResultsByIndex,
     encodedPages ++ concat (map (default []) pageResultsByIndex)).
Proof.
  revert i mappingCtx encodedPages.
  induction pageResultsByIndex as [|slot rest IH]; intros i mappingCtx encodedPages.
  - cbn. now rewrite !app_nil_r.
  - cbn [collectResults]. rewrite IH. unfold addOriginalPage.
    cbn [imap map concat]. rewrite <- !app_assoc. cbn [app].
    rewrite Nat.add_0_r. do 3 f_equal.
    apply imap_ext. intros k slot' _. unfold compose. do 2 f_equal. lia.
Qed.

Lemma batchResults_names (rnd : Q -> Q) (calc : Z -> Z -> list Segment)
    (canvasImage : ProcessedPage -> ImageData.t)
    (batch : list (ConversionOptions * PageOutcome)) (index : nat) :
  (forall w h, (length (calc w h) <= 26)%nat) ->
  exists suffixes,
    Forall pageSuffixes suffixes /\ length suffixes = length batch /\
    map encodedName
        (concat (map (default []) (batchResults rnd calc canvasImage batch index)))
    = generatedNames (Z.of_nat index + 1) suffixes.
Proof.
  intros Hcalc. revert index.
  induction batch as [|[options outcome] rest IH]; intros index.
  - exists []. repeat split. constructor.
  - destruct (IH (S index)) as (suffixes & Hs & Hlen & Hnames).
    destruct (pageResultsOf_suffixes rnd calc canvasImage index options outcome Hcalc)
      as (page & Hpage & Hn).
    exists (page :: suffixes). split; [now constructor|].
    split; [cbn [length]; now rewrite Hlen|].
    cbn [batchResults map concat generatedNames]. rewrite List.map_app.
    cbn [default from_option id]. rewrite Hn, Hnames. do 2 f_equal. lia.
Qed.

Lemma standaloneBatch_names (calc : Z -> Z -> list Segment)
    (images : list (option (Z * Z) * string)) (pageNum : Z) :
  (forall w h, (length (calc w h) <= 26)%nat) ->
  exists suffixes,
    Forall pageSuffixes suffixes /\ length suffixes = length images /\
    map name (standaloneBatch calc images pageNum) = generatedNames pageNum suffixes.
Proof.
  intros Hcalc. revert pageNum.
  induction images as [|[[[width height]|] splitMode] rest IH]; intros pageNum.
  - exists []. repeat split. constructor.
  - destruct (IH (pageNum + 1)) as (suffixes & Hs & Hlen & Hnames).
    destruct (standalonePages_suffixes calc width height pageNum splitMode Hcalc)
      as (page & Hpage & Hn).
    exists (page :: suffixes). split; [now constructor|].
    split; [cbn [length]; now rewrite Hlen|].
    cbn [standaloneBatch generatedNames]. now rewrite List.map_app, Hn, Hnames.
  - destruct (IH (pageNum + 1)) as (suffixes & Hs & Hlen & Hnames).
    exists ([] :: suffixes). split; [constructor; [constructor|exact Hs]|].
    split; [cbn [length]; now rewrite Hlen|].
    cbn [standaloneBatch generatedNames map app]. exact Hnames.
Qed.

Lemma codeUnit_digitsOrdered : digitsOrdered codeUnit.
Proof.
  intros i j Hij. unfold codeUnit, digitChar, ascii_of_nat.
  rewrite !N_ascii_embedding by lia. lia.
Qed.

Lemma codeUnit_lettersOrdered : lettersOrdered codeUnit.
Proof.
  intros i j Hij. unfold codeUnit, letterChar, ascii_of_nat.
  rewrite !N_ascii_embedding by lia. lia.
Qed.

Example sampleBatch_names :
  map encodedName
      (snd (collectResults (fun i => Z.of_nat i + 1)
              (batchResults (fun q => q) threeSegments blankImage sampleBatch 0) 0 [] []))
  = [ "0001_0_spread.png"; "0002_2_a.png"; "0002_2_b.png";
      "0004_3_a.png"; "0004_3_b.png"; "0004_3_c.png"; "0005_0_spread.png" ].
Proof. vm_compute. reflexivity. Qed.

(** C4: the pages of a conversion are sorted by name before the
    container is built, so the page order depends on the names only:
    whatever order the encoded pages of a batch arrive in,
    finalizeConversionResult passes them to the container builder in the
    order of their names, and so does the stand-alone converter.  For
    pages numbered up to 9999 that order is the generation order
    (ascending page number, then segment letter); in particular
    0001_2_a.png, 0001_2_b.png, 0002_0_spread.png sort in that order. *)
Theorem page_order_is_name_order
    (rank : ascii -> N) (rnd : Q -> Q) (calc : Z -> Z -> list Segment)
    (canvasImage : ProcessedPage -> ImageData.t)
    (canvasPixels : ProcessedPage -> Bytes)
    (buildXtcFromXtgPages : list Bytes -> BookMetadata -> Bytes)
    (adjustTocForMapping : list TocEntry -> PageMappingContext -> list TocEntry)
    (getOriginalPage : nat -> Z)
    (batch : list (ConversionOptions * PageOutcome))
    (images : list (option (Z * Z) * string)) :
  digitsOrdered rank -> lettersOrdered rank ->
  (forall w h, (length (calc w h) <= 26)%nat) ->
  Z.of_nat (length batch) <= 9999 ->
  Z.of_nat (length images) <= 9999 ->
  let generated :=
    snd (collectResults getOriginalPage
           (batchResults rnd calc canvasImage batch 0) 0 [] []) in
  let standalone := standaloneBatch calc images 1 in
  (forall arrival, Permutation arrival generated ->
     sortEncodedPages rank arrival = generated /\
     forall outputName mappingCtx metadata sampledPreviews,
       let result :=
         finalizeConversionResult rank buildXtcFromXtgPages adjustTocForMapping
           outputName arrival mappingCtx metadata sampledPreviews in
       pageCount result = length generated /\
       exists metadata',
         resultData result = buildXtcFromXtgPages (map xtg generated) metadata') /\
  (forall arrival, Permutation arrival standalone ->
     standaloneContainer rank canvasPixels arrival = buildXtc canvasPixels standalone) /\
  localeCompare rank "0001_2_a.png" "0001_2_b.png" = Lt /\
  localeCompare rank "0001_2_b.png" "0002_0_spread.png" = Lt /\
  sortBy (localeCompare rank) ["0002_0_spread.png"; "0001_2_b.png"; "0001_2_a.png"]
  = ["0001_2_a.png"; "0001_2_b.png"; "0002_0_spread.png"].
Proof.
  intros Hd Hl Hcalc Hbatch Himages generated standalone.
  assert (Hgen : StronglySorted (nameBefore rank) (map encodedName generated)).
  { unfold generated. rewrite collectResults_spec. cbn [snd app].
    destruct (batchResults_names rnd calc canvasImage batch 0 Hcalc)
      as (suffixes & Hs & Hlen & ->).
    apply generatedNames_ascending; try assumption; lia. }
  assert (Hsta : StronglySorted (nameBefore rank) (map name standalone)).
  { unfold standalone.
    destruct (standaloneBatch_names calc images 1 Hcalc) as (suffixes & Hs & Hlen & ->).
    apply generatedNames_ascending; try assumption; lia. }
  assert (Hex : StronglySorted (nameBefore rank)
                  ["0001_2_a.png"; "0001_2_b.png"; "0002_0_spread.png"]).
  { apply (generatedNames_ascending rank [["_2_a.png"; "_2_b.png"]; ["_0_spread.png"]] 1);
      try assumption; [|lia|cbn [length]; lia].
    repeat constructor. }
  split; [|split; [|split; [|split]]].
  - intros arrival Hperm.
    assert (Hsort : sortEncodedPages rank arrival = generated)
      by now apply sortBy_name_ascending.
    split; [exact Hsort|].
    intros outputName mappingCtx metadata sampledPreviews result.
    unfold result, finalizeConversionResult. cbn [pageCount resultData].
    rewrite Hsort. split; [reflexivity|]. eexists. reflexivity.
  - intros arrival Hperm. unfold standaloneContainer, sortProcessedPages.
    now rewrite (sortBy_name_ascending rank name standalone arrival Hsta Hperm).
  - apply StronglySorted_inv in Hex as [_ Hex].
    apply Forall_inv in Hex. exact Hex.
  - apply StronglySorted_inv in Hex as [Hex _].
    apply StronglySorted_inv in Hex as [_ Hex].
    apply Forall_inv in Hex. exact Hex.
  - apply (sortBy_name_ascending rank (fun s : string => s)).
    + exact Hex.
    + apply Permutation_rev.
Qed.

Lemma page_order_is_name_order_witness :
  let generated :=
    snd (collectResults (fun i => Z.of_nat i + 1)
           (batchResults (fun q => q) threeSegments blankImage sampleBatch 0) 0 [] []) in
  let standalone := standaloneBatch threeSegments sampleImages 1 in
  (forall arrival, Permutation arrival generated ->
     sortEncodedPages codeUnit arrival = generated /\
     forall outputName mappingCtx metadata sampledPreviews,
       let result :=
         finalizeConversionResult codeUnit concatPages keepToc
           outputName arrival mappingCtx metadata sampledPreviews in
       pageCount result = length generated /\
       exists metadata',
         resultData result = concatPages (map xtg generated) metadata') /\
  (forall arrival, Permutation arrival standalone ->
     standaloneContainer codeUnit whitePixels arrival = buildXtc whitePixels standalone) /\
  localeCompare codeUnit "0001_2_a.png" "0001_2_b.png" = Lt /\
  localeCompare codeUnit "0001_2_b.png" "0002_0_spread.png" = Lt /\
  sortBy (localeCompare codeUnit) ["0002_0_spread.png"; "0001_2_b.png"; "0001_2_a.png"]
  = ["0001_2_a.png"; "0001_2_b.png"; "0002_0_spread.png"].
Proof.
  apply (page_order_is_name_order codeUnit (fun q => q) threeSegments blankImage
           whitePixels concatPages keepToc (fun i => Z.of_nat i + 1)
           sampleBatch sampleImages).
  - exact codeUnit_digitsOrdered.
  - exact codeUnit_lettersOrdered.
  - intros w h. simpl. lia.
  - simpl. lia.
  - simpl. lia.
Defined.





(** ** The page mapping after the join *)

Lemma length_foldl_storeResults (completions : list (nat * list EncodedPage))
    (init : list (option (list EncodedPage))) :
  length (foldl storeResults init completions) = length init.
Proof.
  revert init. induction completions as [|c rest IH]; intros init; [reflexivity|].
  cbn [foldl]. rewrite IH. apply length_insert.
Qed.

Lemma foldl_storeResults_other (completions : list (nat * list EncodedPage))
    (init : list (option (list EncodedPage))) (i : nat) :
  ~ In i (map fst completions) ->
  foldl storeResults init completions !! i = init !! i.
Proof.
  revert init. induction completions as [|c rest IH]; intros init Hi; [reflexivity|].
  cbn [foldl map In] in *. rewrite IH by tauto.
  apply list_lookup_insert_ne. tauto.
Qed.

Lemma foldl_storeResults_stored (completions : list (nat * list EncodedPage))
    (init : list (option (list EncodedPage))) (i : nat) (pages : list EncodedPage) :
  NoDup (map fst completions) ->
  In (i, pages) completions -> (i < length init)%nat ->
  foldl storeResults init completions !! i = Some (Some pages).
Proof.
  revert init. induction completions as [|c rest IH]; intros init Hnd Hin Hi;
    [contradiction|].
  cbn [foldl map] in *. apply NoDup_cons in Hnd as [Hfresh Hnd].
  destruct Hin as [->|Hin].
  - rewrite foldl_storeResults_other by (rewrite <- list_elem_of_In; exact Hfresh).
    now apply list_lookup_insert_eq.
  - apply IH; [exact Hnd|exact Hin|]. unfold storeResults. now rewrite length_insert.
Qed.

(** Stores to different entries commute: the array does not depend on
    the order of completion. *)
Lemma foldl_storeResults_Permutation (l l' : list (nat * list EncodedPage)) :
  Permutation l l' -> NoDup (map fst l) ->
  forall init, foldl storeResults init l = foldl storeResults init l'.
Proof.
  induction 1 as [|c l l' Hperm IH|c d l|l l' l'' H1 IH1 H2 IH2]; intros Hnd init.
  - reflexivity.
  - cbn [foldl]. apply IH. cbn [map] in Hnd. now apply NoDup_cons in Hnd as [_ Hnd].
  - cbn [foldl]. f_equal. unfold storeResults. apply list_insert_insert_ne.
    cbn [map] in Hnd. apply NoDup_cons in Hnd as [Hd _].
    rewrite list_elem_of_In in Hd. cbn [In] in Hd. intros E. apply Hd. now left.
  - rewrite IH1 by exact Hnd. apply IH2.
    apply (NoDup_Permutation_proper _ _ (Permutation_map fst H1)). exact Hnd.
Qed.

(** C7: after the join the mapping context holds exactly one pair per
    source index, in ascending index order: the pair of index [i] is the
    original page number of [i] with the number of output pages stored
    for [i], 0 when the page produced no results (an empty result or
    none stored).  It is the same for every order in which the pages
    completed. *)
Theorem mapping_in_source_order (getOriginalPage : nat -> Z) (totalPages : nat)
    (completions : list (nat * list EncodedPage)) :
  NoDup (map fst completions) ->
  (forall c, In c completions -> (fst c < totalPages)%nat) ->
  let mappingCtx := fst (gatherBatch getOriginalPage totalPages completions) in
  length mappingCtx = totalPages /\
  (forall i, (i < totalPages)%nat ->
     exists count,
       mappingCtx !! i = Some (getOriginalPage i, count) /\
       (forall pages, In (i, pages) completions -> count = length pages) /\
       (~ In i (map fst completions) -> count = 0%nat)) /\
  (forall completions', Permutation completions completions' ->
     gatherBatch getOriginalPage totalPages completions'
     = gatherBatch getOriginalPage totalPages completions).
Proof.
  intros Hnd Hbound mappingCtx.
  unfold mappingCtx, gatherBatch. rewrite collectResults_spec. cbn [fst app].
  assert (Hlen : length (resultsAfter totalPages completions) = totalPages).
  { unfold resultsAfter. now rewrite length_foldl_storeResults, length_replicate. }
  split; [now rewrite length_imap|]. split.
  - intros i Hi.
    destruct (lookup_lt_is_Some_2 (resultsAfter totalPages completions) i
                ltac:(lia)) as [slot Hslot].
    exists (length (default [] slot)). split; [|split].
    + rewrite list_lookup_imap, Hslot. reflexivity.
    + intros pages Hin.
      unfold resultsAfter in Hslot.
      rewrite (foldl_storeResults_stored completions _ i pages Hnd Hin) in Hslot
        by (rewrite length_replicate; exact Hi).
      now injection Hslot as <-.
    + intros Hnot. unfold resultsAfter in Hslot.
      rewrite (foldl_storeResults_other completions _ i Hnot) in Hslot.
      rewrite lookup_replicate_2 in Hslot by exact Hi. now injection Hslot as <-.
  - intros completions' Hperm. rewrite collectResults_spec. unfold resultsAfter.
    now rewrite (foldl_storeResults_Permutation completions completions' Hperm Hnd).
Qed.

Lemma mapping_in_source_order_witness :
  let mappingCtx := fst (gatherBatch (fun i => Z.of_nat i + 1) 4 sampleCompletions) in
  length mappingCtx = 4%nat /\
  (forall i, (i < 4)%nat ->
     exists count,
       mappingCtx !! i = Some (Z.of_nat i + 1, count) /\
       (forall pages, In (i, pages) sampleCompletions -> count = length pages) /\
       (~ In i (map fst sampleCompletions) -> count = 0%nat)) /\
  (forall completions', Permutation sampleCompletions completions' ->
     gatherBatch (fun i => Z.of_nat i + 1) 4 completions'
     = gatherBatch (fun i => Z.of_nat i + 1) 4 sampleCompletions).
Proof.
  apply (mapping_in_source_order (fun i => Z.of_nat i + 1) 4 sampleCompletions).
  - vm_compute. repeat constructor; intros H; repeat (apply elem_of_cons in H as [H|H]; [discriminate|]); inversion H.
  - intros c Hc. simpl in Hc. intuition (subst; simpl; lia).
Defined.

Example sampleCompletions_mapping :
  fst (gatherBatch (fun i => Z.of_nat i + 1) 4 sampleCompletions)
  = [(1, 1%nat); (2, 0%nat); (3, 2%nat); (4, 1%nat)].
Proof. vm_compute. reflexivity. Qed.

(** ** The worker pool *)

Lemma settle_pending (promises : gmap nat Settlement) (jobId : nat) (outcome : Settlement) :
  promises !! jobId = None -> settle promises jobId outcome !! jobId = Some outcome.
Proof. intros H. unfold settle. rewrite H. apply lookup_insert_eq. Qed.

Lemma settle_other (promises : gmap nat Settlement) (jobId k : nat) (outcome : Settlement) :
  k <> jobId -> settle promises jobId outcome !! k = promises !! k.
Proof.
  intros H. unfold settle. destruct (promises !! jobId); [reflexivity|].
  now apply lookup_insert_ne.
Qed.

Lemma settle_settled (promises : gmap nat Settlement) (jobId k : nat)
    (outcome earlier : Settlement) :
  promises !! k = Some earlier -> settle promises jobId outcome !! k = Some earlier.
Proof.
  intros H. destruct (decide (k = jobId)) as [->|Hne].
  - unfold settle. now rewrite H.
  - now rewrite settle_other.
Qed.

Lemma settle_None (promises : gmap nat Settlement) (jobId k : nat) (outcome : Settlement) :
  settle promises jobId outcome !! k = None <-> promises !! k = None /\ k <> jobId.
Proof.
  destruct (decide (k = jobId)) as [->|Hne].
  - split; [|tauto]. unfold settle. destruct (promises !! jobId) eqn:E.
    + rewrite E. discriminate.
    + rewrite lookup_insert_eq. discriminate.
  - rewrite settle_other by exact Hne. tauto.
Qed.

Lemma pumpSlots_spec (slots : list WorkerSlot) (queue : list QueueJob.t) :
  Forall idleSlot slots ->
  map QueueJob.id (snd (pumpSlots slots queue)) ++ currentIds (fst (pumpSlots slots queue))
    ≡ₚ map QueueJob.id queue ++ currentIds slots /\
  Forall idleSlot (fst (pumpSlots slots queue)) /\
  (Forall workingSlot slots -> Forall workingSlot (fst (pumpSlots slots queue))) /\
  (snd (pumpSlots slots queue) <> [] ->
   Forall (fun slot => busy slot = true) (fst (pumpSlots slots queue))) /\
  length (fst (pumpSlots slots queue)) = length slots.
Proof.
  intros Hidle. revert queue.
  induction Hidle as [|slot rest Hslot Hrest IH]; intros queue; cbn [pumpSlots].
  - cbn [fst snd currentIds length]. repeat split; try constructor. reflexivity.
  - destruct (busy slot) eqn:Hbusy.
    + specialize (IH queue). destruct (pumpSlots rest queue) as [rest' queue'].
      cbn [fst snd] in *. destruct IH as (Hperm & Hid & Hwork & Hfull & Hlen).
      repeat split.
      * cbn [currentIds]. destruct (currentJob slot).
        -- rewrite <- !Permutation_middle. now rewrite Hperm.
        -- exact Hperm.
      * now constructor.
      * intros Hw. apply Forall_cons in Hw as [Hw1 Hw2]. constructor; auto.
      * intros Hq. constructor; auto.
      * cbn [length]. now rewrite Hlen.
    + assert (Hnone : currentJob slot = None) by now apply Hslot.
      destruct queue as [|job queue].
      * cbn [fst snd]. repeat split; try reflexivity; try (now constructor); tauto.
      * specialize (IH queue). destruct (pumpSlots rest queue) as [rest' queue'].
        cbn [fst snd] in *. destruct IH as (Hperm & Hid & Hwork & Hfull & Hlen).
        repeat split.
        -- cbn [currentIds currentJob map app]. rewrite Hnone.
           rewrite <- Permutation_middle. now rewrite Hperm.
        -- constructor; [|exact Hid]. intros Hb. discriminate.
        -- intros Hw. apply Forall_cons in Hw as [_ Hw2].
           constructor; [|auto]. intros _. discriminate.
        -- intros Hq. constructor; [reflexivity|auto].
        -- cbn [length]. now rewrite Hlen.
Qed.

Lemma destroySlots_spec (slots : list WorkerSlot) (promises : gmap nat Settlement) :
  Forall (fun slot => terminated slot = true /\ currentJob slot = None)
         (fst (destroySlots slots promises)) /\
  length (fst (destroySlots slots promises)) = length slots /\
  (forall k earlier, promises !! k = Some earlier ->
     snd (destroySlots slots promises) !! k = Some earlier) /\
  (forall k, k ∈ currentIds slots -> promises !! k = None ->
     snd (destroySlots slots promises) !! k = Some (Rejected "Worker pool destroyed")) /\
  (forall k, k ∉ currentIds slots -> snd (destroySlots slots promises) !! k = promises !! k).
Proof.
  revert promises. induction slots as [|slot rest IH]; intros promises;
    cbn [destroySlots].
  - cbn [fst snd currentIds length]. repeat split; try constructor; try tauto.
    intros k Hk. now apply elem_of_nil in Hk.
  - match goal with
    | |- context [destroySlots rest ?m] => specialize (IH m); set (promises1 := m) in *
    end.
    destruct (destroySlots rest promises1) as [rest' promises'].
    cbn [fst snd] in *. destruct IH as (Hterm & Hlen & Hkeep & Hrej & Hsame).
    repeat split.
    + constructor; [split; reflexivity|exact Hterm].
    + cbn [length]. now rewrite Hlen.
    + intros k earlier Hk. apply Hkeep. unfold promises1.
      destruct (currentJob slot); [now apply settle_settled|exact Hk].
    + intros k Hk Hpending. cbn [currentIds] in Hk. unfold promises1 in *.
      destruct (currentJob slot) as [job|]; [|now apply Hrej].
      destruct (decide (k = QueueJob.id job)) as [->|Hne].
      * apply Hkeep. now apply settle_pending.
      * apply elem_of_cons in Hk as [Hk|Hk]; [contradiction|].
        apply Hrej; [exact Hk|]. now rewrite settle_other.
    + intros k Hk. cbn [currentIds] in Hk. unfold promises1 in *.
      destruct (currentJob slot) as [job|]; [|now apply Hsame].
      apply not_elem_of_cons in Hk as [Hne Hk].
      rewrite Hsame by exact Hk. now apply settle_other.
Qed.

Lemma currentIds_cleared (slots : list WorkerSlot) :
  Forall (fun slot => terminated slot = true /\ currentJob slot = None) slots ->
  currentIds slots = [].
Proof.
  induction 1 as [|slot rest [_ Hnone] _ IH]; [reflexivity|].
  cbn [currentIds]. now rewrite Hnone.
Qed.

Lemma rejectQueue_spec (queue : list QueueJob.t) (promises : gmap nat Settlement) :
  (forall k earlier, promises !! k = Some earlier ->
     rejectQueue queue promises !! k = Some earlier) /\
  (forall k, k ∈ map QueueJob.id queue -> promises !! k = None ->
     rejectQueue queue promises !! k = Some (Rejected "Worker pool destroyed")) /\
  (forall k, k ∉ map QueueJob.id queue -> rejectQueue queue promises !! k = promises !! k).
Proof.
  revert promises. induction queue as [|job rest IH]; intros promises;
    cbn [rejectQueue map].
  - repeat split; try tauto. intros k Hk. now apply elem_of_nil in Hk.
  - destruct (IH (settle promises (QueueJob.id job) (Rejected "Worker pool destroyed")))
      as (Hkeep & Hrej & Hsame).
    repeat split.
    + intros k earlier Hk. apply Hkeep. now apply settle_settled.
    + intros k Hk Hpending.
      destruct (decide (k = QueueJob.id job)) as [->|Hne].
      * apply Hkeep. now apply settle_pending.
      * apply elem_of_cons in Hk as [Hk|Hk]; [contradiction|].
        apply Hrej; [exact Hk|]. now rewrite settle_other.
    + intros k Hk. apply not_elem_of_cons in Hk as [Hne Hk].
      rewrite Hsame by exact Hk. now apply settle_other.
Qed.

Lemma currentIds_replicate_idle (poolSize : nat) :
  currentIds (replicate poolSize {| terminated := false; busy := false; currentJob := None |})
  = [].
Proof. induction poolSize as [|n IH]; [reflexivity|]. exact IH. Qed.

Lemma newPool_invariant (poolSize : nat) :
  poolInvariant (newPool poolSize) /\ poolPumped (newPool poolSize).
Proof.
  split; [constructor|]; unfold heldIds; cbn [newPool slots queue nextJobId isDestroyed
                                              promises map app].
  - rewrite currentIds_replicate_idle. constructor.
  - intros j. rewrite currentIds_replicate_idle. split.
    + intros H. now apply elem_of_nil in H.
    + intros [H _]. lia.
  - intros j outcome H. now rewrite lookup_empty in H.
  - apply Forall_replicate. intros _. reflexivity.
  - intros _. apply Forall_replicate. intros H. discriminate.
  - discriminate.
  - lia.
  - intros H. contradiction.
Qed.

Lemma heldIds_nil_queue (pool : ConvertWorkerPool) : heldIds pool = [] -> queue pool = [].
Proof.
  unfold heldIds. intros H. apply app_eq_nil in H as [H _].
  destruct (queue pool); [reflexivity|discriminate].
Qed.

Lemma pump_invariant (pool : ConvertWorkerPool) :
  poolInvariant pool -> poolInvariant (pump pool) /\ poolPumped (pump pool).
Proof.
  intros Inv. unfold pump. destruct (isDestroyed pool) eqn:Hd.
  - split; [exact Inv|]. intros Hq. exfalso. apply Hq.
    apply heldIds_nil_queue. now apply (inv_destroyed pool Inv).
  - destruct (pumpSlots_spec (slots pool) (queue pool) (inv_idle pool Inv))
      as (Hperm & Hid & Hwork & Hfull & Hlen).
    destruct (pumpSlots (slots pool) (queue pool)) as [slots' queue'].
    cbn [fst snd] in *. split; [constructor|]; unfold heldIds in *;
      cbn [slots queue nextJobId isDestroyed promises].
    + rewrite Hperm. apply (inv_nodup pool Inv).
    + intros j. rewrite Hperm. apply (inv_held pool Inv).
    + apply (inv_range pool Inv).
    + exact Hid.
    + intros _. apply Hwork. now apply (inv_working pool Inv).
    + intros H. congruence.
    + apply (inv_next pool Inv).
    + exact Hfull.
Qed.

Lemma processPage_invariant (pool : ConvertWorkerPool) (pageNum : Z) (blob : nat)
    (options : ConversionOptions) (includePreview : bool) :
  poolInvariant pool -> poolPumped pool ->
  poolInvariant (fst (processPage pool pageNum blob options includePreview)) /\
  poolPumped (fst (processPage pool pageNum blob options includePreview)).
Proof.
  intros Inv Hp. unfold processPage. destruct (isDestroyed pool) eqn:Hd;
    [split; assumption|].
  cbn [fst]. apply pump_invariant.
  assert (Hfresh : nextJobId pool ∉ heldIds pool).
  { intros H. apply (inv_held pool Inv) in H. lia. }
  assert (Hperm : map QueueJob.id (queue pool ++ [QueueJob.mk (nextJobId pool) pageNum blob
                                                    options includePreview])
                    ++ currentIds (slots pool)
                  ≡ₚ nextJobId pool :: heldIds pool).
  { unfold heldIds. rewrite List.map_app. cbn [map QueueJob.id].
    rewrite <- app_assoc. cbn [app]. now rewrite <- Permutation_middle. }
  constructor; unfold heldIds; cbn [slots queue nextJobId isDestroyed promises].
  - rewrite Hperm. apply NoDup_cons. split; [exact Hfresh|apply (inv_nodup pool Inv)].
  - intros j. rewrite Hperm, elem_of_cons, (inv_held pool Inv). split.
    + intros [->|[Hr Hn]].
      * split; [pose proof (inv_next pool Inv); lia|].
        destruct (promises pool !! nextJobId pool) eqn:E; [|reflexivity].
        apply (inv_range pool Inv) in E. lia.
      * split; [lia|exact Hn].
    + intros [Hr Hn]. destruct (decide (j = nextJobId pool)); [now left|].
      right. split; [lia|exact Hn].
  - intros j outcome H. apply (inv_range pool Inv) in H. lia.
  - apply (inv_idle pool Inv).
  - intros _. now apply (inv_working pool Inv).
  - intros H. congruence.
  - pose proof (inv_next pool Inv). lia.
Qed.

Lemma currentIds_insert (slots : list WorkerSlot) (i : nat) (slot slot' : WorkerSlot) :
  slots !! i = Some slot -> currentJob slot' = None ->
  currentIds slots
    ≡ₚ match currentJob slot with
       | Some job => [QueueJob.id job]
       | None => []
       end ++ currentIds (<[i := slot']> slots).
Proof.
  intros Hi Hnone. revert i Hi.
  induction slots as [|first rest IH]; intros i Hi; [discriminate|].
  destruct i as [|i]; cbn [currentIds] in *.
  - injection Hi as ->. cbn. rewrite Hnone. now destruct (currentJob slot).
  - specialize (IH i Hi). cbn [insert list_insert currentIds].
    change (list_insert i slot' rest) with (<[i := slot']> rest).
    destruct (currentJob first); [|exact IH].
    rewrite IH. now rewrite Permutation_middle.
Qed.

Lemma release_invariant (pool : ConvertWorkerPool) (i : nat) (slot slot' : WorkerSlot)
    (job : QueueJob.t) (outcome : Settlement) :
  poolInvariant pool ->
  slots pool !! i = Some slot -> currentJob slot = Some job ->
  currentJob slot' = None -> busy slot' = false ->
  poolInvariant
    {| slots := <[i := slot']> (slots pool); queue := queue pool;
       nextJobId := nextJobId pool; isDestroyed := isDestroyed pool;
       promises := settle (promises pool) (QueueJob.id job) outcome |}.
Proof.
  intros Inv Hi Hjob Hnone Hbusy.
  pose proof (currentIds_insert (slots pool) i slot slot' Hi Hnone) as Hperm.
  rewrite Hjob in Hperm. cbn [app] in Hperm.
  assert (Hheld : heldIds pool
                  ≡ₚ QueueJob.id job
                     :: (map QueueJob.id (queue pool) ++ currentIds (<[i := slot']> (slots pool)))).
  { unfold heldIds. rewrite Hperm. now rewrite <- Permutation_middle. }
  pose proof (inv_nodup pool Inv) as Hnd. rewrite Hheld in Hnd.
  apply NoDup_cons in Hnd as [Hfresh Hnd].
  assert (Hin : QueueJob.id job ∈ heldIds pool) by (rewrite Hheld; now left).
  constructor; unfold heldIds; cbn [slots queue nextJobId isDestroyed promises].
  - exact Hnd.
  - intros k. split.
    + intros Hk.
      assert (Hk' : k ∈ heldIds pool) by (rewrite Hheld; now right).
      apply (inv_held pool Inv) in Hk' as [Hr Hn]. split; [exact Hr|].
      apply settle_None. split; [exact Hn|]. intros ->. contradiction.
    + intros [Hr Hs]. apply settle_None in Hs as [Hn Hne].
      assert (Hk' : k ∈ heldIds pool) by (apply (inv_held pool Inv); tauto).
      rewrite Hheld in Hk'. apply elem_of_cons in Hk' as [->|Hk']; [contradiction|exact Hk'].
  - intros k o Hk. destruct (decide (k = QueueJob.id job)) as [->|Hne].
    + now apply (inv_held pool Inv) in Hin.
    + rewrite settle_other in Hk by exact Hne. now apply (inv_range pool Inv) in Hk.
  - apply Forall_insert; [apply (inv_idle pool Inv)|]. intros _. exact Hnone.
  - intros Hd. apply Forall_insert; [now apply (inv_working pool Inv)|].
    intros Hb. congruence.
  - intros Hd. apply (inv_destroyed pool Inv) in Hd. rewrite Hd in Hin.
    now apply elem_of_nil in Hin.
  - apply (inv_next pool Inv).
Qed.

Lemma reset_invariant (pool : ConvertWorkerPool) (i : nat) (slot slot' : WorkerSlot) :
  poolInvariant pool ->
  slots pool !! i = Some slot -> currentJob slot = None ->
  currentJob slot' = None -> busy slot' = false ->
  poolInvariant
    {| slots := <[i := slot']> (slots pool); queue := queue pool;
       nextJobId := nextJobId pool; isDestroyed := isDestroyed pool;
       promises := promises pool |}.
Proof.
  intros Inv Hi Hjob Hnone Hbusy.
  pose proof (currentIds_insert (slots pool) i slot slot' Hi Hnone) as Hperm.
  rewrite Hjob in Hperm. cbn [app] in Hperm.
  assert (Hheld : heldIds pool
                  ≡ₚ map QueueJob.id (queue pool) ++ currentIds (<[i := slot']> (slots pool))).
  { unfold heldIds. now rewrite Hperm. }
  constructor; unfold heldIds; cbn [slots queue nextJobId isDestroyed promises].
  - rewrite <- Hheld. apply (inv_nodup pool Inv).
  - intros k. rewrite <- Hheld. apply (inv_held pool Inv).
  - apply (inv_range pool Inv).
  - apply Forall_insert; [apply (inv_idle pool Inv)|]. intros _. exact Hnone.
  - intros Hd. apply Forall_insert; [now apply (inv_working pool Inv)|].
    intros Hb. congruence.
  - intros Hd. apply (inv_destroyed pool Inv) in Hd. rewrite Hd in Hheld.
    now apply Permutation_nil in Hheld.
  - apply (inv_next pool Inv).
Qed.

Lemma onmessage_invariant (pool : ConvertWorkerPool) (slotIndex : nat)
    (message : WorkerResponse) :
  poolInvariant pool -> poolPumped pool ->
  poolInvariant (onmessage pool slotIndex message) /\
  poolPumped (onmessage pool slotIndex message).
Proof.
  intros Inv Hp. unfold onmessage.
  destruct (slots pool !! slotIndex) as [slot|] eqn:Hslot; [|now split].
  destruct (currentJob slot) as [job|] eqn:Hjob; [|now split].
  destruct (negb (QueueJob.id job =? responseJobId message)%nat); [now split|].
  apply pump_invariant.
  destruct (truthy (responseError message));
    now apply (release_invariant pool slotIndex slot).
Qed.

Lemma onerror_invariant (pool : ConvertWorkerPool) (slotIndex : nat)
    (eventMessage : string) :
  poolInvariant pool -> poolPumped pool ->
  poolInvariant (onerror pool slotIndex eventMessage) /\
  poolPumped (onerror pool slotIndex eventMessage).
Proof.
  intros Inv Hp. unfold onerror.
  destruct (slots pool !! slotIndex) as [slot|] eqn:Hslot; [|now split].
  apply pump_invariant.
  destruct (currentJob slot) as [job|] eqn:Hjob.
  - now apply (release_invariant pool slotIndex slot).
  - now apply (reset_invariant pool slotIndex slot).
Qed.

(** What [destroy] does to a pool that is not destroyed. *)
Lemma destroy_spec (pool : ConvertWorkerPool) :
  isDestroyed pool = false ->
  let destroyed := destroy pool in
  Forall (fun slot => terminated slot = true /\ currentJob slot = None) (slots destroyed) /\
  length (slots destroyed) = length (slots pool) /\
  queue destroyed = [] /\
  isDestroyed destroyed = true /\
  nextJobId destroyed = nextJobId pool /\
  (forall k earlier, promises pool !! k = Some earlier ->
     promises destroyed !! k = Some earlier) /\
  (forall k, k ∈ heldIds pool -> promises pool !! k = None ->
     promises destroyed !! k = Some (Rejected "Worker pool destroyed")) /\
  (forall k, k ∉ heldIds pool -> promises destroyed !! k = promises pool !! k).
Proof.
  intros Hd. unfold destroy. rewrite Hd.
  destruct (destroySlots_spec (slots pool) (promises pool))
    as (Hterm & Hlen & Hkeep & Hrej & Hsame).
  destruct (destroySlots (slots pool) (promises pool)) as [slots' promises'].
  cbn [fst snd] in *. cbv zeta. cbn [slots queue nextJobId isDestroyed promises].
  destruct (rejectQueue_spec (queue pool) promises') as (Hkeep2 & Hrej2 & Hsame2).
  repeat split; try assumption.
  - intros k earlier Hk. now apply Hkeep2, Hkeep.
  - intros k Hk Hpending. unfold heldIds in Hk.
    destruct (decide (k ∈ currentIds (slots pool))) as [Hc|Hc].
    + apply Hkeep2. now apply Hrej.
    + apply elem_of_app in Hk as [Hk|Hk]; [|contradiction].
      apply Hrej2; [exact Hk|]. now rewrite Hsame.
  - intros k Hk. unfold heldIds in Hk. apply not_elem_of_app in Hk as [Hq Hc].
    now rewrite Hsame2, Hsame.
Qed.

Lemma destroy_invariant (pool : ConvertWorkerPool) :
  poolInvariant pool -> poolInvariant (destroy pool) /\ poolPumped (destroy pool).
Proof.
  intros Inv. destruct (isDestroyed pool) eqn:Hd.
  - unfold destroy. rewrite Hd. split; [exact Inv|]. intros Hq. exfalso. apply Hq.
    apply heldIds_nil_queue. now apply (inv_destroyed pool Inv).
  - destruct (destroy_spec pool Hd)
      as (Hterm & Hlen & Hq & Hdes & Hnext & Hkeep & Hrej & Hsame).
    assert (Hheld : heldIds (destroy pool) = []).
    { unfold heldIds. rewrite Hq. cbn [map app]. now apply currentIds_cleared. }
    split; [constructor|].
    + rewrite Hheld. constructor.
    + intros k. rewrite Hheld, Hnext. split.
      * intros H. now apply elem_of_nil in H.
      * intros [Hr Hn]. exfalso.
        destruct (promises pool !! k) as [earlier|] eqn:E.
        -- rewrite (Hkeep k earlier E) in Hn. discriminate.
        -- assert (Hk : k ∈ heldIds pool) by (apply (inv_held pool Inv); tauto).
           rewrite (Hrej k Hk E) in Hn. discriminate.
    + intros k outcome Hk. rewrite Hnext.
      destruct (decide (k ∈ heldIds pool)) as [Hin|Hout].
      * now apply (inv_held pool Inv) in Hin.
      * rewrite (Hsame k Hout) in Hk. now apply (inv_range pool Inv) in Hk.
    + eapply Forall_impl; [exact Hterm|]. intros slot [_ Hnone] _. exact Hnone.
    + intros H. congruence.
    + intros _. exact Hheld.
    + rewrite Hnext. apply (inv_next pool Inv).
    + intros H. now rewrite Hq in H.
Qed.

Lemma applyCall_invariant (pool : ConvertWorkerPool) (call : PoolCall) :
  poolInvariant pool -> poolPumped pool ->
  poolInvariant (applyCall pool call) /\ poolPumped (applyCall pool call).
Proof.
  intros Inv Hp. destruct call; cbn [applyCall].
  - now apply processPage_invariant.
  - now apply onmessage_invariant.
  - now apply onerror_invariant.
  - now apply destroy_invariant.
Qed.

Lemma poolAfter_invariant (poolSize : nat) (calls : list PoolCall) :
  poolInvariant (poolAfter poolSize calls) /\ poolPumped (poolAfter poolSize calls).
Proof.
  unfold poolAfter. induction calls as [|call calls IH] using rev_ind.
  - apply newPool_invariant.
  - rewrite foldl_snoc. destruct IH as [Inv Hp]. now apply applyCall_invariant.
Qed.

Lemma currentIds_nil (slots : list WorkerSlot) :
  currentIds slots = [] -> Forall (fun slot => currentJob slot = None) slots.
Proof.
  induction slots as [|slot rest IH]; intros H; [constructor|].
  cbn [currentIds] in H. destruct (currentJob slot) eqn:E; [discriminate|].
  constructor; [exact E|now apply IH].
Qed.

Lemma length_pumpSlots (slots : list WorkerSlot) (queue : list QueueJob.t) :
  length (fst (pumpSlots slots queue)) = length slots /\
  (Forall (fun slot => terminated slot = true) slots ->
   Forall (fun slot => terminated slot = true) (fst (pumpSlots slots queue))).
Proof.
  revert queue. induction slots as [|slot rest IH]; intros queue; cbn [pumpSlots].
  - split; [reflexivity|tauto].
  - destruct (busy slot).
    + specialize (IH queue). destruct (pumpSlots rest queue) as [rest' queue'].
      cbn [fst] in *. destruct IH as [Hlen Hterm]. split; [cbn [length]; now rewrite Hlen|].
      intros H. apply Forall_cons in H as [H1 H2]. constructor; auto.
    + destruct queue as [|job queue]; [split; [reflexivity|tauto]|].
      specialize (IH queue). destruct (pumpSlots rest queue) as [rest' queue'].
      cbn [fst] in *. destruct IH as [Hlen Hterm]. split; [cbn [length]; now rewrite Hlen|].
      intros H. apply Forall_cons in H as [H1 H2]. constructor; auto.
Qed.

Lemma length_slots_pump (pool : ConvertWorkerPool) :
  length (slots (pump pool)) = length (slots pool) /\
  isDestroyed (pump pool) = isDestroyed pool.
Proof.
  unfold pump. destruct (isDestroyed pool) eqn:E; [now split|].
  pose proof (length_pumpSlots (slots pool) (queue pool)) as [Hlen _].
  destruct (pumpSlots (slots pool) (queue pool)) as [slots' queue']. now split.
Qed.

(** The pool keeps its lanes, and the workers of a destroyed pool are
    terminated. *)
Lemma poolAfter_shape (poolSize : nat) (calls : list PoolCall) :
  length (slots (poolAfter poolSize calls)) = poolSize /\
  (isDestroyed (poolAfter poolSize calls) = true ->
   Forall (fun slot => terminated slot = true) (slots (poolAfter poolSize calls))).
Proof.
  unfold poolAfter. induction calls as [|call calls IH] using rev_ind.
  - split; [apply length_replicate|discriminate].
  - rewrite foldl_snoc. fold (poolAfter poolSize calls) in *.
    pose proof (poolAfter_invariant poolSize calls) as [Inv _].
    set (pool := poolAfter poolSize calls) in *. destruct IH as [Hlen Hterm].
    destruct call as [pageNum blob options includePreview|slotIndex message
                      |slotIndex eventMessage|]; cbn [applyCall].
    + unfold processPage. destruct (isDestroyed pool) eqn:Hd;
        [cbn [fst]; split; [exact Hlen|intros _; now apply Hterm]|].
      cbn [fst].
      match goal with |- context [pump ?p] => destruct (length_slots_pump p) as [H1 H2] end.
      split; [now rewrite H1|]. rewrite H2. cbn [isDestroyed]. congruence.
    + unfold onmessage.
      destruct (slots pool !! slotIndex) as [slot|] eqn:Hslot; [|now split].
      destruct (currentJob slot) as [job|] eqn:Hjob; [|now split].
      destruct (negb (QueueJob.id job =? responseJobId message)%nat); [now split|].
      match goal with |- context [pump ?p] => destruct (length_slots_pump p) as [H1 H2] end.
      split.
      * rewrite H1. cbn [slots]. now rewrite length_insert.
      * rewrite H2. cbn [isDestroyed]. intros Hd. exfalso.
        apply (inv_destroyed pool Inv) in Hd. unfold heldIds in Hd.
        apply app_eq_nil in Hd as [_ Hd]. apply currentIds_nil in Hd.
        rewrite Forall_lookup in Hd. specialize (Hd slotIndex slot Hslot). congruence.
    + unfold onerror.
      destruct (slots pool !! slotIndex) as [slot|] eqn:Hslot; [|now split].
      match goal with |- context [pump ?p] => destruct (length_slots_pump p) as [H1 H2] end.
      split.
      * rewrite H1. cbn [slots]. now rewrite length_insert.
      * rewrite H2. cbn [isDestroyed]. intros Hd. unfold pump. cbn [isDestroyed].
        rewrite Hd. cbn [slots]. specialize (Hterm Hd).
        apply Forall_insert; [exact Hterm|]. cbn [terminated].
        rewrite Forall_lookup in Hterm. now apply (Hterm slotIndex slot).
    + destruct (isDestroyed pool) eqn:Hd.
      * unfold destroy. rewrite Hd. split; [exact Hlen|intros _; now apply Hterm].
      * destruct (destroy_spec pool Hd) as (Ht & Hl & _).
        split; [now rewrite Hl|]. intros _.
        eapply Forall_impl; [exact Ht|]. now intros slot [H _].
Qed.

(** C9: whatever has happened to a pool, [destroy] leaves every promise
    the pool has issued settled: the promise of every queued job and of
    the job of every slot is rejected with "Worker pool destroyed", as
    is every promise that was pending, and promises settled earlier keep
    their outcome.  Every worker is terminated, no slot keeps a job and
    the queue is empty.  A further [destroy], once or many times,
    changes nothing, and processPage on the destroyed pool returns a
    rejected promise. *)
Theorem destroy_rejects_and_terminates (poolSize : nat) (calls : list PoolCall) :
  let pool := poolAfter poolSize calls in
  let destroyed := destroy pool in
  (forall job, job ∈ queue pool ->
     promises destroyed !! QueueJob.id job = Some (Rejected "Worker pool destroyed")) /\
  (forall slot job, slot ∈ slots pool -> currentJob slot = Some job ->
     promises destroyed !! QueueJob.id job = Some (Rejected "Worker pool destroyed")) /\
  (forall jobId, (1 <= jobId < nextJobId pool)%nat ->
     exists outcome,
       promises destroyed !! jobId = Some outcome /\
       (promises pool !! jobId = None -> outcome = Rejected "Worker pool destroyed") /\
       (forall earlier, promises pool !! jobId = Some earlier -> outcome = earlier)) /\
  length (slots destroyed) = poolSize /\
  Forall (fun slot => terminated slot = true /\ currentJob slot = None) (slots destroyed) /\
  queue destroyed = [] /\
  isDestroyed destroyed = true /\
  (forall count, Nat.iter count destroy destroyed = destroyed) /\
  (forall pageNum blob options includePreview,
     processPage destroyed pageNum blob options includePreview
     = (destroyed, RejectedNow "Worker pool is destroyed")).
Proof.
  intros pool destroyed.
  pose proof (poolAfter_invariant poolSize calls) as [Inv _].
  pose proof (poolAfter_shape poolSize calls) as [Hsize Hterm].
  fold pool in Inv, Hsize, Hterm.
  assert (Hcur : forall slot job, slot ∈ slots pool -> currentJob slot = Some job ->
                                  QueueJob.id job ∈ heldIds pool).
  { intros slot job Hin Hjob. unfold heldIds. apply elem_of_app. right.
    clear -Hin Hjob. induction Hin as [slot rest|slot other rest Hin IH];
      cbn [currentIds].
    - rewrite Hjob. now left.
    - destruct (currentJob other); [right|]; exact (IH Hjob). }
  assert (Hque : forall job, job ∈ queue pool -> QueueJob.id job ∈ heldIds pool).
  { intros job Hin. unfold heldIds. apply elem_of_app. left.
    rewrite list_elem_of_In. apply in_map. now rewrite <- list_elem_of_In. }
  assert (Hdes : isDestroyed destroyed = true).
  { unfold destroyed, destroy. destruct (isDestroyed pool) eqn:Hd; [exact Hd|].
    now destruct (destroySlots (slots pool) (promises pool)). }
  destruct (isDestroyed pool) eqn:Hd.
  - assert (Hsame : destroyed = pool) by (unfold destroyed, destroy; now rewrite Hd).
    rewrite Hsame in *.
    pose proof (inv_destroyed pool Inv Hd) as Hnone.
    assert (Hnocur : Forall (fun slot => currentJob slot = None) (slots pool)).
    { unfold heldIds in Hnone. apply app_eq_nil in Hnone as [_ Hnone].
      now apply currentIds_nil. }
    refine (conj _ (conj _ (conj _ (conj _ (conj _ (conj _ (conj _ (conj _ _)))))))).
    + intros job Hin. apply Hque in Hin. rewrite Hnone in Hin.
      now apply elem_of_nil in Hin.
    + intros slot job Hin Hjob. apply (Hcur slot job Hin) in Hjob.
      rewrite Hnone in Hjob. now apply elem_of_nil in Hjob.
    + intros jobId Hr. destruct (promises pool !! jobId) as [outcome|] eqn:E.
      * exists outcome. repeat split; [discriminate|congruence].
      * assert (Hin : jobId ∈ heldIds pool) by (apply (inv_held pool Inv); tauto).
        rewrite Hnone in Hin. now apply elem_of_nil in Hin.
    + exact Hsize.
    + specialize (Hterm eq_refl). rewrite Forall_lookup in *.
      intros i slot Hi. split; [now apply (Hterm i)|now apply (Hnocur i)].
    + now apply heldIds_nil_queue.
    + exact Hd.
    + intros count. induction count as [|count IH]; [reflexivity|].
      rewrite Nat.iter_succ, IH. unfold destroy. now rewrite Hd.
    + intros. unfold processPage. now rewrite Hd.
  - destruct (destroy_spec pool Hd)
      as (Ht & Hl & Hq & _ & Hnext & Hkeep & Hrej & Hsame).
    fold destroyed in Ht, Hl, Hq, Hnext, Hkeep, Hrej, Hsame.
    refine (conj _ (conj _ (conj _ (conj _ (conj _ (conj _ (conj _ (conj _ _)))))))).
    + intros job Hin. apply Hque in Hin. apply Hrej; [exact Hin|].
      now apply (inv_held pool Inv) in Hin.
    + intros slot job Hin Hjob. apply (Hcur slot job Hin) in Hjob.
      apply Hrej; [exact Hjob|]. now apply (inv_held pool Inv) in Hjob.
    + intros jobId Hr. destruct (promises pool !! jobId) as [outcome|] eqn:E.
      * exists outcome. split; [now apply Hkeep|]. split; [discriminate|congruence].
      * exists (Rejected "Worker pool destroyed").
        split; [|split; [reflexivity|discriminate]].
        apply Hrej; [|exact E]. apply (inv_held pool Inv). tauto.
    + now rewrite Hl.
    + exact Ht.
    + exact Hq.
    + exact Hdes.
    + intros count. induction count as [|count IH]; [reflexivity|].
      rewrite Nat.iter_succ, IH. unfold destroy at 1. now rewrite Hdes.
    + intros. unfold processPage. now rewrite Hdes.
Qed.

Example destroy_busyPool :
  heldIds busyPool = [3; 2]%nat /\
  map_to_list (promises busyPool) = [(1%nat, Rejected "decode failed")] /\
  map_to_list (promises (destroy busyPool))
  = [ (2%nat, Rejected "Worker pool destroyed");
      (3%nat, Rejected "Worker pool destroyed");
      (1%nat, Rejected "decode failed") ] /\
  slots (destroy busyPool)
  = [ {| terminated := true; busy := true; currentJob := None |};
      {| terminated := true; busy := true; currentJob := None |} ] /\
  destroy (destroy busyPool) = destroy busyPool.
Proof. vm_compute. repeat split; reflexivity. Qed.

(** *** How the calls change the jobs the pool holds *)





Lemma jobOfSlot_held (pool : ConvertWorkerPool) (slotIndex : nat) (job : QueueJob.t) :
  jobOfSlot pool slotIndex = Some job -> QueueJob.id job ∈ heldIds pool.
Proof.
  unfold jobOfSlot, heldIds. intros H. apply elem_of_app. right.
  destruct (slots pool !! slotIndex) as [slot|] eqn:Hslot; [|discriminate].
  revert slotIndex Hslot. induction (slots pool) as [|first rest IH];
    intros slotIndex Hslot; [discriminate|].
  destruct slotIndex as [|slotIndex]; cbn [currentIds].
  - injection Hslot as ->. rewrite H. now left.
  - destruct (currentJob first); [right|]; now apply (IH slotIndex).
Qed.


(** ** The slots of processArchiveSourcePages *)

Lemma heldIndices_insert (lanes : list LaneState) (lane : nat) (state state' : LaneState) :
  lanes !! lane = Some state ->
  optionList (laneIndex state) ++ heldIndices (<[lane := state']> lanes)
    ≡ₚ optionList (laneIndex state') ++ heldIndices lanes.
Proof.
  revert lane. induction lanes as [|first rest IH]; intros lane Hlane; [discriminate|].
  destruct lane as [|lane].
  - injection Hlane as ->. cbn [insert list_insert heldIndices].
    destruct (laneIndex state), (laneIndex state'); cbn [optionList app];
      try reflexivity. apply perm_swap.
  - specialize (IH lane Hlane). cbn [insert list_insert heldIndices].
    change (list_insert lane state' rest) with (<[lane := state']> rest).
    destruct (laneIndex first) as [i|]; [|exact IH].
    rewrite <- !Permutation_middle. now rewrite IH.
Qed.

Lemma catchFailure_lanes (batch : Batch) :
  lanes (catchFailure batch) = lanes batch /\
  stored (catchFailure batch) = stored batch /\
  nextIndex (catchFailure batch) = nextIndex batch /\
  totalPages (catchFailure batch) = totalPages batch /\
  completed (catchFailure batch) = completed batch.
Proof. unfold catchFailure. now destruct (workerDisabled batch). Qed.


Lemma step_laneStep (getPageOptions : nat -> ConversionOptions)
    (batch batch' : Batch) (event : Event) :
  step getPageOptions batch event = Some batch' ->
  laneStep batch batch' /\ totalPages batch' = totalPages batch.
Proof.
  destruct event as [lane|lane includePreview|slotIndex message|slotIndex eventMessage
                     |lane previewFails|lane pages|lane|lane|]; cbn [step].
  - destruct (lanes batch !! lane) as [[| | | | | |]|] eqn:Hlane; try discriminate.
    destruct (workerDisabled batch && (0 <? lane)%nat) eqn:Hdis.
    + intros [= Hnext]; subst batch'. split; [|reflexivity].
      apply andb_true_iff in Hdis as [Hd Hl]. apply Nat.ltb_lt in Hl.
      eapply step_return; eauto.
    + cbn [totalPages].
      destruct (Nat.leb_spec (totalPages batch) (nextIndex batch)) as [Hle|Hlt];
        intros [= Hnext]; subst batch'; (split; [|reflexivity]).
      * eapply step_return; eauto.
      * eapply step_pull; eauto. cbn [workerDisabled]. intros Hd. rewrite Hd in Hdis.
        cbn [andb] in Hdis. apply Nat.ltb_ge in Hdis. lia.
  - destruct (lanes batch !! lane) as [[|index|index promise|index| |index|index]|] eqn:Hlane;
      try discriminate.
    destruct (poolSet batch && negb (workerDisabled batch)).
    + destruct (processPage _ _ _ _ _) as [pool promise]. intros [= Hnext]; subst batch'.
      split; [|reflexivity]. eapply step_move; eauto; reflexivity.
    + intros [= Hnext]; subst batch'. split; [|reflexivity]. eapply step_move; eauto; reflexivity.
  - destruct (jobOfSlot (poolObject batch) slotIndex) as [job|]; [|discriminate].
    destruct (QueueJob.id job =? responseJobId message)%nat; [|discriminate].
    intros [= Hnext]; subst batch'. split; [|reflexivity]. now apply step_worker.
  - destruct (jobOfSlot (poolObject batch) slotIndex) as [job|]; [|discriminate].
    intros [= Hnext]; subst batch'. split; [|reflexivity]. now apply step_worker.
  - destruct (lanes batch !! lane) as [[|index|index promise|index| |index|index]|] eqn:Hlane;
      try discriminate.
    destruct (promiseState (poolObject batch) promise) as [[workerPages|message]|];
      [| |discriminate].
    + set (caught := if previewFails && existsb hasPreviewJpeg workerPages
                     then catchFailure batch else batch).
      assert (Hc : lanes caught = lanes batch /\ stored caught = stored batch /\
                   nextIndex caught = nextIndex batch /\
                   totalPages caught = totalPages batch).
      { unfold caught. destruct (previewFails && existsb hasPreviewJpeg workerPages);
          [|now repeat split].
        pose proof (catchFailure_lanes batch). tauto. }
      destruct Hc as (H1 & H2 & H3 & H4).
      destruct (map encodedOfWorker workerPages) as [|page pages]; intros [= Hnext]; subst batch'.
      * split; [|exact H4].
        apply (step_move _ _ lane (AwaitingWorker index promise) (AwaitingImage index) index);
          cbn [setLane lanes stored nextIndex laneIndex]; congruence.
      * split; [|exact H4].
        apply (step_store _ _ lane (AwaitingWorker index promise) index (page :: pages));
          cbn [storePage lanes stored nextIndex laneIndex]; congruence.
    + intros [= Hnext]; subst batch'. pose proof (catchFailure_lanes batch) as (H1 & H2 & H3 & H4 & _).
      split; [|exact H4].
      apply (step_move _ _ lane (AwaitingWorker index promise) (AwaitingImage index) index);
        cbn [setLane lanes stored nextIndex laneIndex]; congruence.
  - destruct (lanes batch !! lane) as [[|index|index promise|index| |index|index]|] eqn:Hlane;
      try discriminate.
    intros [= Hnext]; subst batch'. split; [|reflexivity]. eapply step_store; eauto; reflexivity.
  - destruct (lanes batch !! lane) as [[|index|index promise|index| |index|index]|] eqn:Hlane;
      try discriminate.
    intros [= Hnext]; subst batch'. split; [|reflexivity]. eapply step_move; eauto; reflexivity.
  - destruct (lanes batch !! lane) as [[|index|index promise|index| |index|index]|] eqn:Hlane;
      try discriminate.
    intros [= Hnext]; subst batch'. split; [|reflexivity]. eapply step_move; eauto; reflexivity.
  - destruct (joined batch); [discriminate|].
    destruct (allReturned batch || someThrown batch); [|discriminate].
    intros [= Hnext]; subst batch'. split; [|reflexivity]. now apply step_worker.
Qed.

Lemma laneStep_indexInvariant (batch batch' : Batch) :
  indexInvariant batch -> laneStep batch batch' ->
  totalPages batch' = totalPages batch ->
  indexInvariant batch'.
Proof.
  intros [Hnd Hpulled Hlane0 Hlanes] Hstep Htotal.
  destruct Hstep as [lane state Hlane Hnone Hl Hs Hnext
                    |lane Hlane Hl Hs Hnext Hlt _
                    |lane state state' index Hlane Hi Hi' Hl Hs Hnext
                    |lane state index pages Hlane Hi Hl Hs Hnext
                    |Hl Hs Hnext].
  - pose proof (heldIndices_insert (lanes batch) lane state Returned Hlane) as Hperm.
    rewrite Hnone in Hperm. cbn [laneIndex optionList app] in Hperm.
    assert (Hp : pulledIndices batch' ≡ₚ pulledIndices batch).
    { unfold pulledIndices. now rewrite Hl, Hs, Hperm. }
    constructor.
    + now rewrite Hp.
    + intros i. rewrite Hp, Hpulled, Htotal. lia.
    + rewrite Hl, Htotal. intros H0. destruct lane as [|lane].
      * destruct Hnext as [(_ & Hpos & _)|[-> Hle]]; lia.
      * rewrite list_lookup_insert_ne in H0 by lia. specialize (Hlane0 H0).
        destruct Hnext as [(-> & _)|[-> _]]; lia.
    + now rewrite Hl, length_insert.
  - pose proof (heldIndices_insert (lanes batch) lane AtLoopHead
                  (AwaitingBlob (nextIndex batch)) Hlane) as Hperm.
    cbn [laneIndex optionList app] in Hperm.
    assert (Hp : pulledIndices batch' ≡ₚ nextIndex batch :: pulledIndices batch).
    { unfold pulledIndices. rewrite Hl, Hs, Hperm. reflexivity. }
    constructor.
    + rewrite Hp. apply NoDup_cons. split; [|exact Hnd].
      intros Hin. apply Hpulled in Hin. lia.
    + intros i. rewrite Hp, elem_of_cons, Hpulled, Hnext, Htotal. lia.
    + rewrite Hl, Htotal, Hnext. intros H0. destruct lane as [|lane].
      * rewrite list_lookup_insert_eq in H0 by lia. discriminate.
      * rewrite list_lookup_insert_ne in H0 by lia. specialize (Hlane0 H0). lia.
    + now rewrite Hl, length_insert.
  - pose proof (heldIndices_insert (lanes batch) lane state state' Hlane) as Hperm.
    rewrite Hi, Hi' in Hperm. cbn [optionList app] in Hperm.
    apply Permutation_cons_inv in Hperm.
    assert (Hp : pulledIndices batch' ≡ₚ pulledIndices batch).
    { unfold pulledIndices. now rewrite Hl, Hs, Hperm. }
    constructor.
    + now rewrite Hp.
    + intros i. rewrite Hp, Hpulled, Htotal, Hnext. lia.
    + rewrite Hl, Htotal, Hnext. intros H0. destruct lane as [|lane].
      * rewrite list_lookup_insert_eq in H0
          by (apply lookup_lt_Some in Hlane; exact Hlane).
        injection H0 as ->. discriminate.
      * rewrite list_lookup_insert_ne in H0 by lia. now apply Hlane0.
    + now rewrite Hl, length_insert.
  - pose proof (heldIndices_insert (lanes batch) lane state AtLoopHead Hlane) as Hperm.
    rewrite Hi in Hperm. cbn [laneIndex optionList app] in Hperm.
    assert (Hp : pulledIndices batch' ≡ₚ pulledIndices batch).
    { unfold pulledIndices. rewrite Hl, Hs, List.map_app. cbn [map fst].
      rewrite <- Hperm. rewrite app_assoc, <- Permutation_cons_append. reflexivity. }
    constructor.
    + now rewrite Hp.
    + intros i. rewrite Hp, Hpulled, Htotal, Hnext. lia.
    + rewrite Hl, Htotal, Hnext. intros H0. destruct lane as [|lane].
      * rewrite list_lookup_insert_eq in H0
          by (apply lookup_lt_Some in Hlane; exact Hlane).
        discriminate.
      * rewrite list_lookup_insert_ne in H0 by lia. now apply Hlane0.
    + now rewrite Hl, length_insert.
  - assert (Hp : pulledIndices batch' = pulledIndices batch).
    { unfold pulledIndices. now rewrite Hl, Hs. }
    constructor.
    + now rewrite Hp.
    + intros i. rewrite Hp, Hpulled, Htotal, Hnext. lia.
    + rewrite Hl, Htotal, Hnext. exact Hlane0.
    + now rewrite Hl.
Qed.

Lemma heldIndices_replicate_loop (count : nat) :
  heldIndices (replicate count AtLoopHead) = [].
Proof. induction count as [|count IH]; [reflexivity|exact IH]. Qed.

Lemma startBatch_indexInvariant (pages workerPoolSize : nat) (supported : bool) :
  (1 <= workerPoolSize)%nat ->
  indexInvariant (startBatch pages workerPoolSize supported).
Proof.
  intros Hsize. constructor; unfold pulledIndices;
    cbn [startBatch lanes stored nextIndex totalPages map].
  - rewrite heldIndices_replicate_loop. constructor.
  - intros i. rewrite heldIndices_replicate_loop. split.
    + intros H. now apply elem_of_nil in H.
    + lia.
  - destruct supported, workerPoolSize; cbn; (discriminate || lia).
  - rewrite length_replicate. destruct supported; lia.
Qed.











(** *** The work left in a batch *)





(** *** After the first failure *)





Lemma runEvents_indexInvariant (getPageOptions : nat -> ConversionOptions)
    (events : list Event) (batch batch' : Batch) :
  indexInvariant batch ->
  runEvents getPageOptions batch events = Some batch' ->
  indexInvariant batch' /\ totalPages batch' = totalPages batch.
Proof.
  revert batch. induction events as [|event rest IH]; intros batch Hinv; cbn [runEvents].
  - now intros [= <-].
  - destruct (step getPageOptions batch event) as [next|] eqn:Hstep; [|discriminate].
    destruct (step_laneStep _ _ _ _ Hstep) as [Hlane Htotal].
    intros Hrun. destruct (IH next (laneStep_indexInvariant _ _ Hinv Hlane Htotal) Hrun).
    split; [assumption|congruence].
Qed.



(** *** A batch without failures finishes, with one store for each page *)


Lemma allReturned_true (lanes : list LaneState) :
  forallb (fun state => match state with Returned => true | _ => false end) lanes = true ->
  heldIndices lanes = [] /\
  forall lane state, lanes !! lane = Some state -> state = Returned.
Proof.
  induction lanes as [|first rest IH]; cbn [forallb].
  - intros _. split; [reflexivity|]. intros lane state H. discriminate.
  - destruct first; cbn [andb]; try discriminate.
    intros Hrest. destruct (IH Hrest) as [Hheld Hall]. split; [exact Hheld|].
    intros [|lane] state Hlane.
    + now injection Hlane as <-.
    + now apply (Hall lane).
Qed.




Lemma runEvents_app (getPageOptions : nat -> ConversionOptions)
    (events later : list Event) (batch batch' : Batch) :
  runEvents getPageOptions batch events = Some batch' ->
  runEvents getPageOptions batch (events ++ later) = runEvents getPageOptions batch' later.
Proof.
  revert batch. induction events as [|event rest IH]; intros batch; cbn [runEvents app].
  - now intros [= <-].
  - destruct (step getPageOptions batch event) as [next|]; [|discriminate]. apply IH.
Qed.








(** When every slot has returned, each page has been stored once. *)
Lemma allReturned_stored (batch : Batch) :
  indexInvariant batch -> allReturned batch = true ->
  map fst (stored batch) ≡ₚ seq 0 (totalPages batch).
Proof.
  intros [Hnd Hpulled Hlane0 Hlanes] Hall.
  apply allReturned_true in Hall as [Hheld Hret].
  unfold pulledIndices in *. rewrite Hheld in *. cbn [app] in *.
  assert (Hdone : (totalPages batch <= nextIndex batch)%nat).
  { apply Hlane0. destruct (lanes batch) as [|first rest] eqn:Hl; [cbn in Hlanes; lia|].
    cbn. f_equal. apply (Hret 0%nat). reflexivity. }
  apply NoDup_Permutation; [exact Hnd|apply NoDup_seq|].
  intros i. rewrite Hpulled, elem_of_seq. lia.
Qed.

Lemma stored_once (batch : Batch) :
  indexInvariant batch ->
  NoDup (map fst (stored batch)) /\
  forall index, index ∈ map fst (stored batch) -> (index < totalPages batch)%nat.
Proof.
  intros [Hnd Hpulled _ _]. unfold pulledIndices in *.
  apply NoDup_app in Hnd as (_ & _ & Hnd). split; [exact Hnd|].
  intros index Hin. apply (Hpulled index). apply elem_of_app. now right.
Qed.





(** The two ways a batch fails to complete.  When the blob of page 0
    cannot be read, slot 0 throws, the join rejects and the pool is
    destroyed with it, nothing having been stored; when the processing
    of the image of page 0 throws inside the load handler, the only
    slot hangs with nothing stored and the join never settles. *)
Example batch_fails_to_complete :
  (exists batch,
     runEvents (fun _ => sampleOptions) (startBatch 3 2 true)
               [RunLoop 0; BlobRejected 0; JoinSettles] = Some batch /\
     lanes batch = [Thrown 0; AtLoopHead] /\ stored batch = [] /\
     isDestroyed (poolObject batch) = true /\ allReturned batch = false) /\
  (exists batch,
     runEvents (fun _ => sampleOptions) (startBatch 3 1 false)
               [RunLoop 0; BlobLoaded 0 false; ImageThrows 0] = Some batch /\
     lanes batch = [Hung 0] /\ stored batch = [] /\
     forall event, step (fun _ => sampleOptions) batch event = None).
Proof.
  split.
  - eexists. split; [vm_compute; reflexivity|]. repeat split.
  - eexists. split; [vm_compute; reflexivity|]. repeat split.
    intros [lane|lane includePreview|slotIndex message|slotIndex eventMessage
           |lane previewFails|lane pages|lane|lane|]; cbn [step lanes];
      try (destruct lane as [|[|lane]]; reflexivity);
      try (destruct slotIndex as [|slotIndex]; reflexivity).
    reflexivity.
Qed.


(* ================================================================== *)
(** * Further properties of the worker pool *)

(** X1: no job of the pool is lost.  In every state the pool can reach,
    the jobs submitted so far are numbered from 1 to nextJobId - 1; of
    these, exactly the jobs still in the queue or with a worker have a
    pending promise, and every other one has been resolved or rejected.
    No promise stays pending once the pool has let go of its job, and
    none is settled while the pool still holds the job. *)
Theorem job_pending_while_held (poolSize : nat) (calls : list PoolCall) :
  let pool := poolAfter poolSize calls in
  (forall jobId,
     jobId ∈ heldIds pool <->
     (1 <= jobId < nextJobId pool)%nat /\ promises pool !! jobId = None) /\
  (forall jobId,
     is_Some (promises pool !! jobId) <->
     (1 <= jobId < nextJobId pool)%nat /\ jobId ∉ heldIds pool) /\
  NoDup (heldIds pool).
Proof.
  intros pool. destruct (poolAfter_invariant poolSize calls) as [Hinv _].
  fold pool in Hinv. split; [exact (inv_held _ Hinv)|]. split; [|exact (inv_nodup _ Hinv)].
  intros jobId. split.
  - intros [outcome Hset]. split; [exact (inv_range _ Hinv _ _ Hset)|].
    intros Hheld. apply (inv_held _ Hinv) in Hheld as [_ Hnone]. congruence.
  - intros [Hrange Hfree]. destruct (promises pool !! jobId) as [outcome|] eqn:Hset;
      [now exists outcome|].
    exfalso. apply Hfree. now apply (inv_held _ Hinv).
Qed.

Lemma length_currentIds (slots : list WorkerSlot) :
  (length (currentIds slots) <= length slots)%nat.
Proof.
  induction slots as [|slot rest IH]; cbn [currentIds length]; [lia|].
  destruct (currentJob slot); cbn [length]; lia.
Qed.

(** X2: the pool keeps its workers busy.  In every state a pool of
    [poolSize] workers can reach, a job waits in the queue only while
    every worker is busy; no more than [poolSize] jobs are with the
    workers; no job is held twice; and while the pool is alive a worker
    is marked busy exactly when it holds a job. *)
Theorem workers_busy_while_jobs_wait (poolSize : nat) (calls : list PoolCall) :
  let pool := poolAfter poolSize calls in
  (queue pool <> [] -> Forall (fun slot => busy slot = true) (slots pool)) /\
  (length (currentIds (slots pool)) <= poolSize)%nat /\
  NoDup (heldIds pool) /\
  (isDestroyed pool = false ->
   Forall (fun slot => busy slot = true <-> currentJob slot <> None) (slots pool)).
Proof.
  intros pool.
  destruct (poolAfter_invariant poolSize calls) as [Inv Hpumped].
  destruct (poolAfter_shape poolSize calls) as [Hlen _].
  fold pool in Inv, Hpumped, Hlen.
  refine (conj Hpumped (conj _ (conj (inv_nodup _ Inv) _))).
  - rewrite <- Hlen. apply length_currentIds.
  - intros Hlive. pose proof (inv_idle _ Inv) as Hidle.
    pose proof (inv_working _ Inv Hlive) as Hwork.
    rewrite Forall_forall in Hidle, Hwork. apply Forall_forall. intros slot Hin.
    specialize (Hidle slot Hin). specialize (Hwork slot Hin).
    unfold idleSlot, workingSlot in *. split; [exact Hwork|].
    intros Hjob. destruct (busy slot); [reflexivity|]. now rewrite Hidle in Hjob.
Qed.

Lemma applyCall_dead (pool : ConvertWorkerPool) (call : PoolCall) :
  deadPool pool ->
  deadPool (applyCall pool call) /\
  promises (applyCall pool call) = promises pool /\
  length (slots (applyCall pool call)) = length (slots pool).
Proof.
  intros (Hd & Hq & Hslots).
  destruct call as [pageNum blob options includePreview|slotIndex message
                   |slotIndex eventMessage|]; cbn [applyCall].
  - unfold processPage. rewrite Hd. cbn [fst]. repeat split; assumption.
  - unfold onmessage. destruct (slots pool !! slotIndex) as [slot|] eqn:Hslot;
      [|repeat split; assumption].
    rewrite Forall_lookup in Hslots. destruct (Hslots _ _ Hslot) as [_ ->].
    rewrite <- Forall_lookup in Hslots. repeat split; assumption.
  - unfold onerror. destruct (slots pool !! slotIndex) as [slot|] eqn:Hslot;
      [|repeat split; assumption].
    pose proof Hslots as Hall. rewrite Forall_lookup in Hall.
    destruct (Hall _ _ Hslot) as [Hterm ->].
    unfold pump. cbn [isDestroyed]. rewrite Hd. cbn [promises slots queue isDestroyed].
    repeat split; try assumption.
    + apply Forall_insert; [exact Hslots|]. cbn [terminated currentJob]. auto.
    + apply length_insert.
  - unfold destroy. rewrite Hd. repeat split; assumption.
Qed.

Lemma destroy_dead (poolSize : nat) (calls : list PoolCall) :
  deadPool (destroy (poolAfter poolSize calls)).
Proof.
  destruct (poolAfter_invariant poolSize calls) as [Inv _].
  destruct (poolAfter_shape poolSize calls) as [_ Hterm].
  destruct (isDestroyed (poolAfter poolSize calls)) eqn:Hd.
  - unfold destroy. rewrite Hd. pose proof (inv_destroyed _ Inv Hd) as Hheld.
    repeat split; [exact Hd|now apply heldIds_nil_queue|].
    unfold heldIds in Hheld. apply app_eq_nil in Hheld as [_ Hcur].
    apply currentIds_nil in Hcur. specialize (Hterm eq_refl).
    rewrite Forall_forall in Hcur, Hterm. apply Forall_forall. intros slot Hin.
    split; [now apply Hterm|now apply Hcur].
  - destruct (destroy_spec _ Hd) as (Hslots & _ & Hq & Hdes & _).
    repeat split; assumption.
Qed.

Lemma foldl_applyCall_dead (later : list PoolCall) :
  forall start, deadPool start ->
    deadPool (foldl applyCall start later) /\
    promises (foldl applyCall start later) = promises start /\
    length (slots (foldl applyCall start later)) = length (slots start).
Proof.
  induction later as [|call rest IH]; intros start Hdead; cbn [foldl]; [auto|].
  destruct (applyCall_dead start call Hdead) as (Hdead' & Hp & Hl).
  destruct (IH _ Hdead') as (H1 & H2 & H3).
  split; [exact H1|]. split; congruence.
Qed.

(** X3: destroying a pool is final.  Whatever is called on a destroyed
    pool afterwards (late answers or crashes of its workers, further
    submissions, destroy again), no promise changes, nothing is queued,
    every worker stays terminated and without a job, and every
    submission is rejected on the spot. *)
Theorem destroy_is_final (poolSize : nat) (calls later : list PoolCall) :
  let destroyed := destroy (poolAfter poolSize calls) in
  let pool := foldl applyCall destroyed later in
  promises pool = promises destroyed /\
  isDestroyed pool = true /\
  queue pool = [] /\
  length (slots pool) = poolSize /\
  Forall (fun slot => terminated slot = true /\ currentJob slot = None) (slots pool) /\
  forall pageNum blob options includePreview,
    processPage pool pageNum blob options includePreview
    = (pool, RejectedNow "Worker pool is destroyed").
Proof.
  intros destroyed pool.
  destruct (foldl_applyCall_dead later destroyed (destroy_dead poolSize calls))
    as ((Hd & Hq & Hslots) & Hp & Hl).
  fold pool in Hd, Hq, Hslots, Hp, Hl.
  assert (Hsize : length (slots destroyed) = poolSize).
  { unfold destroyed. destruct (poolAfter_shape poolSize calls) as [Hlen _].
    destruct (isDestroyed (poolAfter poolSize calls)) eqn:Hd0.
    - unfold destroy. now rewrite Hd0.
    - destruct (destroy_spec _ Hd0) as (_ & Hlen' & _). cbv zeta in Hlen'. congruence. }
  refine (conj Hp (conj Hd (conj Hq (conj _ (conj Hslots _))))); [congruence|].
  intros pageNum blob options includePreview. unfold processPage. now rewrite Hd.
Qed.

Lemma pumpSlots_takes_head (slots : list WorkerSlot) (queue : list QueueJob.t) :
  exists k, (k <= length queue)%nat /\
    snd (pumpSlots slots queue) = drop k queue /\
    forall held, held ∈ currentIds (fst (pumpSlots slots queue)) ->
      held ∈ currentIds slots \/ held ∈ map QueueJob.id (take k queue).
Proof.
  revert queue. induction slots as [|slot rest IH]; intros queue.
  - exists 0%nat. cbn. repeat split; [lia|]. intros held H. now left.
  - cbn [pumpSlots]. destruct (busy slot) eqn:Hbusy.
    + destruct (IH queue) as (k & Hk & Hdrop & Hheld).
      destruct (pumpSlots rest queue) as [rest' queue']. cbn [fst snd] in *.
      exists k. repeat split; [exact Hk|exact Hdrop|].
      intros held. cbn [currentIds]. destruct (currentJob slot) as [job|].
      * rewrite !elem_of_cons. intros [->|Hin]; [left; now left|].
        destruct (Hheld _ Hin); [left; now right|now right].
      * exact (Hheld held).
    + destruct queue as [|job queue'].
      * exists 0%nat. cbn [fst snd drop length]. repeat split; [lia|].
        intros held H. now left.
      * destruct (IH queue') as (k & Hk & Hdrop & Hheld).
        destruct (pumpSlots rest queue') as [rest' queue'']. cbn [fst snd] in *.
        exists (S k). cbn [length drop take map]. repeat split; [lia|exact Hdrop|].
        intros held. cbn [currentIds currentJob]. rewrite !elem_of_cons.
        intros [->|Hin]; [right; now left|].
        destruct (Hheld _ Hin) as [H|H].
        -- left. destruct (currentJob slot); [now apply elem_of_cons; right|exact H].
        -- right. now right.
Qed.

Lemma pump_fifo (pool : ConvertWorkerPool) :
  fifoInvariant pool -> fifoInvariant (pump pool).
Proof.
  intros (Hseq & Hlt & Hcur). unfold pump. destruct (isDestroyed pool);
    [now repeat split|].
  destruct (pumpSlots_takes_head (slots pool) (queue pool)) as (k & Hk & Hdrop & Hheld).
  destruct (pumpSlots (slots pool) (queue pool)) as [slots' queue']. cbn [fst snd] in *.
  subst queue'. unfold fifoInvariant. cbn [slots queue nextJobId].
  rewrite length_drop. repeat split.
  - rewrite <- skipn_map, Hseq, drop_seq. f_equal. lia.
  - lia.
  - apply Forall_forall. intros held Hin. destruct (Hheld _ Hin) as [H|H].
    + rewrite Forall_forall in Hcur. specialize (Hcur _ H). lia.
    + rewrite <- firstn_map, Hseq, take_seq in H. apply elem_of_seq in H. lia.
Qed.

Lemma release_fifo (pool : ConvertWorkerPool) (i : nat) (slot slot' : WorkerSlot)
    (promises' : gmap nat Settlement) :
  fifoInvariant pool ->
  slots pool !! i = Some slot -> currentJob slot' = None ->
  fifoInvariant
    {| slots := <[i := slot']> (slots pool); queue := queue pool;
       nextJobId := nextJobId pool; isDestroyed := isDestroyed pool;
       promises := promises' |}.
Proof.
  intros (Hseq & Hlt & Hcur) Hslot Hnone. unfold fifoInvariant.
  cbn [slots queue nextJobId]. repeat split; [exact Hseq|exact Hlt|].
  pose proof (currentIds_insert _ _ _ _ Hslot Hnone) as Hperm.
  rewrite Hperm in Hcur. now apply Forall_app in Hcur as [_ Hcur].
Qed.

Lemma applyCall_fifo (pool : ConvertWorkerPool) (call : PoolCall) :
  fifoInvariant pool -> fifoInvariant (applyCall pool call).
Proof.
  intros Hfifo.
  destruct call as [pageNum blob options includePreview|slotIndex message
                   |slotIndex eventMessage|]; cbn [applyCall].
  - unfold processPage. destruct (isDestroyed pool); [exact Hfifo|]. cbn [fst].
    apply pump_fifo. destruct Hfifo as (Hseq & Hlt & Hcur). unfold fifoInvariant.
    cbn [slots queue nextJobId]. rewrite length_app. cbn [length].
    replace (S (nextJobId pool) - (length (queue pool) + 1))%nat
      with (nextJobId pool - length (queue pool))%nat by lia.
    repeat split; [|lia|exact Hcur].
    rewrite map_app, Hseq. cbn [map QueueJob.id].
    rewrite Nat.add_1_r, seq_S. do 2 f_equal. lia.
  - unfold onmessage. destruct (slots pool !! slotIndex) as [slot|] eqn:Hslot;
      [|exact Hfifo].
    destruct (currentJob slot) as [job|]; [|exact Hfifo].
    destruct (negb (QueueJob.id job =? responseJobId message)%nat); [exact Hfifo|].
    apply pump_fifo. now apply (release_fifo _ _ slot).
  - unfold onerror. destruct (slots pool !! slotIndex) as [slot|] eqn:Hslot;
      [|exact Hfifo].
    apply pump_fifo. now apply (release_fifo _ _ slot).
  - destruct (isDestroyed pool) eqn:Hd.
    + unfold destroy. now rewrite Hd.
    + destruct (destroy_spec pool Hd) as (Hslots & _ & Hq & _ & Hnext & _).
      cbv zeta in *. destruct Hfifo as (_ & Hlt & _).
      unfold fifoInvariant. rewrite Hq, Hnext. cbn [length map seq].
      repeat split; [lia|]. rewrite (currentIds_cleared _ Hslots). constructor.
Qed.

Lemma poolAfter_fifo (poolSize : nat) (calls : list PoolCall) :
  fifoInvariant (poolAfter poolSize calls).
Proof.
  unfold poolAfter.
  assert (Hnew : fifoInvariant (newPool poolSize)).
  { unfold fifoInvariant. cbn [newPool slots queue nextJobId length map seq].
    repeat split; [lia|]. rewrite currentIds_replicate_idle. constructor. }
  revert Hnew. generalize (newPool poolSize).
  induction calls as [|call rest IH]; intros pool Hpool; cbn [foldl]; [exact Hpool|].
  apply IH. now apply applyCall_fifo.
Qed.

(** X4: the pool serves jobs in submission order.  In every state a
    pool can reach, the queue holds exactly the most recently submitted
    jobs, oldest first (their ids are consecutive and end at the last id
    issued), and every job a worker holds was submitted before every
    queued job: no job overtakes an earlier one on its way to a
    worker. *)
Theorem jobs_served_in_submission_order (poolSize : nat) (calls : list PoolCall) :
  let pool := poolAfter poolSize calls in
  let waiting := length (queue pool) in
  map QueueJob.id (queue pool) = seq (nextJobId pool - waiting) waiting /\
  (waiting < nextJobId pool)%nat /\
  forall held queued,
    held ∈ currentIds (slots pool) -> queued ∈ map QueueJob.id (queue pool) ->
    (held < queued)%nat.
Proof.
  intros pool waiting. destruct (poolAfter_fifo poolSize calls) as (Hseq & Hlt & Hcur).
  fold pool in Hseq, Hlt, Hcur. fold waiting in Hseq, Hlt, Hcur.
  repeat split; [exact Hseq|exact Hlt|].
  intros held queued Hheld Hqueued. rewrite Forall_forall in Hcur.
  specialize (Hcur _ Hheld). rewrite Hseq in Hqueued. apply elem_of_seq in Hqueued. lia.
Qed.

Lemma pumpSlots_nil (slots : list WorkerSlot) : pumpSlots slots [] = (slots, []).
Proof.
  induction slots as [|slot rest IH]; [reflexivity|]. cbn [pumpSlots].
  rewrite IH. now destruct (busy slot).
Qed.

Lemma pumpSlots_all_busy (slots : list WorkerSlot) (queue : list QueueJob.t) :
  Forall (fun slot => busy slot = true) slots -> pumpSlots slots queue = (slots, queue).
Proof.
  induction 1 as [|slot rest Hbusy Hrest IH]; [reflexivity|]. cbn [pumpSlots].
  now rewrite Hbusy, IH.
Qed.

Lemma pumpSlots_one_free (slots : list WorkerSlot) (i : nat) (slot free : WorkerSlot)
    (job : QueueJob.t) (queue : list QueueJob.t) :
  slots !! i = Some slot -> busy free = false ->
  Forall (fun slot => busy slot = true) slots ->
  pumpSlots (<[i := free]> slots) (job :: queue)
  = (<[i := {| terminated := terminated free; busy := true; currentJob := Some job |}]> slots,
     queue).
Proof.
  intros Hslot Hfree Hbusy. revert i Hslot.
  induction Hbusy as [|first rest Hfirst Hrest IH]; intros i Hslot; [discriminate|].
  destruct i as [|i].
  - cbn [insert list_insert pumpSlots].
    rewrite Hfree. now rewrite (pumpSlots_all_busy _ _ Hrest).
  - change (<[S i := free]> (first :: rest)) with (first :: <[i := free]> rest).
    cbn [pumpSlots]. rewrite Hfirst. now rewrite (IH i Hslot).
Qed.

(** The pool after a slot is released with its job settled. *)
Lemma pump_released (pool : ConvertWorkerPool) (i : nat) (slot free : WorkerSlot)
    (promises' : gmap nat Settlement) :
  isDestroyed pool = false -> poolPumped pool ->
  slots pool !! i = Some slot -> busy free = false -> currentJob free = None ->
  let pool' :=
    pump {| slots := <[i := free]> (slots pool); queue := queue pool;
            nextJobId := nextJobId pool; isDestroyed := isDestroyed pool;
            promises := promises' |} in
  promises pool' = promises' /\
  jobOfSlot pool' i = head (queue pool) /\
  queue pool' = tail (queue pool) /\
  (forall other, other <> i -> slots pool' !! other = slots pool !! other).
Proof.
  intros Hlive Hpumped Hslot Hfree Hnone. unfold pump. cbn [isDestroyed slots queue].
  rewrite Hlive. pose proof (lookup_lt_Some _ _ _ Hslot) as Hlt.
  destruct (queue pool) as [|job rest] eqn:Hq.
  - rewrite pumpSlots_nil. cbv zeta. unfold jobOfSlot. cbn [slots queue promises head tail].
    rewrite list_lookup_insert_eq by exact Hlt. repeat split; [exact Hnone|].
    intros other Hne. now rewrite list_lookup_insert_ne.
  - rewrite (pumpSlots_one_free _ _ slot) by (try assumption; apply Hpumped; congruence).
    cbv zeta. unfold jobOfSlot. cbn [slots queue promises head tail].
    rewrite list_lookup_insert_eq by exact Hlt. repeat split.
    intros other Hne. now rewrite list_lookup_insert_ne.
Qed.

Lemma jobOfSlot_live (poolSize : nat) (calls : list PoolCall) (slotIndex : nat)
    (job : QueueJob.t) :
  jobOfSlot (poolAfter poolSize calls) slotIndex = Some job ->
  isDestroyed (poolAfter poolSize calls) = false /\
  promises (poolAfter poolSize calls) !! QueueJob.id job = None.
Proof.
  intros Hjob. destruct (poolAfter_invariant poolSize calls) as [Inv _].
  apply jobOfSlot_held in Hjob. split.
  - destruct (isDestroyed (poolAfter poolSize calls)) eqn:Hd; [|reflexivity].
    rewrite (inv_destroyed _ Inv Hd) in Hjob. now apply elem_of_nil in Hjob.
  - now apply (inv_held _ Inv) in Hjob as [_ Hnone].
Qed.

(** X5: the answer of a page worker settles exactly its job.  When the
    worker of a slot answers the job posted to it, an answer with pages
    resolves the job's promise with them, a thrown [Error] rejects it
    with the error's message and any other thrown value with "Worker
    processing failed"; an [Error] with an empty message resolves the
    promise with no pages.  No other promise changes, no other slot
    changes, and the slot takes the oldest queued job at once (it is
    left idle only when nothing is queued). *)
Theorem worker_answer_settles_its_job (poolSize : nat) (calls : list PoolCall)
    (slotIndex : nat) (job : QueueJob.t) (outcome : WorkerOutcome) :
  let pool := poolAfter poolSize calls in
  jobOfSlot pool slotIndex = Some job ->
  let pool' := onmessage pool slotIndex (workerResponse (QueueJob.id job) outcome) in
  promises pool' !! QueueJob.id job = Some (settlementOf outcome) /\
  (forall other, other <> QueueJob.id job -> promises pool' !! other = promises pool !! other) /\
  jobOfSlot pool' slotIndex = head (queue pool) /\
  queue pool' = tail (queue pool) /\
  (forall other, other <> slotIndex -> slots pool' !! other = slots pool !! other).
Proof.
  intros pool Hjob pool'.
  destruct (jobOfSlot_live _ _ _ _ Hjob) as [Hlive Hpending].
  destruct (poolAfter_invariant poolSize calls) as [_ Hpumped].
  fold pool in Hlive, Hpending, Hpumped.
  unfold jobOfSlot in Hjob.
  destruct (slots pool !! slotIndex) as [slot|] eqn:Hslot; [|discriminate].
  assert (Hid : responseJobId (workerResponse (QueueJob.id job) outcome) = QueueJob.id job)
    by now destruct outcome.
  unfold pool', onmessage. rewrite Hslot, Hjob, Hid, Nat.eqb_refl. cbn [negb].
  match goal with
  | |- context [pump {| slots := _; queue := _; nextJobId := _; isDestroyed := _;
                        promises := ?p |}] => set (settled := p)
  end.
  destruct (pump_released pool slotIndex slot
              {| terminated := terminated slot; busy := false; currentJob := None |}
              settled Hlive Hpumped Hslot eq_refl eq_refl) as (Hp & Hj & Hq & Hs).
  rewrite Hp. refine (conj _ (conj _ (conj Hj (conj Hq Hs)))).
  - unfold settled. destruct outcome as [pages|message|];
      cbn [workerResponse responseError responsePages truthy settlementOf default].
    + now apply settle_pending.
    + destruct (String.eqb message ""); cbn [negb]; now apply settle_pending.
    + now apply settle_pending.
  - intros other Hne. unfold settled.
    destruct (truthy _); now apply settle_other.
Qed.

Lemma worker_answer_settles_its_job_witness :
  jobOfSlot busyPool 1 = Some (QueueJob.mk 2 2 1 halfOptions false) /\
  promises (onmessage busyPool 1 (workerResponse 2 (ThrewError "")))
    !! 2%nat = Some (Resolved []).
Proof.
  assert (Hjob : jobOfSlot (poolAfter 2
                    [ CallProcessPage 1 0 halfOptions false;
                      CallProcessPage 2 1 halfOptions false;
                      CallProcessPage 3 2 halfOptions false;
                      CallOnMessage 0 (mkWorkerResponse 1 None (Some "decode failed")) ]) 1
                 = Some (QueueJob.mk 2 2 1 halfOptions false))
    by (vm_compute; reflexivity).
  split; [exact Hjob|].
  exact (proj1 (worker_answer_settles_its_job 2 _ 1 _ (ThrewError "") Hjob)).
Defined.

(** X6: a crash of a page worker rejects exactly its job.  When the
    worker of a slot that holds a job raises an error event, the job's
    promise is rejected with the event's message, or with "Page worker
    crashed" when the message is empty; no other promise and no other
    slot changes.  The pool does not replace the worker: the same slot
    takes the oldest queued job at once. *)
Theorem worker_crash_rejects_its_job (poolSize : nat) (calls : list PoolCall)
    (slotIndex : nat) (job : QueueJob.t) (eventMessage : string) :
  let pool := poolAfter poolSize calls in
  jobOfSlot pool slotIndex = Some job ->
  let pool' := onerror pool slotIndex eventMessage in
  promises pool' !! QueueJob.id job
    = Some (Rejected (if String.eqb eventMessage "" then "Page worker crashed"
                      else eventMessage)) /\
  (forall other, other <> QueueJob.id job -> promises pool' !! other = promises pool !! other) /\
  jobOfSlot pool' slotIndex = head (queue pool) /\
  queue pool' = tail (queue pool) /\
  (forall other, other <> slotIndex -> slots pool' !! other = slots pool !! other) /\
  (forall slot slot', slots pool !! slotIndex = Some slot ->
     slots pool' !! slotIndex = Some slot' -> terminated slot' = terminated slot).
Proof.
  intros pool Hjob pool'.
  destruct (jobOfSlot_live _ _ _ _ Hjob) as [Hlive Hpending].
  destruct (poolAfter_invariant poolSize calls) as [_ Hpumped].
  fold pool in Hlive, Hpending, Hpumped.
  unfold jobOfSlot in Hjob.
  destruct (slots pool !! slotIndex) as [slot|] eqn:Hslot; [|discriminate].
  assert (Hterm : forall slot0 slot', Some slot = Some slot0 ->
            slots pool' !! slotIndex = Some slot' -> terminated slot' = terminated slot0).
  { intros slot0 slot' [= <-]. unfold pool', onerror. rewrite Hslot. unfold pump.
    cbn [isDestroyed slots queue]. rewrite Hlive.
    pose proof (lookup_lt_Some _ _ _ Hslot) as Hlt.
    destruct (queue pool) as [|next rest] eqn:Hq.
    - rewrite pumpSlots_nil. cbn [slots]. rewrite list_lookup_insert_eq by exact Hlt.
      now intros [= <-].
    - rewrite (pumpSlots_one_free _ _ slot) by (try easy; apply Hpumped; congruence).
      cbn [slots]. rewrite list_lookup_insert_eq by exact Hlt. now intros [= <-]. }
  unfold pool', onerror in *. rewrite Hslot in *. cbv zeta. rewrite Hjob.
  match goal with
  | |- context [pump {| slots := _; queue := _; nextJobId := _; isDestroyed := _;
                        promises := ?p |}] => set (settled := p)
  end.
  destruct (pump_released pool slotIndex slot
              {| terminated := terminated slot; busy := false; currentJob := None |}
              settled Hlive Hpumped Hslot eq_refl eq_refl) as (Hp & Hj & Hq & Hs).
  rewrite Hp. refine (conj _ (conj _ (conj Hj (conj Hq (conj Hs _))))).
  - unfold settled. now apply settle_pending.
  - intros other Hne. unfold settled. now apply settle_other.
  - cbv zeta in Hterm. rewrite Hjob in Hterm. exact Hterm.
Qed.

Lemma worker_crash_rejects_its_job_witness :
  jobOfSlot busyPool 1 = Some (QueueJob.mk 2 2 1 halfOptions false) /\
  promises (onerror busyPool 1 "") !! 2%nat = Some (Rejected "Page worker crashed").
Proof.
  assert (Hjob : jobOfSlot (poolAfter 2
                    [ CallProcessPage 1 0 halfOptions false;
                      CallProcessPage 2 1 halfOptions false;
                      CallProcessPage 3 2 halfOptions false;
                      CallOnMessage 0 (mkWorkerResponse 1 None (Some "decode failed")) ]) 1
                 = Some (QueueJob.mk 2 2 1 halfOptions false))
    by (vm_compute; reflexivity).
  split; [exact Hjob|].
  exact (proj1 (worker_crash_rejects_its_job 2 _ 1 _ "" Hjob)).
Defined.

(* ================================================================== *)
(** * Further properties of the conversion *)

(** ** Pool size and preview sampling *)

Lemma shouldGenerateSampledPreview_interval (pageNum totalPages : Z) :
  shouldGenerateSampledPreview pageNum totalPages
  = (pageNum =? 1) || (pageNum =? totalPages)
    || (Z.rem pageNum (previewInterval totalPages) =? 0).
Proof.
  unfold shouldGenerateSampledPreview, previewInterval, PREVIEW_EVERY_N_PAGES.
  destruct (Z.ltb_spec 700 totalPages), (Z.ltb_spec 350 totalPages),
    (Z.ltb_spec 150 totalPages); try reflexivity; lia.
Qed.

Lemma previewInterval_cases (totalPages : Z) :
  previewInterval totalPages = 5 \/ previewInterval totalPages = 8 \/
  previewInterval totalPages = 12 \/ previewInterval totalPages = 20.
Proof.
  unfold previewInterval.
  destruct (700 <? totalPages), (350 <? totalPages), (150 <? totalPages); auto.
Qed.

Lemma count_sampled (totalPages interval : Z) (count : nat) :
  1 <= totalPages -> 1 <= interval ->
  Z.of_nat (length (List.filter
                      (fun pageNum => (pageNum =? 1) || (pageNum =? totalPages)
                                      || (Z.rem pageNum interval =? 0))
                      (map Z.of_nat (seq 1 count))))
  <= (if (1 <=? count)%nat then 1 else 0)
     + (if totalPages <=? Z.of_nat count then 1 else 0)
     + Z.of_nat count / interval.
Proof.
  intros Htotal Hinterval. induction count as [|count IH].
  - cbn [seq map List.filter length]. rewrite Z.div_0_l by lia.
    destruct (Z.leb_spec totalPages (Z.of_nat 0)); cbn; lia.
  - rewrite seq_S, map_app, List.filter_app, length_app. cbn [map List.filter].
    replace (1 + count)%nat with (S count) by lia.
    assert (Hdiv : Z.of_nat (S count) / interval
                   = Z.of_nat count / interval
                     + (if Z.rem (Z.of_nat (S count)) interval =? 0 then 1 else 0)).
    { rewrite Z.rem_mod_nonneg by lia.
      pose proof (Z.div_mod (Z.of_nat (S count)) interval ltac:(lia)) as H1.
      pose proof (Z.div_mod (Z.of_nat count) interval ltac:(lia)) as H2.
      pose proof (Z.mod_pos_bound (Z.of_nat (S count)) interval ltac:(lia)) as B1.
      pose proof (Z.mod_pos_bound (Z.of_nat count) interval ltac:(lia)) as B2.
      destruct (Z.eqb_spec (Z.of_nat (S count) mod interval) 0) as [E|E]; nia. }
    rewrite Hdiv.
    destruct (Nat.leb_spec 1 count), (Nat.leb_spec 1 (S count)); try lia;
      destruct (Z.leb_spec totalPages (Z.of_nat count)),
               (Z.leb_spec totalPages (Z.of_nat (S count))); try lia;
      destruct (Z.eqb_spec (Z.of_nat (S count)) 1),
               (Z.eqb_spec (Z.of_nat (S count)) totalPages),
               (Z.eqb_spec (Z.rem (Z.of_nat (S count)) interval) 0);
      cbn [orb length]; lia.
Qed.

(** X7: sampled previews are spread over the book.  For a book of at
    least one page, the first and the last page are sampled; of any
    [interval] consecutive pages (5, 8 over 150, 12 over 350, 20 over
    700 pages) at least one is sampled; a page strictly between the
    first and the last is sampled only if its number is a multiple of
    the interval; so no more than [totalPages / interval + 2] pages are
    sampled. *)
Theorem sampled_previews_are_spread (totalPages : Z) :
  1 <= totalPages ->
  let interval := previewInterval totalPages in
  shouldGenerateSampledPreview 1 totalPages = true /\
  shouldGenerateSampledPreview totalPages totalPages = true /\
  (forall pageNum, 1 <= pageNum ->
     exists sampled, pageNum <= sampled < pageNum + interval /\
                     shouldGenerateSampledPreview sampled totalPages = true) /\
  (forall pageNum, 1 < pageNum < totalPages ->
     shouldGenerateSampledPreview pageNum totalPages = true ->
     Z.rem pageNum interval = 0) /\
  Z.of_nat (length (List.filter
                      (fun pageNum => shouldGenerateSampledPreview pageNum totalPages)
                      (map Z.of_nat (seq 1 (Z.to_nat totalPages)))))
  <= totalPages / interval + 2.
Proof.
  intros Htotal interval.
  assert (Hpos : 1 <= interval)
    by (unfold interval; destruct (previewInterval_cases totalPages) as [H|[H|[H|H]]]; lia).
  refine (conj _ (conj _ (conj _ (conj _ _)))).
  - rewrite shouldGenerateSampledPreview_interval. reflexivity.
  - rewrite shouldGenerateSampledPreview_interval, Z.eqb_refl.
    now rewrite orb_true_r.
  - intros pageNum Hpage.
    exists (interval * ((pageNum + interval - 1) / interval)).
    pose proof (Z.div_mod (pageNum + interval - 1) interval ltac:(lia)) as Hdm.
    pose proof (Z.mod_pos_bound (pageNum + interval - 1) interval ltac:(lia)) as Hb.
    split; [fold interval; lia|].
    rewrite shouldGenerateSampledPreview_interval. fold interval.
    rewrite Z.mul_comm, Z.rem_mul by lia. apply orb_true_r.
  - intros pageNum Hpage. rewrite shouldGenerateSampledPreview_interval. fold interval.
    destruct (Z.eqb_spec pageNum 1); [lia|].
    destruct (Z.eqb_spec pageNum totalPages); [lia|]. cbn [orb].
    now intros H%Z.eqb_eq.
  - erewrite List.filter_ext
      by (intros pageNum; apply shouldGenerateSampledPreview_interval).
    fold interval.
    pose proof (count_sampled totalPages interval (Z.to_nat totalPages) Htotal Hpos) as H.
    rewrite Z2Nat.id in H by lia.
    destruct (Nat.leb_spec 1 (Z.to_nat totalPages)); [|lia].
    rewrite Z.leb_refl in H. lia.
Qed.

Lemma sampled_previews_are_spread_witness :
  1 <= 200 /\
  shouldGenerateSampledPreview 200 200 = true /\
  Z.of_nat (length (List.filter
                      (fun pageNum => shouldGenerateSampledPreview pageNum 200)
                      (map Z.of_nat (seq 1 (Z.to_nat 200)))))
  <= 200 / previewInterval 200 + 2.
Proof.
  assert (H : 1 <= 200) by lia.
  destruct (sampled_previews_are_spread 200 H) as (_ & Hlast & _ & _ & Hcount).
  exact (conj H (conj Hlast Hcount)).
Defined.

Lemma mathMin_integers (a b : Z) :
  mathMin (Finite (inject_Z a)) (Finite (inject_Z b)) = Finite (inject_Z (Z.min a b)).
Proof.
  unfold mathMin. destruct (Qle_bool (inject_Z a) (inject_Z b)) eqn:Hle.
  - apply Qle_bool_iff in Hle. rewrite <- Zle_Qle in Hle. now rewrite Z.min_l.
  - assert (Hgt : ~ a <= b).
    { intros H. rewrite Zle_Qle in H. apply Qle_bool_iff in H. congruence. }
    now rewrite Z.min_r by lia.
Qed.

Lemma mathMax_integers (a b : Z) :
  mathMax (Finite (inject_Z a)) (Finite (inject_Z b)) = Finite (inject_Z (Z.max a b)).
Proof.
  unfold mathMax. destruct (Qle_bool (inject_Z a) (inject_Z b)) eqn:Hle.
  - apply Qle_bool_iff in Hle. rewrite <- Zle_Qle in Hle. now rewrite Z.max_r.
  - assert (Hgt : ~ a <= b).
    { intros H. rewrite Zle_Qle in H. apply Qle_bool_iff in H. congruence. }
    now rewrite Z.max_l by lia.
Qed.

Lemma poolSize_before_memory (timesPointSix : Q -> Q) (hardwareConcurrency : option number) :
  exists size,
    mathMax (Finite 1)
      (mathMin (Finite 6)
         (mathFloor (times06 timesPointSix
                       (mathMax (Finite 1) (orFour hardwareConcurrency)))))
    = Finite (inject_Z size) /\ 1 <= size <= 6.
Proof.
  assert (Hfinite : forall q,
            exists size,
              mathMax (Finite 1)
                (mathMin (Finite 6) (mathFloor (times06 timesPointSix (Finite q))))
              = Finite (inject_Z size) /\ 1 <= size <= 6).
  { intros q. exists (Z.max 1 (Z.min 6 (Qfloor (timesPointSix q)))).
    cbn [times06 mathFloor].
    change (Finite 6) with (Finite (inject_Z 6)).
    change (Finite 1) with (Finite (inject_Z 1)).
    rewrite mathMin_integers, mathMax_integers. split; [reflexivity|lia]. }
  destruct hardwareConcurrency as [[q| | |]|]; cbn [orFour].
  - destruct (Qeq_bool q 0); cbn [mathMax];
      match goal with
      | |- context [Qle_bool ?a ?b] => destruct (Qle_bool a b)
      end; apply Hfinite.
  - cbn [mathMax]. match goal with
      | |- context [Qle_bool ?a ?b] => destruct (Qle_bool a b)
      end; apply Hfinite.
  - exists 6. cbn. split; [reflexivity|lia].
  - cbn [mathMax]. apply Hfinite.
  - cbn [mathMax]. match goal with
      | |- context [Qle_bool ?a ?b] => destruct (Qle_bool a b)
      end; apply Hfinite.
Qed.

(** X8: the worker pool size is an integer from 1 to 6, whatever the
    browser reports: a missing, zero, NaN or infinite
    [hardwareConcurrency], any rounding of the product [cores * 0.6],
    any [deviceMemory].  A reported memory of at most 1 gives one
    worker, of at most 2 no more than two workers, and of at most 4 no
    more than three. *)
Theorem worker_pool_size_bounds (timesPointSix : Q -> Q)
    (hardwareConcurrency deviceMemory : option number) :
  exists size : Z,
    calculateWorkerPoolSize timesPointSix hardwareConcurrency deviceMemory
      = Finite (inject_Z size) /\
    1 <= size <= 6 /\
    (forall memory, deviceMemory = Some memory ->
       (numberLe memory (Finite 1) = true -> size = 1) /\
       (numberLe memory (Finite 2) = true -> size <= 2) /\
       (numberLe memory (Finite 4) = true -> size <= 3)).
Proof.
  unfold calculateWorkerPoolSize.
  destruct (poolSize_before_memory timesPointSix hardwareConcurrency)
    as (base & -> & Hbase).
  destruct deviceMemory as [memory|].
  - destruct (numberLe memory (Finite 1)) eqn:H1;
      [|destruct (numberLe memory (Finite 2)) eqn:H2;
        [|destruct (numberLe memory (Finite 4)) eqn:H4]].
    + exists 1. split; [reflexivity|]. split; [lia|].
      intros m [= <-]. split; [|split]; intros; lia.
    + exists (Z.min base 2). change (Finite 2) with (Finite (inject_Z 2)).
      rewrite mathMin_integers. split; [reflexivity|]. split; [lia|].
      intros m [= <-]. split; [|split]; intros; (congruence || lia).
    + exists (Z.min base 3). change (Finite 3) with (Finite (inject_Z 3)).
      rewrite mathMin_integers. split; [reflexivity|]. split; [lia|].
      intros m [= <-]. split; [|split]; intros; (congruence || lia).
    + exists base. split; [reflexivity|]. split; [lia|].
      intros m [= <-]. split; [|split]; intros; congruence.
  - exists base. split; [reflexivity|]. split; [lia|]. intros m [=].
Qed.

(** ** The progress counter of a batch *)

Lemma step_completed (getPageOptions : nat -> ConversionOptions)
    (batch batch' : Batch) (event : Event) :
  step getPageOptions batch event = Some batch' ->
  completed batch = length (stored batch) ->
  completed batch' = length (stored batch').
Proof.
  destruct event as [lane|lane includePreview|slotIndex message|slotIndex eventMessage
                     |lane previewFails|lane pages|lane|lane|]; cbn [step].
  - destruct (lanes batch !! lane) as [[| | | | | |]|]; try discriminate.
    destruct (workerDisabled batch && (0 <? lane)%nat); [now intros [= <-]|].
    cbn [totalPages]. destruct (totalPages batch <=? nextIndex batch)%nat;
      now intros [= <-].
  - destruct (lanes batch !! lane) as [[|index|index promise|index| |index|index]|]; try discriminate.
    destruct (poolSet batch && negb (workerDisabled batch)).
    + destruct (processPage _ _ _ _ _). now intros [= <-].
    + now intros [= <-].
  - destruct (jobOfSlot (poolObject batch) slotIndex) as [job|]; [|discriminate].
    destruct (QueueJob.id job =? responseJobId message)%nat; [|discriminate].
    now intros [= <-].
  - destruct (jobOfSlot (poolObject batch) slotIndex) as [job|]; [|discriminate].
    now intros [= <-].
  - destruct (lanes batch !! lane) as [[|index|index promise|index| |index|index]|]; try discriminate.
    pose proof (catchFailure_lanes batch) as (_ & Hs & _ & _ & Hc).
    destruct (promiseState (poolObject batch) promise) as [[workerPages|message]|];
      [| |discriminate].
    + set (caught := if previewFails && existsb hasPreviewJpeg workerPages
                     then catchFailure batch else batch).
      assert (Hcaught : completed caught = completed batch /\ stored caught = stored batch).
      { unfold caught. destruct (previewFails && existsb hasPreviewJpeg workerPages); auto. }
      destruct Hcaught as [Hc' Hs'].
      destruct (map encodedOfWorker workerPages) as [|page rest]; intros [= <-] Hinv;
        cbn [setLane storePage completed stored]; rewrite ?length_app; cbn [length];
        rewrite Hc', Hs'; lia.
    + intros [= <-] Hinv. cbn [setLane completed stored]. rewrite Hc, Hs. lia.
  - destruct (lanes batch !! lane) as [[|index|index promise|index| |index|index]|]; try discriminate.
    intros [= <-] Hinv. cbn [storePage completed stored]. rewrite length_app. cbn [length].
    lia.
  - destruct (lanes batch !! lane) as [[|index|index promise|index| |index|index]|]; try discriminate.
    now intros [= <-].
  - destruct (lanes batch !! lane) as [[|index|index promise|index| |index|index]|]; try discriminate.
    now intros [= <-].
  - destruct (joined batch); [discriminate|].
    destruct (allReturned batch || someThrown batch); [|discriminate].
    now intros [= <-].
Qed.

Lemma runEvents_completed (getPageOptions : nat -> ConversionOptions)
    (events : list Event) (batch batch' : Batch) :
  runEvents getPageOptions batch events = Some batch' ->
  completed batch = length (stored batch) ->
  completed batch' = length (stored batch').
Proof.
  revert batch. induction events as [|event rest IH]; intros batch; cbn [runEvents].
  - now intros [= <-].
  - destruct (step getPageOptions batch event) as [next|] eqn:Hstep; [|discriminate].
    intros Hrun Hinv. apply (IH next Hrun). eapply step_completed; eauto.
Qed.

Lemma distinct_below_length (indices : list nat) (bound : nat) :
  NoDup indices -> (forall index, index ∈ indices -> (index < bound)%nat) ->
  (length indices <= bound)%nat.
Proof.
  intros Hnd Hin. rewrite <- (length_seq bound 0) at 1. apply submseteq_length.
  apply NoDup_submseteq; [exact Hnd|]. intros index H. apply elem_of_seq.
  specialize (Hin _ H). lia.
Qed.

(** X9: the progress a batch reports never passes 100%.  In every run of
    the slots of processArchiveSourcePages the counter [completed],
    whose ratio to totalPages is reported after each page, equals the
    number of pages stored so far; it never exceeds totalPages, and it
    is totalPages when all slots have returned. *)
Theorem progress_counts_stored_pages (getPageOptions : nat -> ConversionOptions)
    (totalPages workerPoolSize : nat) (supported : bool)
    (events : list Event) (batch : Batch) :
  (1 <= workerPoolSize)%nat ->
  runEvents getPageOptions (startBatch totalPages workerPoolSize supported) events
    = Some batch ->
  completed batch = length (stored batch) /\
  (completed batch <= totalPages)%nat /\
  (allReturned batch = true -> completed batch = totalPages).
Proof.
  intros Hsize Hrun.
  pose proof (runEvents_completed _ _ _ _ Hrun eq_refl) as Hcount.
  pose proof (startBatch_indexInvariant totalPages workerPoolSize supported Hsize) as Hinv0.
  destruct (runEvents_indexInvariant _ _ _ _ Hinv0 Hrun) as [Hinv Htotal].
  unfold startBatch in Htotal. simpl in Htotal.
  destruct (stored_once _ Hinv) as [Hnd Hrange].
  rewrite Hcount, <- (length_map fst). rewrite <- Htotal.
  refine (conj eq_refl (conj _ _)).
  - now apply distinct_below_length.
  - intros Hall. rewrite (allReturned_stored _ Hinv Hall). apply length_seq.
Qed.

Lemma progress_counts_stored_pages_witness :
  (1 <= 2)%nat /\
  runEvents (fun _ => sampleOptions) (startBatch 3 2 true)
    (sampleFailure ++ [ImageProcessed 1 [pageB; pageC]]) <> None /\
  forall batch,
    runEvents (fun _ => sampleOptions) (startBatch 3 2 true)
      (sampleFailure ++ [ImageProcessed 1 [pageB; pageC]]) = Some batch ->
    completed batch = length (stored batch) /\ (completed batch <= 3)%nat.
Proof.
  assert (Hsize : (1 <= 2)%nat) by lia.
  split; [exact Hsize|]. split; [vm_compute; discriminate|].
  intros batch Hrun.
  destruct (progress_counts_stored_pages (fun _ => sampleOptions) 3 2 true _ batch
              Hsize Hrun) as (H1 & H2 & _).
  exact (conj H1 H2).
Defined.

(** ** The page worker and the in-process fallback *)

Lemma overlapWorkerPages_preview (pageNum rot : Z) (includePreview : bool)
    (segments : list Segment) (idx : nat) (previewAssigned : bool)
    (i : nat) (result : WorkerPageResult) :
  overlapWorkerPages pageNum rot includePreview segments idx previewAssigned !! i
    = Some result ->
  hasPreview result = includePreview && negb previewAssigned && (i =? 0)%nat.
Proof.
  revert idx previewAssigned i.
  induction segments as [|seg rest IH]; intros idx previewAssigned i; [discriminate|].
  cbn [overlapWorkerPages]. destruct i as [|i].
  - intros [= <-]. cbn [buildWorkerPage hasPreview Nat.eqb]. now rewrite andb_true_r.
  - intros Hlook. rewrite (IH _ _ _ Hlook).
    cbn [negb Nat.eqb]. now rewrite !andb_false_r.
Qed.

(** X10: the page worker and the in-process fallback make the same
    pages.  For the same image size, page number and options,
    processBitmap of the worker yields pages with the same names, drawn
    from the same regions with the same rotation, in the same order, as
    processLoadedImage does; and the worker renders a preview for the
    first page only, and only when asked to. *)
Theorem worker_pages_match_fallback (rnd : Q -> Q) (calc : Z -> Z -> list Segment)
    (srcWidth srcHeight pageNum : Z) (options : ConversionOptions)
    (includePreview : bool) :
  let results := processBitmap rnd calc srcWidth srcHeight pageNum options includePreview in
  map workerPage results = processLoadedImage rnd calc srcWidth srcHeight pageNum options /\
  forall i result, results !! i = Some result ->
    hasPreview result = includePreview && (i =? 0)%nat.
Proof.
  intros results. split; [apply processBitmap_pages|].
  unfold results, processBitmap. cbv zeta.
  destruct (orientation options).
  - destruct (_ && _).
    + destruct (String.eqb (splitMode options) "overlap").
      * intros i result Hlook. rewrite (overlapWorkerPages_preview _ _ _ _ _ _ _ _ Hlook).
        cbn [negb]. now rewrite andb_true_r.
      * intros [|[|i]] result; [| |discriminate]; intros [= <-];
          cbn [buildWorkerPage hasPreview negb Nat.eqb];
          now rewrite ?andb_true_r, ?andb_false_r.
    + intros [|i] result; [|discriminate]. intros [= <-].
      cbn [buildWorkerPage hasPreview Nat.eqb]. now rewrite andb_true_r.
  - intros [|i] result; [|discriminate]. intros [= <-].
    cbn [buildWorkerPage hasPreview Nat.eqb]. now rewrite andb_true_r.
Qed.

(** ** The container of the stand-alone converter *)

Lemma writeIndexTable_dims (xtgBlobs : list Bytes) (buffer : Bytes)
    (indexOffset i relOffset k : nat) :
  (k < length xtgBlobs)%nat ->
  (indexOffset + (i + length xtgBlobs) * 16 <= length buffer)%nat ->
  let out := writeIndexTable buffer indexOffset xtgBlobs i relOffset in
  let entryOffset := (indexOffset + (i + k) * 16)%nat in
  getUint16 out (entryOffset + 12) = Z.of_nat TARGET_WIDTH /\
  getUint16 out (entryOffset + 14) = Z.of_nat TARGET_HEIGHT.
Proof.
  revert buffer i relOffset k.
  induction xtgBlobs as [|first rest IH]; intros buffer i relOffset k Hk Hfit;
    cbn [length] in Hk, Hfit; [lia|].
  destruct k as [|k]; cbn [writeIndexTable].
  - replace (indexOffset + (i + 0) * 16)%nat with (indexOffset + i * 16)%nat by lia.
    set (entryOffset := (indexOffset + i * 16)%nat). split.
    + erewrite getUint16_ext; [|intros at_ Hat; peel_writes; reflexivity].
      rewrite getUint16_setUint16 by (autorewrite with buflen; lia). reflexivity.
    + erewrite getUint16_ext; [|intros at_ Hat; peel_writes; reflexivity].
      rewrite getUint16_setUint16 by (autorewrite with buflen; lia). reflexivity.
  - replace (indexOffset + (i + S k) * 16)%nat
      with (indexOffset + (S i + k) * 16)%nat by lia.
    apply IH; [lia|autorewrite with buflen; lia].
Qed.

Lemma byteLength_target (canvasPixels : ProcessedPage -> Bytes) (pages : list ProcessedPage) :
  Z.of_nat (byteLength (map (fun page => imageDataToXtg (getImageData canvasPixels page))
                            pages))
  = 48022 * Z.of_nat (length pages).
Proof.
  induction pages as [|page rest IH]; [reflexivity|].
  cbn [map byteLength length].
  pose proof (target_blob_size canvasPixels page). lia.
Qed.

(** X11: the size and the fixed fields of a container.  For any list of
    pages, empty or not, the container buildXtc makes is
    48 + 48038 * pageCount bytes long (a 48-byte header, a 16-byte index
    entry and a 48022-byte page for each page); it starts with the bytes
    "XTC" and 0 and the version 1; its page-count field holds the count
    modulo 65536; bytes 8 to 23 and the last header field are zero; and
    every index entry carries the dimensions 480 by 800. *)
Theorem buildXtc_size_and_header (canvasPixels : ProcessedPage -> Bytes)
    (pages : list ProcessedPage) :
  let out := buildXtc canvasPixels pages in
  let count := length pages in
  Z.of_nat (length out) = 48 + 48038 * Z.of_nat count /\
  (getUint8 out 0 = 88 /\ getUint8 out 1 = 84 /\ getUint8 out 2 = 67 /\
   getUint8 out 3 = 0) /\
  getUint16 out 4 = 1 /\
  getUint16 out 6 = Z.of_nat count mod 65536 /\
  (forall at_, (8 <= at_ < 24)%nat -> getUint8 out at_ = 0) /\
  getUint64 out 40 = 0 /\
  forall i, (i < count)%nat ->
    getUint16 out (48 + i * 16 + 12) = 480 /\ getUint16 out (48 + i * 16 + 14) = 800.
Proof.
  intros out count.
  set (xtgBlobs := map (fun page => imageDataToXtg (getImageData canvasPixels page)) pages).
  assert (Hcount : length xtgBlobs = count) by apply length_map.
  pose proof (byteLength_target canvasPixels pages) as Hbytes.
  fold xtgBlobs in Hbytes. fold count in Hbytes.
  assert (Hlen : Z.of_nat (length out) = 48 + 48038 * Z.of_nat count).
  { unfold out, buildXtc. fold xtgBlobs. rewrite length_buildXtcFromBlobs. lia. }
  unfold out, buildXtc. fold xtgBlobs. unfold buildXtcFromBlobs.
  rewrite foldl_totalSize, Hcount.
  set (dataOffset := (48 + count * 16)%nat).
  set (size := (dataOffset + byteLength xtgBlobs)%nat).
  assert (Hsize : (48 <= size)%nat) by (unfold size, dataOffset; lia).
  assert (Hframe : forall buffer at_, (at_ < 48)%nat ->
            getUint8 (writePageData (writeIndexTable buffer 48 xtgBlobs 0 dataOffset)
                                    xtgBlobs dataOffset) at_
            = getUint8 buffer at_).
  { intros buffer at_ Hat.
    rewrite getUint8_writePageData_frame by (unfold dataOffset; lia).
    apply writeIndexTable_frame. lia. }
  refine (conj _ (conj (conj _ (conj _ (conj _ _))) (conj _ (conj _ (conj _ (conj _ _)))))).
  - unfold out, buildXtc in Hlen. fold xtgBlobs in Hlen. unfold buildXtcFromBlobs in Hlen.
    rewrite foldl_totalSize, Hcount in Hlen. exact Hlen.
  - rewrite Hframe by lia. peel_writes.
    rewrite getUint8_setUint8_eq by (autorewrite with buflen; lia). reflexivity.
  - rewrite Hframe by lia. peel_writes.
    rewrite getUint8_setUint8_eq by (autorewrite with buflen; lia). reflexivity.
  - rewrite Hframe by lia. peel_writes.
    rewrite getUint8_setUint8_eq by (autorewrite with buflen; lia). reflexivity.
  - rewrite Hframe by lia. peel_writes.
    rewrite getUint8_setUint8_eq by (autorewrite with buflen; lia). reflexivity.
  - erewrite getUint16_ext;
      [|intros at_ Hat; rewrite Hframe by lia; peel_writes; reflexivity].
    rewrite getUint16_setUint16 by (autorewrite with buflen; lia). reflexivity.
  - erewrite getUint16_ext;
      [|intros at_ Hat; rewrite Hframe by lia; peel_writes; reflexivity].
    now rewrite getUint16_setUint16 by (autorewrite with buflen; lia).
  - intros at_ Hat. rewrite Hframe by lia.
    assert (Hzero : forall buffer offset,
              (offset + 8 <= length buffer)%nat ->
              forall j, (offset <= j < offset + 8)%nat ->
                getUint8 (setBigUint64 buffer offset 0) j = 0).
    { intros buffer offset Hfit j Hj. unfold setBigUint64, setUint32.
      cbn [Z.land Z.shiftr]. change (Z.shiftr 0 32) with 0.
      change (0 / 256) with 0. change (0 / 65536) with 0. change (0 / 16777216) with 0.
      assert (Hone : forall b o k, (o < length b)%nat ->
                       getUint8 (setUint8 b o 0) k = if decide (o = k) then 0 else getUint8 b k).
      { intros b o k Ho. destruct (decide (o = k)) as [->|Hne].
        - now rewrite getUint8_setUint8_eq.
        - now rewrite getUint8_setUint8_ne. }
      rewrite !Hone by (autorewrite with buflen; lia).
      repeat (destruct (decide _); [reflexivity|]). lia. }
    destruct (decide (at_ < 16)%nat) as [Hlow|Hhigh].
    + peel_writes.
      destruct (decide (at_ < 12)%nat) as [Hflags|Hword].
      * peel_writes.
        assert (Hcases : at_ = 8%nat \/ at_ = 9%nat \/ at_ = 10%nat \/ at_ = 11%nat) by lia.
        destruct Hcases as [-> | [-> | [-> | ->]]]; peel_writes;
          rewrite getUint8_setUint8_eq by (autorewrite with buflen; lia); reflexivity.
      * unfold setUint32 at 1. change (0 / 256) with 0. change (0 / 65536) with 0.
        change (0 / 16777216) with 0.
        assert (Hcases : at_ = 12%nat \/ at_ = 13%nat \/ at_ = 14%nat \/ at_ = 15%nat) by lia.
        destruct Hcases as [-> | [-> | [-> | ->]]]; cbn [Nat.add]; peel_writes;
          rewrite getUint8_setUint8_eq by (autorewrite with buflen; lia); reflexivity.
    + peel_writes. apply Hzero; [autorewrite with buflen; lia|lia].
  - erewrite getUint64_ext;
      [|intros at_ Hat; rewrite Hframe by lia; peel_writes; reflexivity].
    now rewrite getUint64_setBigUint64 by (autorewrite with buflen; lia).
  - intros i Hi.
    match goal with
    | |- context [writeIndexTable ?b 48 xtgBlobs 0 dataOffset] => set (buffer := b)
    end.
    destruct (writeIndexTable_dims xtgBlobs buffer 48 0 dataOffset i) as [Hw Hh].
    + lia.
    + unfold buffer. autorewrite with buflen. unfold size, dataOffset. lia.
    + cbv zeta in Hw, Hh. change (0 + i)%nat with i in Hw, Hh. split.
      * erewrite getUint16_ext;
          [exact Hw|intros at_ Hat; apply getUint8_writePageData_frame;
                    unfold dataOffset; lia].
      * erewrite getUint16_ext;
          [exact Hh|intros at_ Hat; apply getUint8_writePageData_frame;
                    unfold dataOffset; lia].
Qed.

Lemma standaloneBatch_all_failed (calc : Z -> Z -> list Segment)
    (images : list (option (Z * Z) * string)) (pageNum : Z) :
  Forall (fun image => fst image = None) images ->
  standaloneBatch calc images pageNum = [].
Proof.
  intros Hall. revert pageNum.
  induction Hall as [|[[dims|] mode] rest Hfail Hrest IH]; intros pageNum;
    [reflexivity|discriminate|]. cbn [standaloneBatch]. apply IH.
Qed.

(** X12: an archive whose images all fail to load still converts.  When
    every image of the stand-alone conversion fails to load, no page is
    made and the conversion does not fail: the container is the bare
    48-byte header with page count 0 and a data offset of 48. *)
Theorem conversion_of_unreadable_images (rank : ascii -> N)
    (calc : Z -> Z -> list Segment) (canvasPixels : ProcessedPage -> Bytes)
    (images : list (option (Z * Z) * string)) :
  Forall (fun image => fst image = None) images ->
  let processedPages := standaloneBatch calc images 1 in
  let out := standaloneContainer rank canvasPixels processedPages in
  processedPages = [] /\
  length out = 48%nat /\
  getUint16 out 6 = 0 /\
  getUint64 out 32 = 48.
Proof.
  intros Hall processedPages out.
  assert (Hnone : processedPages = []) by now apply standaloneBatch_all_failed.
  split; [exact Hnone|]. unfold out. rewrite Hnone.
  vm_compute. repeat split.
Qed.

Lemma conversion_of_unreadable_images_witness :
  Forall (fun image => fst image = None) brokenImages /\
  length (standaloneContainer codeUnit whitePixels
            (standaloneBatch noSegments brokenImages 1)) = 48%nat.
Proof.
  assert (Hall : Forall (fun image : option (Z * Z) * string => fst image = None)
                        brokenImages)
    by (repeat constructor).
  split; [exact Hall|].
  exact (proj1 (proj2 (conversion_of_unreadable_images codeUnit noSegments whitePixels
                         brokenImages Hall))).
Defined.

(** ** The page encoder *)

Lemma foldl_insert_lookup (value : nat -> Z) (count k : nat) (init : Bytes) :
  (count <= length init)%nat ->
  foldl (fun acc i => <[i := value i]> acc) init (seq 0 count) !! k
  = if decide (k < count)%nat then Some (value k) else init !! k.
Proof.
  induction count as [|count IH]; intros Hfit.
  - cbn [seq foldl]. destruct (decide (k < 0)%nat); [lia|reflexivity].
  - rewrite seq_S, foldl_app. cbn [foldl Nat.add].
    destruct (decide (k = count)) as [->|Hne].
    + rewrite list_lookup_insert_eq.
      * destruct (decide (count < S count)%nat); [reflexivity|lia].
      * assert (Hlen : forall l (acc : Bytes),
                  length (foldl (fun acc i => <[i := value i]> acc) acc l) = length acc).
        { induction l as [|i l IHl]; intros acc; cbn [foldl]; [reflexivity|].
          now rewrite IHl, length_insert. }
        rewrite Hlen. lia.
    + rewrite list_lookup_insert_ne by lia. rewrite IH by lia.
      destruct (decide (k < count)%nat), (decide (k < S count)%nat); (reflexivity || lia).
Qed.

Lemma md5digestOf_lookup (pixelData : Bytes) (k : nat) :
  (k < 8)%nat -> md5digestOf pixelData !! k = Some (default 0 (pixelData !! k)).
Proof.
  intros Hk. unfold md5digestOf.
  rewrite (foldl_insert_lookup (fun i => default 0 (pixelData !! i)))
    by (rewrite length_newBuffer; lia).
  destruct (decide (k < Nat.min 8 (length pixelData))%nat) as [Hin|Hout]; [reflexivity|].
  rewrite (lookup_ge_None_2 pixelData k) by lia. cbn [default].
  unfold newBuffer. now rewrite lookup_replicate_2.
Qed.

(** X13: the header of an encoded page.  Every XTG blob starts with the
    bytes "XTG" and 0; its width and height fields hold the image's
    dimensions modulo 65536; bytes 8 and 9 are zero; the size field
    holds the body length modulo 2^32; and the eight "digest" bytes at
    14 are no hash, but a copy of the first eight body bytes, zero where
    the body is shorter. *)
Theorem imageDataToXtg_header (imageData : ImageData.t) :
  let out := imageDataToXtg imageData in
  let w := ImageData.width imageData in
  let h := ImageData.height imageData in
  (getUint8 out 0 = 88 /\ getUint8 out 1 = 84 /\ getUint8 out 2 = 71 /\
   getUint8 out 3 = 0) /\
  getUint16 out 4 = Z.of_nat w mod 65536 /\
  getUint16 out 6 = Z.of_nat h mod 65536 /\
  (getUint8 out 8 = 0 /\ getUint8 out 9 = 0) /\
  getUint32 out 10 = Z.of_nat (ceilDiv8 w * h) mod 4294967296 /\
  forall k, (k < 8)%nat -> getUint8 out (14 + k) = getUint8 out (22 + k).
Proof.
  intros out w h. unfold out, imageDataToXtg. fold w h.
  set (pixelData := packPixels w h (ImageData.data imageData)).
  assert (Hbody : length pixelData = (ceilDiv8 w * h)%nat) by apply length_packPixels.
  assert (Hdigest : length (md5digestOf pixelData) = 8%nat) by apply length_md5digestOf.
  assert (Hframe : forall buffer at_, (at_ < 14)%nat ->
            getUint8 (setBytes (setBytes buffer (md5digestOf pixelData) 14)
                               pixelData 22) at_
            = getUint8 buffer at_).
  { intros buffer at_ Hat. rewrite !getUint8_setBytes_ne by lia. reflexivity. }
  refine (conj (conj _ (conj _ (conj _ _)))
               (conj _ (conj _ (conj (conj _ _) (conj _ _))))).
  - rewrite Hframe by lia. peel_writes.
    rewrite getUint8_setUint8_eq by (autorewrite with buflen; lia). reflexivity.
  - rewrite Hframe by lia. peel_writes.
    rewrite getUint8_setUint8_eq by (autorewrite with buflen; lia). reflexivity.
  - rewrite Hframe by lia. peel_writes.
    rewrite getUint8_setUint8_eq by (autorewrite with buflen; lia). reflexivity.
  - rewrite Hframe by lia. peel_writes.
    rewrite getUint8_setUint8_eq by (autorewrite with buflen; lia). reflexivity.
  - erewrite getUint16_ext;
      [|intros at_ Hat; rewrite Hframe by lia; peel_writes; reflexivity].
    now rewrite getUint16_setUint16 by (autorewrite with buflen; lia).
  - erewrite getUint16_ext;
      [|intros at_ Hat; rewrite Hframe by lia; peel_writes; reflexivity].
    now rewrite getUint16_setUint16 by (autorewrite with buflen; lia).
  - rewrite Hframe by lia. peel_writes.
    rewrite getUint8_setUint8_eq by (autorewrite with buflen; lia). reflexivity.
  - rewrite Hframe by lia. peel_writes.
    rewrite getUint8_setUint8_eq by (autorewrite with buflen; lia). reflexivity.
  - erewrite getUint32_ext; [|intros at_ Hat; rewrite Hframe by lia; reflexivity].
    rewrite getUint32_setUint32 by (autorewrite with buflen; lia). now rewrite Hbody.
  - intros k Hk.
    match goal with
    | |- context [setBytes ?b (md5digestOf pixelData) 14] => set (buffer := b)
    end.
    assert (Hlen : length buffer = (22 + length pixelData)%nat)
      by (unfold buffer; now autorewrite with buflen).
    rewrite (getUint8_setBytes_ne _ pixelData 22 (14 + k)) by lia.
    assert (Hcopy : getUint8 (setBytes buffer (md5digestOf pixelData) 14) (14 + k)
                    = default 0 (pixelData !! k)).
    { unfold getUint8.
      rewrite (lookup_setBytes_in buffer (md5digestOf pixelData) 14 k) by lia.
      now rewrite md5digestOf_lookup by exact Hk. }
    rewrite Hcopy. unfold getUint8.
    destruct (decide (k < length pixelData)%nat) as [Hin|Hout].
    + now rewrite (lookup_setBytes_in _ pixelData 22 k)
        by (autorewrite with buflen; lia).
    + rewrite (lookup_ge_None_2 pixelData k) by lia.
      rewrite (lookup_ge_None_2 _ (22 + k)); [reflexivity|].
      autorewrite with buflen. lia.
Qed.

Lemma foldl_ext_in {A B : Type} (f g : A -> B -> A) (l : list B) (a : A) :
  (forall acc x, x ∈ l -> f acc x = g acc x) -> foldl f a l = foldl g a l.
Proof.
  revert a. induction l as [|x l IH]; intros a Hext; [reflexivity|]. cbn [foldl].
  rewrite (Hext a x) by now left. apply IH. intros acc y Hy. apply Hext. now right.
Qed.

Lemma packPixels_ext (w h : nat) (data data' : Bytes) :
  (forall x y, (x < w)%nat -> (y < h)%nat ->
     redAtLeast128 w data y x = redAtLeast128 w data' y x) ->
  packPixels w h data = packPixels w h data'.
Proof.
  intros Hred. unfold packPixels. apply foldl_ext_in. intros rows y Hy.
  apply elem_of_seq in Hy. unfold packRow. apply foldl_ext_in. intros acc x Hx.
  apply elem_of_seq in Hx. unfold packPixel.
  specialize (Hred x y ltac:(lia) ltac:(lia)). unfold redAtLeast128 in Hred.
  now rewrite Hred.
Qed.

(** X14: the page encoder reads the red channel only, and only whether
    it is at least 128.  Two images of the same size whose pixels agree
    on that encode to the same bytes, whatever their green, blue and
    alpha bytes are. *)
Theorem imageDataToXtg_reads_red_only (w h : nat) (data data' : Bytes) :
  (forall x y, (x < w)%nat -> (y < h)%nat ->
     redAtLeast128 w data y x = redAtLeast128 w data' y x) ->
  imageDataToXtg (ImageData.mk w h data) = imageDataToXtg (ImageData.mk w h data').
Proof.
  intros Hred. unfold imageDataToXtg. cbn [ImageData.width ImageData.height ImageData.data].
  now rewrite (packPixels_ext w h data data' Hred).
Qed.

Lemma imageDataToXtg_reads_red_only_witness :
  imageDataToXtg sampleImage = imageDataToXtg recolouredImage.
Proof.
  apply (imageDataToXtg_reads_red_only 10 2).
  intros x y Hx Hy.
  do 10 (destruct x as [|x];
         [do 2 (destruct y as [|y]; [vm_compute; reflexivity|]); lia|]).
  lia.
Defined.

(** ** The cover and its path *)

Lemma moveCoverToFront_cases (imageFiles : list ImageFile) (metadata : BookMetadata) :
  moveCoverToFront imageFiles metadata = imageFiles \/
  exists coverIndex cover,
    (0 < coverIndex)%nat /\ imageFiles !! coverIndex = Some cover /\
    moveCoverToFront imageFiles metadata
    = cover :: take coverIndex imageFiles ++ drop (S coverIndex) imageFiles.
Proof.
  unfold moveCoverToFront. destruct (length imageFiles <? 2)%nat; [now left|].
  cbv zeta.
  match goal with
  | |- context [if 0 <? ?c then _ else _] => generalize c
  end.
  intros coverIndex. destruct (Z.ltb_spec 0 coverIndex) as [Hpos|Hnot]; [|now left].
  unfold spliceToFront.
  destruct (imageFiles !! Z.to_nat coverIndex) as [cover|] eqn:Hcover; [|now left].
  right. exists (Z.to_nat coverIndex), cover. repeat split; [lia|exact Hcover].
Qed.

Lemma originalPages_assigned (imageFiles : list ImageFile) (index : Z) :
  map originalPage (assignOriginalPagesFrom imageFiles index)
  = map (fun j => index + Z.of_nat j) (seq 1 (length imageFiles)).
Proof.
  revert index. induction imageFiles as [|file rest IH]; intros index; [reflexivity|].
  cbn [assignOriginalPagesFrom map length seq originalPage]. f_equal; try lia.
  rewrite IH, <- (seq_shift (length rest) 1), map_map. apply map_ext. intros j. lia.
Qed.

(** X15: moving the cover to the front loses no page.  For any list of
    image files and any metadata, moveCoverToFront returns the same
    files, either unchanged or with one file from a later position put
    first and the others in their order; and in an archive conversion
    the original page numbers of the files in processing order are
    1 to the number of files, each exactly once. *)
Theorem moveCoverToFront_keeps_pages (imageFiles sortedFiles : list ImageFile)
    (metadata : BookMetadata) :
  moveCoverToFront imageFiles metadata ≡ₚ imageFiles /\
  (moveCoverToFront imageFiles metadata = imageFiles \/
   exists coverIndex cover,
     (0 < coverIndex)%nat /\ imageFiles !! coverIndex = Some cover /\
     moveCoverToFront imageFiles metadata
     = cover :: take coverIndex imageFiles ++ drop (S coverIndex) imageFiles) /\
  map originalPage (archiveProcessingOrder sortedFiles metadata)
    ≡ₚ map Z.of_nat (seq 1 (length sortedFiles)) /\
  map path (archiveProcessingOrder sortedFiles metadata) ≡ₚ map path sortedFiles.
Proof.
  assert (Hperm : forall files, moveCoverToFront files metadata ≡ₚ files).
  { intros files. destruct (moveCoverToFront_cases files metadata)
      as [->|(coverIndex & cover & _ & Hcover & ->)]; [reflexivity|].
    rewrite <- (take_drop_middle files coverIndex cover Hcover) at 3.
    apply Permutation_middle. }
  split; [apply Hperm|]. split; [apply moveCoverToFront_cases|].
  unfold archiveProcessingOrder, assignOriginalPages. rewrite !Hperm. split.
  - rewrite originalPages_assigned. reflexivity.
  - clear. generalize 0. induction sortedFiles as [|file rest IH]; intros index;
      [reflexivity|]. cbn [assignOriginalPagesFrom map path]. now rewrite IH.
Qed.

Lemma length_append_string (a b : string) :
  String.length (a +:+ b) = (String.length a + String.length b)%nat.
Proof.
  induction a as [|c a IH]; [now rewrite append_nil|].
  rewrite append_cons. cbn [String.length]. now rewrite IH.
Qed.

Lemma substring_all (s : string) : substring 0 (String.length s) s = s.
Proof. induction s as [|c s IH]; [reflexivity|]. cbn [String.length substring]. now rewrite IH. Qed.

Lemma substring_skip (pre rest : string) :
  substring (String.length pre) (String.length rest) (pre +:+ rest) = rest.
Proof.
  induction pre as [|c pre IH]; [rewrite append_nil; apply substring_all|].
  rewrite append_cons. cbn [String.length substring]. exact IH.
Qed.

Lemma lastIndexOfFrom_spec (ch : ascii) (s : string) (i found : Z) :
  (occursIn ch s = false /\ lastIndexOfFrom ch s i found = found) \/
  (exists pre post,
     s = (pre +:+ String ch post)%string /\ occursIn ch post = false /\
     lastIndexOfFrom ch s i found = i + Z.of_nat (String.length pre)).
Proof.
  revert i found. induction s as [|c r IH]; intros i found; [now left|].
  cbn [lastIndexOfFrom occursIn].
  destruct (IH (i + 1) (if Ascii.eqb c ch then i else found))
    as [[Hnone ->]|(pre & post & -> & Hpost & ->)].
  - destruct (Ascii.eqb_spec c ch) as [->|Hne].
    + right. exists EmptyString, r. rewrite append_nil. cbn [String.length].
      repeat split; [exact Hnone|lia].
    + left. now rewrite Hnone.
  - right. exists (String c pre), post. rewrite append_cons. cbn [String.length].
    repeat split; [exact Hpost|lia].
Qed.

(** X16: getBaseName returns what follows the last slash.  Every path is
    its directory part followed by its base name, where the base name
    contains no slash and the directory part is empty or ends with a
    slash; a path without a slash is its own base name. *)
Theorem getBaseName_splits_path (path : string) :
  exists dir,
    path = (dir +:+ getBaseName path)%string /\
    occursIn "/" (getBaseName path) = false /\
    (dir = EmptyString \/ exists parent, dir = (parent +:+ "/")%string) /\
    (occursIn "/" path = false -> getBaseName path = path).
Proof.
  unfold getBaseName, lastIndexOf.
  destruct (lastIndexOfFrom_spec "/" path 0 (-1))
    as [[Hnone ->]|(pre & post & -> & Hpost & ->)].
  - exists EmptyString. rewrite append_nil. cbn. auto.
  - destruct (Z.ltb_spec (0 + Z.of_nat (String.length pre)) 0) as [Hneg|_]; [lia|].
    assert (Hslice : slice (pre +:+ String "/" post)
                           (0 + Z.of_nat (String.length pre) + 1) = post).
    { unfold slice.
      assert (Hdir : (pre +:+ String "/" post)%string = ((pre +:+ "/") +:+ post)%string).
      { rewrite app_assoc_string. now rewrite append_cons, append_nil. }
      assert (Hstart : Z.to_nat (0 + Z.of_nat (String.length pre) + 1)
                       = String.length (pre +:+ "/")).
      { rewrite length_append_string. cbn [String.length]. lia. }
      rewrite Hstart, Hdir.
      set (dir := (pre +:+ "/")%string).
      rewrite (length_append_string dir post).
      replace (String.length dir + String.length post - String.length dir)%nat
        with (String.length post) by lia.
      apply substring_skip. }
    rewrite Hslice. exists (pre +:+ "/")%string.
    repeat split.
    + rewrite app_assoc_string. now rewrite append_cons, append_nil.
    + exact Hpost.
    + right. now exists pre.
    + intros Hnone. exfalso. clear -Hnone.
      induction pre as [|c pre IH].
      * rewrite append_nil in Hnone. discriminate.
      * rewrite append_cons in Hnone. cbn [occursIn] in Hnone.
        apply orb_false_iff in Hnone as [_ Hnone]. now apply IH.
Qed.

Lemma lowerChar_spec (c : ascii) :
  isUpperCase (lowerChar c) = false /\
  (lowerChar c = "/"%char <-> c = "/"%char) /\
  (lowerChar c = "."%char <-> c = "."%char) /\
  (lowerChar c = "\"%char <-> c = "\"%char).
Proof.
  destruct c as [[] [] [] [] [] [] [] []]; vm_compute;
    (split; [reflexivity|]); repeat split; intros H; (reflexivity || discriminate H).
Qed.

Lemma toLowerCase_stripLeadingSlashes (s : string) :
  toLowerCase (stripLeadingSlashes s) = stripLeadingSlashes (toLowerCase s).
Proof.
  induction s as [|c r IH]; [reflexivity|].
  destruct (Ascii.eqb_spec c "/") as [->|Hne].
  - exact IH.
  - assert (Hlow : lowerChar c <> "/"%char).
    { intros H. now apply (lowerChar_spec c) in H. }
    transitivity (toLowerCase (String c r)).
    + f_equal. cbn [stripLeadingSlashes].
      destruct c as [[] [] [] [] [] [] [] []]; (reflexivity || contradiction).
    + cbn [toLowerCase stripLeadingSlashes].
      destruct (lowerChar c) as [[] [] [] [] [] [] [] []]; (reflexivity || contradiction).
Qed.

Lemma toLowerCase_stripDotSlash (s : string) :
  toLowerCase (stripDotSlash s) = stripDotSlash (toLowerCase s).
Proof.
  destruct s as [|c [|d r]].
  - reflexivity.
  - cbn [toLowerCase stripDotSlash].
    destruct c as [[] [] [] [] [] [] [] []]; reflexivity.
  - destruct (Ascii.eqb_spec c "."), (Ascii.eqb_spec d "/"); subst.
    + reflexivity.
    + assert (Hd : lowerChar d <> "/"%char)
        by (intros H; now apply (lowerChar_spec d) in H).
      transitivity (toLowerCase (String "." (String d r))).
      * f_equal. cbn [stripDotSlash].
        destruct d as [[] [] [] [] [] [] [] []]; (reflexivity || contradiction).
      * cbn [toLowerCase stripDotSlash]. change (lowerChar ".") with "."%char.
        destruct (lowerChar d) as [[] [] [] [] [] [] [] []]; (reflexivity || contradiction).
    + assert (Hc : lowerChar c <> "."%char)
        by (intros H; now apply (lowerChar_spec c) in H).
      transitivity (toLowerCase (String c (String "/" r))).
      * f_equal. cbn [stripDotSlash].
        destruct c as [[] [] [] [] [] [] [] []]; (reflexivity || contradiction).
      * cbn [toLowerCase stripDotSlash].
        destruct (lowerChar c) as [[] [] [] [] [] [] [] []]; (reflexivity || contradiction).
    + assert (Hc : lowerChar c <> "."%char)
        by (intros H; now apply (lowerChar_spec c) in H).
      transitivity (toLowerCase (String c (String d r))).
      * f_equal. cbn [stripDotSlash].
        destruct c as [[] [] [] [] [] [] [] []]; (reflexivity || contradiction).
      * cbn [toLowerCase stripDotSlash].
        destruct (lowerChar c) as [[] [] [] [] [] [] [] []]; (reflexivity || contradiction).
Qed.

Lemma normalizeArchivePath_lowered (path : string) :
  normalizeArchivePath path
  = stripLeadingSlashes (stripDotSlash (toLowerCase (replaceBackslashes path))).
Proof.
  unfold normalizeArchivePath.
  now rewrite toLowerCase_stripLeadingSlashes, toLowerCase_stripDotSlash.
Qed.

Lemma occursIn_stripLeadingSlashes (ch : ascii) (s : string) :
  occursIn ch s = false -> occursIn ch (stripLeadingSlashes s) = false.
Proof.
  induction s as [|c r IH]; [auto|]. intros H. cbn [occursIn] in H.
  apply orb_false_iff in H as [Hc Hr].
  assert (Hkeep : occursIn ch (String c r) = false) by (cbn [occursIn]; now rewrite Hc, Hr).
  cbn [stripLeadingSlashes].
  destruct c as [[] [] [] [] [] [] [] []]; (exact Hkeep || now apply IH).
Qed.

Lemma occursIn_stripDotSlash (ch : ascii) (s : string) :
  occursIn ch s = false -> occursIn ch (stripDotSlash s) = false.
Proof.
  intros H. destruct s as [|c [|d r]]; [exact H| |].
  - cbn [stripDotSlash]. destruct c as [[] [] [] [] [] [] [] []]; exact H.
  - assert (Hr : occursIn ch r = false).
    { cbn [occursIn] in H. apply orb_false_iff in H as [_ H].
      now apply orb_false_iff in H as [_ H]. }
    cbn [stripDotSlash].
    destruct c as [[] [] [] [] [] [] [] []]; try exact H;
      destruct d as [[] [] [] [] [] [] [] []]; (exact H || exact Hr).
Qed.

Lemma stripLeadingSlashes_head (s rest : string) :
  stripLeadingSlashes s <> String "/" rest.
Proof.
  induction s as [|c r IH]; [discriminate|]. cbn [stripLeadingSlashes].
  destruct (Ascii.eqb_spec c "/") as [->|Hne]; [exact IH|].
  destruct c as [[] [] [] [] [] [] [] []]; congruence.
Qed.

(** X17: the normal form of an archive path.  A normalized path has no
    backslash and no upper-case ASCII letter and does not start with a
    slash; and normalizing depends only on the path with its backslashes
    turned to slashes and its letters lowered: two paths that differ
    only in letter case and in the direction of their slashes normalize
    to the same path, so that the cover is found whichever way the
    metadata spells its path. *)
Theorem normalizeArchivePath_normal_form (path other : string) :
  toLowerCase (replaceBackslashes path) = toLowerCase (replaceBackslashes other) ->
  normalizeArchivePath path = normalizeArchivePath other /\
  occursIn "\" (normalizeArchivePath path) = false /\
  hasUpperCase (normalizeArchivePath path) = false /\
  forall rest, normalizeArchivePath path <> String "/" rest.
Proof.
  intros Hsame. split; [now rewrite !normalizeArchivePath_lowered, Hsame|].
  split; [|split].
  - rewrite normalizeArchivePath_lowered.
    apply occursIn_stripLeadingSlashes, occursIn_stripDotSlash.
    clear Hsame. induction path as [|c r IH]; [reflexivity|].
    cbn [replaceBackslashes toLowerCase occursIn]. rewrite IH, orb_false_r.
    destruct (Ascii.eqb_spec c "\") as [->|Hne]; [reflexivity|].
    apply Ascii.eqb_neq. intros H. now apply (lowerChar_spec c) in H.
  - unfold normalizeArchivePath.
    generalize (stripLeadingSlashes (stripDotSlash (replaceBackslashes path))).
    intros s. induction s as [|c r IH]; [reflexivity|].
    cbn [toLowerCase hasUpperCase]. rewrite IH, orb_false_r. apply lowerChar_spec.
  - intros rest. rewrite normalizeArchivePath_lowered. apply stripLeadingSlashes_head.
Qed.

Lemma normalizeArchivePath_normal_form_witness :
  normalizeArchivePath "./Vol1\Page 01.JPG" = normalizeArchivePath "./vol1/page 01.jpg".
Proof.
  apply (normalizeArchivePath_normal_form "./Vol1\Page 01.JPG" "./vol1/page 01.jpg").
  vm_compute. reflexivity.
Defined.

Lemma findIndexFrom_none {A : Type} (p : A -> bool) (l : list A) (i : Z) :
  (forall a, a ∈ l -> p a = false) -> findIndexFrom p l i = -1.
Proof.
  revert i. induction l as [|a r IH]; intros i Hnone; [reflexivity|].
  cbn [findIndexFrom]. rewrite (Hnone a) by now left.
  apply IH. intros b Hb. apply Hnone. now right.
Qed.

(** X18: the cover is found by its path when no page number selects it.
    With at least two files, no file numbered as the metadata's cover
    page (or no cover page at all) and a non-empty cover path, the file
    moved to the front is the first whose normalized path equals the
    normalized cover path; when no file's path does, it is the first
    whose normalized path has the same base name.  The other files keep
    their order. *)
Theorem cover_found_by_path (imageFiles : list ImageFile) (metadata : BookMetadata)
    (coverPath : string) (coverIndex : nat) (cover : ImageFile) :
  (2 <= length imageFiles)%nat ->
  (forall file, file ∈ imageFiles ->
     strictEqualsPage (originalPage file) (coverPage metadata) = false) ->
  coverImagePath metadata = Some coverPath -> coverPath <> EmptyString ->
  imageFiles !! coverIndex = Some cover ->
  let target := normalizeArchivePath coverPath in
  let samePath file := String.eqb (normalizeArchivePath (path file)) target in
  let sameName file :=
    String.eqb (getBaseName (normalizeArchivePath (path file))) (getBaseName target) in
  (samePath cover = true /\
   (forall j file, (j < coverIndex)%nat -> imageFiles !! j = Some file ->
      samePath file = false)) \/
  ((forall file, file ∈ imageFiles -> samePath file = false) /\
   sameName cover = true /\
   (forall j file, (j < coverIndex)%nat -> imageFiles !! j = Some file ->
      sameName file = false)) ->
  moveCoverToFront imageFiles metadata
  = cover :: take coverIndex imageFiles ++ drop (S coverIndex) imageFiles.
Proof.
  intros Hlen Hpage Hpath Hnonempty Hcover target samePath sameName Hfound.
  assert (Hfirst : Z.of_nat coverIndex <> -1) by lia.
  unfold moveCoverToFront.
  destruct (Nat.ltb_spec (length imageFiles) 2) as [|_]; [lia|]. cbv zeta.
  assert (Hnumber :
            (if isInteger (coverPage metadata) && isPositive (coverPage metadata)
             then findIndex (fun file => strictEqualsPage (originalPage file)
                                           (coverPage metadata)) imageFiles
             else -1) = -1).
  { destruct (_ && _); [|reflexivity]. now apply findIndexFrom_none. }
  rewrite Hnumber, Hpath. change (default EmptyString (Some coverPath)) with coverPath.
  fold target. rewrite Z.eqb_refl. cbn [truthy andb].
  destruct (String.eqb_spec coverPath "") as [|_]; [contradiction|]. cbn [negb].
  assert (Hindex :
            (if findIndex (fun file => String.eqb (normalizeArchivePath (path file)) target)
                          imageFiles =? -1
             then findIndex (fun file =>
                               String.eqb (getBaseName (normalizeArchivePath (path file)))
                                          (getBaseName target)) imageFiles
             else findIndex (fun file => String.eqb (normalizeArchivePath (path file)) target)
                            imageFiles)
            = Z.of_nat coverIndex).
  { unfold findIndex. destruct Hfound as [[Hsame Hearlier]|(Hnone & Hsame & Hearlier)].
    - rewrite (findIndexFrom_first
                 (fun file => String.eqb (normalizeArchivePath (path file)) target)
                 imageFiles 0 coverIndex cover Hcover Hsame Hearlier).
      destruct (Z.eqb_spec (0 + Z.of_nat coverIndex) (-1)); lia.
    - rewrite (findIndexFrom_none
                 (fun file => String.eqb (normalizeArchivePath (path file)) target)
                 imageFiles 0 Hnone). rewrite Z.eqb_refl.
      rewrite (findIndexFrom_first
                 (fun file => String.eqb (getBaseName (normalizeArchivePath (path file)))
                                         (getBaseName target))
                 imageFiles 0 coverIndex cover Hcover Hsame Hearlier).
      lia. }
  rewrite Hindex. destruct (Z.ltb_spec 0 (Z.of_nat coverIndex)) as [Hpos|Hzero].
  - unfold spliceToFront. now rewrite Nat2Z.id, Hcover.
  - assert (coverIndex = 0%nat) as -> by lia.
    destruct imageFiles as [|first rest]; [discriminate|].
    injection Hcover as ->. reflexivity.
Qed.

Lemma cover_found_by_path_witness :
  moveCoverToFront folderFiles coverByPath
  = folderFile 5 :: take 4 folderFiles ++ drop 5 folderFiles.
Proof.
  apply (cover_found_by_path folderFiles coverByPath ".\SCANS\0005.JPG" 4 (folderFile 5)).
  - vm_compute. lia.
  - intros file Hin. reflexivity.
  - reflexivity.
  - discriminate.
  - reflexivity.
  - right. split; [|split].
    + intros file Hin. unfold folderFiles in Hin. cbn [seq map] in Hin.
      repeat (apply elem_of_cons in Hin as [->|Hin]; [vm_compute; reflexivity|]).
      now apply elem_of_nil in Hin.
    + vm_compute. reflexivity.
    + intros j file Hj. do 4 (destruct j as [|j]; [intros [= <-]; vm_compute; reflexivity|]).
      lia.
Defined.

(** ** Selecting the images of an archive *)

Lemma lastIndexOfFrom_toLowerCase (s : string) (i found : Z) :
  lastIndexOfFrom "." (toLowerCase s) i found = lastIndexOfFrom "." s i found.
Proof.
  revert i found. induction s as [|c r IH]; intros i found; [reflexivity|].
  cbn [toLowerCase lastIndexOfFrom]. rewrite IH. f_equal.
  destruct (Ascii.eqb_spec c ".") as [->|Hne]; [reflexivity|].
  destruct (Ascii.eqb_spec (lowerChar c) ".") as [Hlow|]; [|reflexivity].
  now apply (lowerChar_spec c) in Hlow.
Qed.

Lemma endsWith_absent (ch : ascii) (s t : string) :
  occursIn ch s = false -> endsWith s (String ch t) = false.
Proof.
  induction s as [|c r IH]; [reflexivity|]. cbn [occursIn endsWith].
  intros H. apply orb_false_iff in H as [Hc Hr]. rewrite (IH Hr), orb_false_r.
  cbn [String.eqb]. now rewrite Hc.
Qed.

Lemma occursIn_append (ch : ascii) (pre post : string) :
  occursIn ch (pre +:+ String ch post) = true.
Proof.
  induction pre as [|c pre IH].
  - rewrite append_nil. cbn [occursIn]. now rewrite Ascii.eqb_refl.
  - rewrite append_cons. cbn [occursIn]. now rewrite IH, orb_true_r.
Qed.

Lemma endsWith_last (ch : ascii) (pre post t : string) :
  occursIn ch post = false -> occursIn ch t = false ->
  endsWith (pre +:+ String ch post) (String ch t) = String.eqb post t.
Proof.
  intros Hpost Ht. induction pre as [|c pre IH].
  - rewrite append_nil. cbn [endsWith String.eqb]. rewrite Ascii.eqb_refl.
    now rewrite (endsWith_absent ch post t Hpost), orb_false_r.
  - rewrite append_cons. cbn [endsWith]. rewrite IH.
    destruct (String.eqb_spec (String c (pre +:+ String ch post)) (String ch t))
      as [Heq|_]; [|reflexivity].
    injection Heq as _ Heq. rewrite <- Heq in Ht.
    now rewrite occursIn_append in Ht.
Qed.

(** The extension test of the source is a test on the end of the
    lowered path. *)
Lemma includes_extensionOf (relativePath : string) :
  includes imageExtensions (extensionOf relativePath)
  = existsb (endsWith (toLowerCase relativePath)) imageExtensions.
Proof.
  unfold extensionOf, lastIndexOf. rewrite <- lastIndexOfFrom_toLowerCase.
  generalize (toLowerCase relativePath). intros s.
  destruct (lastIndexOfFrom_spec "." s 0 (-1))
    as [[Hnone ->]|(pre & post & -> & Hpost & ->)].
  - unfold substringFrom, slice. cbn [Z.max Z.to_nat].
    rewrite Nat.sub_0_r, substring_all.
    unfold includes, imageExtensions. cbn [existsb].
    rewrite !(endsWith_absent "." s _ Hnone).
    destruct s as [|c r]; [reflexivity|]. cbn [occursIn] in Hnone.
    apply orb_false_iff in Hnone as [Hc _]. cbn [String.eqb]. now rewrite Hc.
  - assert (Hext : substringFrom (pre +:+ String "." post)
                                 (0 + Z.of_nat (String.length pre)) = String "." post).
    { unfold substringFrom, slice.
      replace (Z.to_nat (Z.max 0 (0 + Z.of_nat (String.length pre))))
        with (String.length pre) by lia.
      rewrite length_append_string.
      replace (String.length pre + String.length (String "." post) - String.length pre)%nat
        with (String.length (String "." post)) by lia.
      apply substring_skip. }
    rewrite Hext. unfold includes, imageExtensions. cbn [existsb].
    rewrite !(endsWith_last "." pre post) by (exact Hpost || reflexivity).
    cbn [String.eqb]. now rewrite Ascii.eqb_refl.
Qed.

Lemma visitEntry_images (found : list ImageFile * option nat) (archiveEntry : ArchiveEntry) :
  map path (fst (visitEntry found archiveEntry))
  = map path (fst found)
    ++ (if isImageEntry archiveEntry then [relativePath archiveEntry] else []).
Proof.
  destruct found as [imageFiles comicInfoEntry]. unfold visitEntry, isImageEntry.
  destruct (dir archiveEntry); cbn [negb andb fst]; [now rewrite app_nil_r|].
  destruct (startsWith _ "__macos"); cbn [negb andb fst]; [now rewrite app_nil_r|].
  cbv zeta. rewrite includes_extensionOf.
  destruct (existsb _ imageExtensions); cbn [fst].
  - now rewrite map_app.
  - now rewrite app_nil_r.
Qed.

Lemma scanArchive_images (entries : list ArchiveEntry) :
  map path (fst (scanArchive entries))
  = map relativePath (List.filter isImageEntry entries).
Proof.
  unfold scanArchive.
  assert (Hgen : forall found,
            map path (fst (foldl visitEntry found entries))
            = map path (fst found) ++ map relativePath (List.filter isImageEntry entries)).
  { induction entries as [|archiveEntry rest IH]; intros found; cbn [foldl List.filter map].
    - now rewrite app_nil_r.
    - rewrite IH, visitEntry_images, <- app_assoc. f_equal.
      now destruct (isImageEntry archiveEntry). }
  now rewrite Hgen.
Qed.

(** X19: which entries of an archive become pages.  The image files
    collected from an archive are, in archive order, the entries that
    are not directories, whose path does not start with "__macos" and
    ends with .jpg, .jpeg, .png, .gif, .bmp or .webp, letter case
    ignored.  The conversion fails with "No images found in CBZ"
    exactly when there is no such entry; otherwise its files are these
    entries, each once, in the order the platform's collation gives
    them, and they are numbered 1, 2, ... along that order.  Paths are
    strings of ASCII characters, whose lower-case form keeps every
    position. *)
Theorem archive_images_selected (collate : string -> string -> comparison)
    (entries : list ArchiveEntry) :
  let selected := map relativePath (List.filter isImageEntry entries) in
  map path (fst (scanArchive entries)) = selected /\
  (prepareImageFiles collate entries = inl "No images found in CBZ"%string
   <-> selected = []) /\
  forall imageFiles,
    prepareImageFiles collate entries = inr imageFiles ->
    map path imageFiles ≡ₚ selected /\
    map originalPage imageFiles = map Z.of_nat (seq 1 (length selected)).
Proof.
  intros selected. pose proof (scanArchive_images entries) as Hscan. fold selected in Hscan.
  split; [exact Hscan|].
  unfold prepareImageFiles. cbv zeta.
  set (compare := fun a b : ImageFile => collate (path a) (path b)).
  set (sorted := sortBy compare (fst (scanArchive entries))).
  assert (Hperm : sorted ≡ₚ fst (scanArchive entries)) by apply sortBy_Permutation.
  assert (Hpaths : map path (assignOriginalPages sorted) = map path sorted).
  { unfold assignOriginalPages. generalize 0. generalize sorted. intros files.
    induction files as [|file rest IH]; intros index; [reflexivity|].
    cbn [assignOriginalPagesFrom map path]. now rewrite IH. }
  assert (Hlen : length (assignOriginalPages sorted) = length selected).
  { unfold assignOriginalPages. rewrite length_assignOriginalPagesFrom.
    rewrite (Permutation_length Hperm), <- Hscan. now rewrite length_map. }
  split.
  - destruct (Nat.eqb_spec (length (assignOriginalPages sorted)) 0) as [Hzero|Hpos].
    + split; [|reflexivity]. intros _. apply length_zero_iff_nil. lia.
    + split; [discriminate|]. intros Hnil. rewrite Hnil in Hlen. cbn in Hlen. lia.
  - intros imageFiles.
    destruct (Nat.eqb_spec (length (assignOriginalPages sorted)) 0) as [|_];
      [discriminate|].
    intros [= <-]. split.
    + rewrite Hpaths, <- Hscan. now apply Permutation_map.
    + unfold assignOriginalPages. rewrite originalPages_assigned.
      rewrite (Permutation_length Hperm), <- (length_map path), Hscan.
      apply map_ext. intros j. lia.
Qed.

(** * Further properties of the page geometry *)

Lemma Qfloor_bounds (q : Q) (lo hi : Z) :
  (inject_Z lo <= q)%Q -> (q < inject_Z hi)%Q -> lo <= Qfloor q < hi.
Proof.
  intros Hlo Hhi. split.
  - rewrite <- (Qfloor_Z lo). now apply Qfloor_resp_le.
  - pose proof (Qfloor_le q) as Hfl. rewrite Zlt_Qlt. lra.
Qed.

(** X20: a resized page lies inside the target.  For a canvas of at
    least one pixel each way and any rounding of relative error up to
    1/2000, the rectangle resizeWithPadding draws the page into lies
    inside the 480 by 800 target, is centred up to one pixel, and
    reaches across the target on one axis up to one pixel: at least 479
    wide or at least 799 high. *)
Theorem resized_page_fits (rnd : Q -> Q) (canvasWidth canvasHeight : Z) :
  closeRounding rnd -> 1 <= canvasWidth -> 1 <= canvasHeight ->
  exists placement,
    resizeWithPadding rnd canvasWidth canvasHeight = Some placement /\
    0 <= dx placement /\ 0 <= dy placement /\
    0 <= dWidth placement /\ 0 <= dHeight placement /\
    dx placement + dWidth placement <= 480 /\
    dy placement + dHeight placement <= 800 /\
    (479 <= dWidth placement \/ 799 <= dHeight placement) /\
    0 <= 480 - dWidth placement - 2 * dx placement <= 1 /\
    0 <= 800 - dHeight placement - 2 * dy placement <= 1.
Proof.
  intros Hrnd Hw Hh. unfold resizeWithPadding.
  destruct (Z.leb_spec canvasWidth 0) as [|_]; [lia|].
  destruct (Z.leb_spec canvasHeight 0) as [|_]; [lia|].
  cbn [orb]. eexists. split; [reflexivity|]. cbn [dx dy dWidth dHeight].
  change (Z.of_nat TARGET_WIDTH) with 480. change (Z.of_nat TARGET_HEIGHT) with 800.
  set (w := inject_Z canvasWidth). set (h := inject_Z canvasHeight).
  assert (Hwq : (1 <= w)%Q) by (unfold w; change 1%Q with (inject_Z 1); now rewrite <- Zle_Qle).
  assert (Hhq : (1 <= h)%Q) by (unfold h; change 1%Q with (inject_Z 1); now rewrite <- Zle_Qle).
  assert (Hqw : (w * (inject_Z 480 / w) == inject_Z 480)%Q) by (field; lra).
  assert (Hqh : (h * (inject_Z 800 / h) == inject_Z 800)%Q) by (field; lra).
  assert (Hpw : (0 <= inject_Z 480 / w)%Q).
  { apply Qle_shift_div_l; [lra|]. rewrite Qmult_0_l. now compute. }
  assert (Hph : (0 <= inject_Z 800 / h)%Q).
  { apply Qle_shift_div_l; [lra|]. rewrite Qmult_0_l. now compute. }
  destruct (Hrnd _ Hpw) as [Ha1 Ha2]. destruct (Hrnd _ Hph) as [Hb1 Hb2].
  set (a := rnd (inject_Z 480 / w)%Q) in *. set (b := rnd (inject_Z 800 / h)%Q) in *.
  set (scale := Qmin a b).
  assert (Hsa : (scale <= a)%Q) by apply Q.le_min_l.
  assert (Hsb : (scale <= b)%Q) by apply Q.le_min_r.
  assert (Hs0 : (0 <= scale)%Q) by (apply Q.min_glb; lra).
  assert (Hws : (0 <= w * scale)%Q) by nra.
  assert (Hhs : (0 <= h * scale)%Q) by nra.
  destruct (Hrnd _ Hws) as [Hw1 Hw2]. destruct (Hrnd _ Hhs) as [Hh1 Hh2].
  assert (Hwa : (w * a <= (2001 # 2000) * inject_Z 480)%Q) by (rewrite <- Hqw; nra).
  assert (Hhb : (h * b <= (2001 # 2000) * inject_Z 800)%Q) by (rewrite <- Hqh; nra).
  assert (Hwa' : ((1999 # 2000) * inject_Z 480 <= w * a)%Q) by (rewrite <- Hqw; nra).
  assert (Hhb' : ((1999 # 2000) * inject_Z 800 <= h * b)%Q) by (rewrite <- Hqh; nra).
  assert (Hnw : 0 <= Qfloor (rnd (w * scale)%Q) < 481).
  { apply Qfloor_bounds.
    - change (inject_Z 0) with 0%Q. lra.
    - assert ((w * scale <= w * a)%Q) by nra.
      change (inject_Z 481) with (481 # 1)%Q. change (inject_Z 480) with (480 # 1)%Q in *.
      lra. }
  assert (Hnh : 0 <= Qfloor (rnd (h * scale)%Q) < 801).
  { apply Qfloor_bounds.
    - change (inject_Z 0) with 0%Q. lra.
    - assert ((h * scale <= h * b)%Q) by nra.
      change (inject_Z 801) with (801 # 1)%Q. change (inject_Z 800) with (800 # 1)%Q in *.
      lra. }
  assert (Hfill : 479 <= Qfloor (rnd (w * scale)%Q) \/ 799 <= Qfloor (rnd (h * scale)%Q)).
  { destruct (Q.min_spec a b) as [[_ Hmin]|[_ Hmin]]; fold scale in Hmin.
    - left. rewrite <- (Qfloor_Z 479). apply Qfloor_resp_le.
      assert ((w * scale == w * a)%Q) as Heq by now rewrite Hmin.
      change (inject_Z 479) with (479 # 1)%Q. change (inject_Z 480) with (480 # 1)%Q in *.
      lra.
    - right. rewrite <- (Qfloor_Z 799). apply Qfloor_resp_le.
      assert ((h * scale == h * b)%Q) as Heq by now rewrite Hmin.
      change (inject_Z 799) with (799 # 1)%Q. change (inject_Z 800) with (800 # 1)%Q in *.
      lra. }
  generalize dependent (Qfloor (rnd (w * scale)%Q)).
  generalize dependent (Qfloor (rnd (h * scale)%Q)).
  intros nh Hnh nw Hnw Hfill.
  pose proof (Z.div_mod (480 - nw) 2 ltac:(lia)) as Hx.
  pose proof (Z.mod_pos_bound (480 - nw) 2 ltac:(lia)) as Hxm.
  pose proof (Z.div_mod (800 - nh) 2 ltac:(lia)) as Hy.
  pose proof (Z.mod_pos_bound (800 - nh) 2 ltac:(lia)) as Hym.
  repeat split; try lia; exact Hfill.
Qed.

Lemma resized_page_fits_witness :
  closeRounding (fun q => q) /\ 1 <= 1200 /\ 1 <= 1600 /\
  exists placement,
    resizeWithPadding (fun q => q) 1200 1600 = Some placement /\
    0 <= dx placement /\ 0 <= dy placement /\
    0 <= dWidth placement /\ 0 <= dHeight placement /\
    dx placement + dWidth placement <= 480 /\
    dy placement + dHeight placement <= 800 /\
    (479 <= dWidth placement \/ 799 <= dHeight placement) /\
    0 <= 480 - dWidth placement - 2 * dx placement <= 1 /\
    0 <= 800 - dHeight placement - 2 * dy placement <= 1.
Proof.
  assert (Hrnd : closeRounding (fun q => q)) by (intros q Hq; split; lra).
  split; [exact Hrnd|]. split; [lia|]. split; [lia|].
  apply (resized_page_fits (fun q => q) 1200 1600 Hrnd); lia.
Defined.

(** * Further properties of the PDF conversion *)

Lemma overlapCanvasPages_overlapPages (pageNum landscapeRotation : Z)
    (segments : list Segment) (idx : nat) :
  overlapCanvasPages pageNum landscapeRotation segments idx
  = overlapPages pageNum landscapeRotation segments idx.
Proof.
  revert idx. induction segments as [|seg rest IH]; intros idx; [reflexivity|].
  cbn [overlapCanvasPages overlapPages]. now rewrite IH.
Qed.

(** The canvas of a PDF page goes through the pipeline of an image. *)
Lemma processCanvasAsImage_pipeline (rnd : Q -> Q) (calc : Z -> Z -> list Segment)
    (sourceWidth sourceHeight pageNum : Z) (options : ConversionOptions) :
  processCanvasAsImage rnd calc sourceWidth sourceHeight pageNum options
  = processLoadedImage rnd calc sourceWidth sourceHeight pageNum options.
Proof.
  unfold processCanvasAsImage, processLoadedImage.
  now rewrite overlapCanvasPages_overlapPages.
Qed.

Section PdfLoopFacts.

Variable rnd : Q -> Q.
Variable calc : Z -> Z -> list Segment.
Variable canvasImage : ProcessedPage -> ImageData.t.
Variable options : ConversionOptions.
Variable numPages : Z.

Let pagesOf (i : Z) (rendered : RenderedPage) : list ProcessedPage :=
  processCanvasAsImage rnd calc (viewportWidth rendered) (viewportHeight rendered)
                       i options.

Lemma pdfLoopFrom_pages (loop : PdfLoop) (i : Z) (document : list RenderedPage) :
  let final := pdfLoopFrom rnd calc canvasImage options numPages loop i document in
  pdfEncodedPages final
  = pdfEncodedPages loop
    ++ concat (imap (fun k rendered =>
                       map (encodeCanvasPage canvasImage)
                           (pagesOf (i + Z.of_nat k) rendered)) document) /\
  pdfMappingCtx final
  = pdfMappingCtx loop
    ++ imap (fun k rendered =>
               (i + Z.of_nat k, length (pagesOf (i + Z.of_nat k) rendered))) document.
Proof.
  revert loop i. induction document as [|rendered rest IH]; intros loop i.
  - cbn. now rewrite !app_nil_r.
  - cbn [pdfLoopFrom]. cbv zeta in IH |- *.
    destruct (IH (pdfPageStep rnd calc canvasImage options numPages loop i rendered)
                 (i + 1)) as [-> ->].
    assert (Hshift : forall k : nat, i + 1 + Z.of_nat k = i + Z.of_nat (S k)) by lia.
    cbn [imap concat]. rewrite Z.add_0_r.
    rewrite (imap_ext _ (fun k rendered =>
               map (encodeCanvasPage canvasImage) (pagesOf (i + Z.of_nat (S k)) rendered)))
      by (intros k x _; cbn beta; now rewrite Hshift).
    rewrite (imap_ext (fun k rendered =>
               (i + 1 + Z.of_nat k, length (pagesOf (i + 1 + Z.of_nat k) rendered)))
               (fun k rendered =>
               (i + Z.of_nat (S k), length (pagesOf (i + Z.of_nat (S k)) rendered))))
      by (intros k x _; cbn beta; now rewrite Hshift).
    unfold pdfPageStep. cbv zeta. fold (pagesOf i rendered).
    destruct (_ && (0 <? length (pagesOf i rendered))%nat);
      cbn [pdfEncodedPages pdfMappingCtx]; unfold addOriginalPage;
      rewrite <- !app_assoc; split; reflexivity.
Qed.

Lemma pdfPageStep_previewsKept (loop : PdfLoop) (i : Z) (rendered : RenderedPage) :
  previewsKept options numPages loop ->
  previewsKept options numPages (pdfPageStep rnd calc canvasImage options numPages loop i rendered).
Proof.
  intros (Hsame & Hmax & Hshown). unfold previewsKept, pdfPageStep. cbv zeta.
  destruct (showProgressPreview options) eqn:Hshow; cbn [andb].
  - destruct (Nat.ltb_spec (length (pdfSampledPreviews loop)) MAX_STORED_PREVIEWS)
      as [Hroom|Hfull]; cbn [andb].
    + destruct (shouldGenerateSampledPreview i numPages) eqn:Hsampled; cbn [andb].
      * destruct (0 <? length _)%nat; cbn [pdfSampledPreviews progressCalls].
        -- split; [|split].
           ++ unfold previewsShown. rewrite omap_app. cbn. now rewrite Hsame.
           ++ rewrite length_app. cbn [length]. lia.
           ++ intros j url Hin. apply elem_of_app in Hin as [Hin|Hin]; [exact (Hshown _ _ Hin)|].
              apply list_elem_of_singleton in Hin. injection Hin as -> _. now split.
        -- split; [|split].
           ++ unfold previewsShown. rewrite omap_app. cbn. now rewrite app_nil_r.
           ++ exact Hmax.
           ++ intros j url Hin. apply elem_of_app in Hin as [Hin|Hin]; [exact (Hshown _ _ Hin)|].
              apply list_elem_of_singleton in Hin. discriminate.
      * split; [|split]; cbn [pdfSampledPreviews progressCalls].
        -- unfold previewsShown. rewrite omap_app. cbn. now rewrite app_nil_r.
        -- exact Hmax.
        -- intros j url Hin. apply elem_of_app in Hin as [Hin|Hin]; [exact (Hshown _ _ Hin)|].
           apply list_elem_of_singleton in Hin. discriminate.
    + split; [|split]; cbn [pdfSampledPreviews progressCalls].
      * unfold previewsShown. rewrite omap_app. cbn. now rewrite app_nil_r.
      * exact Hmax.
      * intros j url Hin. apply elem_of_app in Hin as [Hin|Hin]; [exact (Hshown _ _ Hin)|].
        apply list_elem_of_singleton in Hin. discriminate.
  - split; [|split]; cbn [pdfSampledPreviews progressCalls].
    + unfold previewsShown. rewrite omap_app. cbn. now rewrite app_nil_r.
    + exact Hmax.
    + intros j url Hin. apply elem_of_app in Hin as [Hin|Hin]; [exact (Hshown _ _ Hin)|].
      apply list_elem_of_singleton in Hin. discriminate.
Qed.

Lemma pdfLoopFrom_previewsKept (loop : PdfLoop) (i : Z) (document : list RenderedPage) :
  previewsKept options numPages loop ->
  previewsKept options numPages
               (pdfLoopFrom rnd calc canvasImage options numPages loop i document).
Proof.
  revert loop i. induction document as [|rendered rest IH]; intros loop i Hkept.
  - exact Hkept.
  - cbn [pdfLoopFrom]. apply IH, pdfPageStep_previewsKept, Hkept.
Qed.

Lemma pdfLoopFrom_progress (loop : PdfLoop) (i : Z) (document : list RenderedPage) :
  map fst (progressCalls (pdfLoopFrom rnd calc canvasImage options numPages loop i document))
  = map fst (progressCalls loop)
    ++ map (fun k => i + Z.of_nat k) (seq 0 (length document)).
Proof.
  revert loop i. induction document as [|rendered rest IH]; intros loop i.
  - cbn. now rewrite app_nil_r.
  - cbn [pdfLoopFrom length seq map]. rewrite IH.
    rewrite <- (seq_shift (length rest) 0), List.map_map.
    assert (Hstep : map fst (progressCalls
                      (pdfPageStep rnd calc canvasImage options numPages loop i rendered))
                    = map fst (progressCalls loop) ++ [i]).
    { unfold pdfPageStep. cbv zeta. destruct (_ && (0 <? length _)%nat);
        cbn [progressCalls]; now rewrite map_app. }
    rewrite Hstep, <- app_assoc. cbn [app]. rewrite Z.add_0_r. do 2 f_equal.
    apply map_ext. intros k. lia.
Qed.

Lemma pdfPageStep_pagesCounted (loop : PdfLoop) (i : Z) (rendered : RenderedPage) :
  pagesCounted loop ->
  pagesCounted (pdfPageStep rnd calc canvasImage options numPages loop i rendered).
Proof.
  unfold pagesCounted, pdfPageStep. cbv zeta. intros Hcount.
  destruct (_ && (0 <? length _)%nat); cbn [pdfEncodedPages pdfMappingCtx];
    unfold addOriginalPage;
    rewrite length_app, length_map, map_app, list_sum_app, Hcount; cbn; lia.
Qed.

Lemma pdfLoopFrom_pagesCounted (loop : PdfLoop) (i : Z) (document : list RenderedPage) :
  pagesCounted loop ->
  pagesCounted (pdfLoopFrom rnd calc canvasImage options numPages loop i document).
Proof.
  revert loop i. induction document as [|rendered rest IH]; intros loop i Hcount.
  - exact Hcount.
  - cbn [pdfLoopFrom]. apply IH, pdfPageStep_pagesCounted, Hcount.
Qed.

(** A step adds to the previews and to the progress calls, and shows
    the preview of a sampled page while there is room. *)
Lemma pdfPageStep_grows (loop : PdfLoop) (i : Z) (rendered : RenderedPage) :
  let next := pdfPageStep rnd calc canvasImage options numPages loop i rendered in
  (length (pdfSampledPreviews loop) <= length (pdfSampledPreviews next))%nat /\
  (forall call, call ∈ progressCalls loop -> call ∈ progressCalls next) /\
  ((length (pdfSampledPreviews loop) < MAX_STORED_PREVIEWS)%nat ->
   showProgressPreview options = true ->
   shouldGenerateSampledPreview i numPages = true ->
   pagesOf i rendered <> [] ->
   (i, Some (previewDataUrl rendered)) ∈ progressCalls next).
Proof.
  unfold pdfPageStep. cbv zeta. fold (pagesOf i rendered).
  destruct (_ && (0 <? length (pagesOf i rendered))%nat) eqn:Hcase;
    cbn [pdfSampledPreviews progressCalls].
  - split; [|split].
    + destruct (_ <? _)%nat; [rewrite length_app|]; lia.
    + intros call Hin. apply elem_of_app. now left.
    + intros _ _ _ _. apply elem_of_app. right. now apply list_elem_of_singleton.
  - split; [|split].
    + lia.
    + intros call Hin. apply elem_of_app. now left.
    + intros Hroom Hshow Hsampled Hpages. exfalso.
      apply Nat.ltb_lt in Hroom. rewrite Hshow, Hroom, Hsampled in Hcase.
      cbn [andb] in Hcase. apply Nat.ltb_ge in Hcase.
      destruct (pagesOf i rendered); [congruence|cbn in Hcase; lia].
Qed.

Lemma pdfLoopFrom_grows (loop : PdfLoop) (i : Z) (document : list RenderedPage) :
  let final := pdfLoopFrom rnd calc canvasImage options numPages loop i document in
  (length (pdfSampledPreviews loop) <= length (pdfSampledPreviews final))%nat /\
  (forall call, call ∈ progressCalls loop -> call ∈ progressCalls final) /\
  ((length (pdfSampledPreviews final) < MAX_STORED_PREVIEWS)%nat ->
   showProgressPreview options = true ->
   forall (k : nat) rendered,
     document !! k = Some rendered ->
     shouldGenerateSampledPreview (i + Z.of_nat k) numPages = true ->
     pagesOf (i + Z.of_nat k) rendered <> [] ->
     (i + Z.of_nat k, Some (previewDataUrl rendered)) ∈ progressCalls final).
Proof.
  revert loop i. induction document as [|first rest IH]; intros loop i.
  - cbn. split; [lia|]. split; [auto|]. intros _ _ k rendered Hk. discriminate.
  - cbn [pdfLoopFrom]. cbv zeta in IH |- *.
    destruct (pdfPageStep_grows loop i first) as (Hlen1 & Hsub1 & Hadd).
    destruct (IH (pdfPageStep rnd calc canvasImage options numPages loop i first) (i + 1))
      as (Hlen2 & Hsub2 & Hrest).
    split; [lia|]. split; [auto|].
    intros Hroom Hshow [|k] rendered Hk Hsampled Hpages.
    + injection Hk as ->. rewrite Z.add_0_r in *.
      apply Hsub2, Hadd; [lia|assumption..].
    + replace (i + Z.of_nat (S k)) with (i + 1 + Z.of_nat k) in * by lia.
      now apply Hrest.
Qed.

End PdfLoopFacts.

(** X21: the pages of a PDF and their mapping.  A PDF conversion puts
    each page of the document through the pipeline of an image, records
    one mapping entry per page of the document, in order and numbered
    from 1, with the number of output pages the page gave, and collects
    the output pages in that order; the page count of the result is the
    sum of the counts of the mapping. *)
Theorem pdf_pages_and_mapping (rnd : Q -> Q) (calc : Z -> Z -> list Segment)
    (canvasImage : ProcessedPage -> ImageData.t) (rank : ascii -> N)
    (buildXtcFromXtgPages : list Bytes -> BookMetadata -> Bytes)
    (adjustTocForMapping : list TocEntry -> PageMappingContext -> list TocEntry)
    (outputName : string) (metadata : BookMetadata)
    (options : ConversionOptions) (document : list RenderedPage) :
  let loop := pdfLoop rnd calc canvasImage options document in
  let result :=
    convertPdfToXtc rnd calc canvasImage rank buildXtcFromXtgPages adjustTocForMapping
                    outputName metadata options document in
  let pagesOf (k : nat) rendered :=
    processLoadedImage rnd calc (viewportWidth rendered) (viewportHeight rendered)
                       (Z.of_nat k + 1) options in
  pdfMappingCtx loop
  = imap (fun k rendered => (Z.of_nat k + 1, length (pagesOf k rendered))) document /\
  pdfEncodedPages loop
  = concat (imap (fun k rendered => map (encodeCanvasPage canvasImage) (pagesOf k rendered))
                 document) /\
  pageCount result = list_sum (map snd (pdfMappingCtx loop)) /\
  pageCount result = length (pdfEncodedPages loop).
Proof.
  intros loop result pagesOf.
  destruct (pdfLoopFrom_pages rnd calc canvasImage options (Z.of_nat (length document))
              {| pdfEncodedPages := []; pdfSampledPreviews := [];
                 pdfMappingCtx := []; progressCalls := [] |} 1 document)
    as [Hpages Hmapping].
  fold (pdfLoop rnd calc canvasImage options document) in Hpages, Hmapping.
  fold loop in Hpages, Hmapping. cbn [pdfEncodedPages pdfMappingCtx app] in Hpages, Hmapping.
  assert (Hcount : pageCount result = length (pdfEncodedPages loop)).
  { unfold result, convertPdfToXtc, finalizeConversionResult. cbv zeta. cbn [pageCount].
    fold loop. unfold sortEncodedPages. apply Permutation_length, sortBy_Permutation. }
  split; [|split; [|split]].
  - rewrite Hmapping. apply imap_ext. intros k rendered _. cbn beta.
    unfold pagesOf. rewrite processCanvasAsImage_pipeline.
    replace (1 + Z.of_nat k) with (Z.of_nat k + 1) by lia. reflexivity.
  - rewrite Hpages. f_equal. apply imap_ext. intros k rendered _. cbn beta.
    unfold pagesOf. rewrite processCanvasAsImage_pipeline.
    replace (1 + Z.of_nat k) with (Z.of_nat k + 1) by lia. reflexivity.
  - rewrite Hcount. unfold loop, pdfLoop. apply pdfLoopFrom_pagesCounted. reflexivity.
  - exact Hcount.
Qed.

(** X22: progress and previews of a PDF conversion.  Progress is
    reported once per page of the document, in order, and ends at
    numPages / numPages.  The previews kept in the result are exactly
    the previews passed to onProgress, at most twelve, each for a page
    that shouldGenerateSampledPreview samples, and none when
    showProgressPreview is off.  When fewer than twelve were kept, every
    sampled page with an output page had its preview shown. *)
Theorem pdf_progress_and_previews (rnd : Q -> Q) (calc : Z -> Z -> list Segment)
    (canvasImage : ProcessedPage -> ImageData.t) (rank : ascii -> N)
    (buildXtcFromXtgPages : list Bytes -> BookMetadata -> Bytes)
    (adjustTocForMapping : list TocEntry -> PageMappingContext -> list TocEntry)
    (outputName : string) (metadata : BookMetadata)
    (options : ConversionOptions) (document : list RenderedPage) :
  let numPages := Z.of_nat (length document) in
  let loop := pdfLoop rnd calc canvasImage options document in
  let result :=
    convertPdfToXtc rnd calc canvasImage rank buildXtcFromXtgPages adjustTocForMapping
                    outputName metadata options document in
  map fst (progressCalls loop) = map Z.of_nat (seq 1 (length document)) /\
  pageImages result = previewsShown (progressCalls loop) /\
  (length (pageImages result) <= 12)%nat /\
  (forall i url, (i, Some url) ∈ progressCalls loop ->
     showProgressPreview options = true /\
     shouldGenerateSampledPreview i numPages = true) /\
  ((length (pageImages result) < 12)%nat ->
   showProgressPreview options = true ->
   forall (k : nat) rendered,
     document !! k = Some rendered ->
     shouldGenerateSampledPreview (Z.of_nat k + 1) numPages = true ->
     processCanvasAsImage rnd calc (viewportWidth rendered) (viewportHeight rendered)
                          (Z.of_nat k + 1) options <> [] ->
     (Z.of_nat k + 1, Some (previewDataUrl rendered)) ∈ progressCalls loop).
Proof.
  intros numPages loop result.
  set (start := {| pdfEncodedPages := []; pdfSampledPreviews := [];
                   pdfMappingCtx := []; progressCalls := [] |}).
  assert (Hstart : previewsKept options numPages start).
  { split; [reflexivity|]. split; [cbn; lia|]. intros i url Hin. inversion Hin. }
  destruct (pdfLoopFrom_previewsKept rnd calc canvasImage options numPages start 1
              document Hstart) as (Hsame & Hmax & Hshown).
  destruct (pdfLoopFrom_grows rnd calc canvasImage options numPages start 1 document)
    as (_ & _ & Hall).
  pose proof (pdfLoopFrom_progress rnd calc canvasImage options numPages start 1 document)
    as Hprogress.
  assert (Hloop : pdfLoopFrom rnd calc canvasImage options numPages start 1 document = loop)
    by reflexivity.
  rewrite Hloop in Hsame, Hmax, Hshown, Hall, Hprogress.
  assert (Himages : pageImages result = pdfSampledPreviews loop) by reflexivity.
  rewrite Himages.
  split; [|split; [exact Hsame|split; [exact Hmax|split; [exact Hshown|]]]].
  - rewrite Hprogress. cbn [start progressCalls map app].
    rewrite <- (seq_shift (length document) 0), List.map_map.
    apply map_ext. intros k. lia.
  - intros Hroom Hshow k rendered Hk Hsampled Hpages.
    replace (Z.of_nat k + 1) with (1 + Z.of_nat k) in * by lia.
    exact (Hall Hroom Hshow k rendered Hk Hsampled Hpages).
Qed.

(** * Properties of the viewer *)

Lemma setAdd_spec (indices : list Z) (index x : Z) :
  x ∈ setAdd indices index <-> x ∈ indices \/ x = index.
Proof.
  unfold setAdd. destruct (bool_decide_reflect (index ∈ indices)) as [Hin|Hout].
  - split; [auto|]. intros [H| ->]; assumption.
  - rewrite elem_of_app, list_elem_of_singleton. reflexivity.
Qed.

Lemma setAdd_NoDup (indices : list Z) (index : Z) :
  NoDup indices -> NoDup (setAdd indices index).
Proof.
  intros Hnd. unfold setAdd.
  destruct (bool_decide_reflect (index ∈ indices)) as [Hin|Hout]; [exact Hnd|].
  apply NoDup_app. split; [exact Hnd|]. split; [|apply NoDup_singleton].
  intros x Hx Hx'. apply list_elem_of_singleton in Hx'. congruence.
Qed.

(** With enough fuel the strided loop adds every index it passes below
    [totalPages], and nothing else. *)
Lemma addStrided_spec (fuel : nat) (index stride totalPages : Z) (indices : list Z) :
  1 <= stride -> totalPages - index <= Z.of_nat fuel ->
  let result := addStrided fuel index stride totalPages indices in
  (NoDup indices -> NoDup result) /\
  forall x, x ∈ result <->
    x ∈ indices \/ exists k, 0 <= k /\ x = index + k * stride /\ x < totalPages.
Proof.
  intros Hstride. revert index indices.
  induction fuel as [|fuel IH]; intros index indices Hfuel; cbn [addStrided]; cbv zeta.
  - split; [auto|]. intros x. split; [auto|]. intros [H|(k & Hk & -> & Hlt)]; [exact H|nia].
  - destruct (Z.ltb_spec index totalPages) as [Hlt|Hge].
    + destruct (IH (index + stride) (setAdd indices index) ltac:(lia)) as [Hnd Hmem].
      split; [intros H; now apply Hnd, setAdd_NoDup|].
      intros x. rewrite Hmem, setAdd_spec. split.
      * intros [[H| ->]|(k & Hk & -> & Hx)].
        -- now left.
        -- right. exists 0. lia.
        -- right. exists (k + 1). split; [lia|]. split; [lia|]. lia.
      * intros [H|(k & Hk & -> & Hx)]; [now left; left|].
        destruct (Z.eq_dec k 0) as [->|Hpos].
        -- left. right. lia.
        -- right. exists (k - 1). split; [lia|]. split; [lia|]. lia.
    + split; [auto|]. intros x. split; [auto|].
      intros [H|(k & Hk & -> & Hx)]; [exact H|nia].
Qed.

Lemma addWindow_spec (fuel : nat) (index last : Z) (indices : list Z) :
  last - index + 1 <= Z.of_nat fuel ->
  let result := addWindow fuel index last indices in
  (NoDup indices -> NoDup result) /\
  forall x, x ∈ result <-> x ∈ indices \/ index <= x <= last.
Proof.
  revert index indices.
  induction fuel as [|fuel IH]; intros index indices Hfuel; cbn [addWindow]; cbv zeta.
  - split; [auto|]. intros x. split; [auto|]. intros [H|H]; [exact H|lia].
  - destruct (Z.leb_spec index last) as [Hle|Hgt].
    + destruct (IH (index + 1) (setAdd indices index) ltac:(lia)) as [Hnd Hmem].
      split; [intros H; now apply Hnd, setAdd_NoDup|].
      intros x. rewrite Hmem, setAdd_spec. split.
      * intros [[H| ->]|H]; [now left|right; lia|right; lia].
      * intros [H|H]; [now left; left|].
        destruct (Z.eq_dec x index) as [->|Hne]; [left; now right|right; lia].
    + split; [auto|]. intros x. split; [auto|]. intros [H|H]; [exact H|lia].
Qed.

Lemma ceilDiv_spec (a b : Z) : 0 < b -> a <= b * ceilDiv a b < a + b.
Proof.
  intros Hb. unfold ceilDiv.
  pose proof (Z.div_mod (- a) b ltac:(lia)) as Hdiv.
  pose proof (Z.mod_pos_bound (- a) b Hb) as Hmod. lia.
Qed.

Lemma StronglySorted_strict (l : list Z) :
  NoDup l -> StronglySorted (fun a b => (a ?= b) <> Gt) l -> StronglySorted Z.lt l.
Proof.
  intros Hnd Hsorted. induction Hsorted as [|a l Hl IH Ha]; [constructor|].
  apply NoDup_cons in Hnd as [Hout Hnd]. constructor; [now apply IH|].
  rewrite List.Forall_forall in *. intros b Hb.
  pose proof (Ha b Hb) as Hle. cbv beta in Hle.
  assert (a <> b). { intros ->. apply Hout. now apply list_elem_of_In. }
  change (a <= b) in Hle. lia.
Qed.

Lemma sortBy_numbers (l : list Z) :
  NoDup l ->
  StronglySorted Z.lt (sortBy Z.compare l) /\ sortBy Z.compare l ≡ₚ l.
Proof.
  intros Hnd. pose proof (sortBy_Permutation Z.compare l) as Hperm.
  split; [|exact Hperm]. apply StronglySorted_strict.
  - now rewrite Hperm.
  - apply sortBy_sorted.
    + intros a b. apply Z.compare_antisym.
    + intros a b c Hab Hbc. change (a <= b) in Hab. change (b <= c) in Hbc.
      change (a <= c). lia.
Qed.

Lemma StronglySorted_seq (start len : nat) :
  StronglySorted Z.lt (map Z.of_nat (seq start len)).
Proof.
  revert start. induction len as [|len IH]; intros start; cbn [seq map]; constructor.
  - apply IH.
  - rewrite List.Forall_forall. intros x Hx. apply in_map_iff in Hx as (k & <- & Hk).
    apply in_seq in Hk. lia.
Qed.

(** X23: the thumbnails of the viewer.  For any page count and current
    index, the thumbnail indices are strictly ascending page indices of
    the book, never more than 60 of them; a book of at most 60 pages
    shows them all.  A longer book shows its first and its last page
    and, when the current index is a page of the book, that page and
    every page within 12 pages of it. *)
Theorem thumbnails_cover_the_focus (currentIndex totalPages : Z) :
  let indices := getThumbnailIndices currentIndex totalPages in
  StronglySorted Z.lt indices /\
  (forall index, index ∈ indices -> 0 <= index < totalPages) /\
  (length indices <= 60)%nat /\
  (totalPages <= 60 -> forall index, 0 <= index < totalPages -> index ∈ indices) /\
  (0 < totalPages -> 0 ∈ indices /\ totalPages - 1 ∈ indices) /\
  (forall index, 0 <= index < totalPages ->
     currentIndex - 12 <= index <= currentIndex + 12 -> index ∈ indices).
Proof.
  intros indices. unfold getThumbnailIndices in indices.
  unfold MAX_THUMBNAILS, FOCUS_WINDOW in indices.
  destruct (Z.leb_spec totalPages 60) as [Hsmall|Hlarge].
  - assert (Hmem : forall index, index ∈ indices <-> 0 <= index < totalPages).
    { intros index. unfold indices. rewrite list_elem_of_fmap. split.
      - intros (k & -> & Hk). apply elem_of_seq in Hk. lia.
      - intros Hrange. exists (Z.to_nat index). split; [lia|].
        apply elem_of_seq. lia. }
    split; [apply StronglySorted_seq|]. split; [intros index; apply Hmem|].
    split; [unfold indices; rewrite length_map, length_seq; lia|].
    split; [intros _ index; apply Hmem|].
    split; [intros Hpos; split; apply Hmem; lia|].
    intros index Hrange _. now apply Hmem.
  - cbv zeta in indices. change (60 - (12 * 2 + 2)) with 34 in indices.
    change (2 * 12 + 1) with 25 in indices.
    set (stride := Z.max 1 (ceilDiv totalPages 34)) in *.
    set (start := Z.max 0 (currentIndex - 12)) in *.
    set (last := Z.min (totalPages - 1) (currentIndex + 12)) in *.
    set (ends := setAdd (setAdd [] 0) (totalPages - 1)) in *.
    pose proof (ceilDiv_spec totalPages 34 ltac:(lia)) as Hceil.
    assert (Hstride : 1 <= stride) by (unfold stride; lia).
    assert (Hcover : totalPages <= 34 * stride) by (unfold stride; lia).
    assert (Hends : NoDup ends /\ forall x, x ∈ ends <-> x = 0 \/ x = totalPages - 1).
    { split; [apply setAdd_NoDup, setAdd_NoDup, NoDup_nil_2|].
      intros x. unfold ends. rewrite !setAdd_spec, elem_of_nil. tauto. }
    destruct Hends as [Hnd0 Hmem0].
    destruct (addStrided_spec (Z.to_nat totalPages) 0 stride totalPages ends Hstride
                ltac:(lia)) as [Hnd1 Hmem1].
    cbv zeta in Hnd1, Hmem1.
    set (strided := addStrided (Z.to_nat totalPages) 0 stride totalPages ends) in *.
    destruct (addWindow_spec 25 start last strided ltac:(unfold start, last; lia))
      as [Hnd2 Hmem2].
    cbv zeta in Hnd2, Hmem2.
    set (windowed := addWindow 25 start last strided) in *.
    change (Z.to_nat 25) with 25%nat in indices. fold windowed in indices.
    assert (Hnd : NoDup windowed) by auto.
    destruct (sortBy_numbers windowed Hnd) as [Hsorted Hperm]. fold indices in Hsorted, Hperm.
    assert (Hmem : forall x, x ∈ indices <->
              x = 0 \/ x = totalPages - 1 \/
              (exists k, 0 <= k /\ x = k * stride /\ x < totalPages) \/
              start <= x <= last).
    { intros x. rewrite Hperm, Hmem2, Hmem1, Hmem0. split.
      - intros [[[H|H]|(k & Hk & Hx & Hlt)]|H]; auto.
        right. right. left. exists k. split; [exact Hk|]. split; [lia|exact Hlt].
      - intros [H|[H|[(k & Hk & Hx & Hlt)|H]]]; auto.
        left. right. exists k. split; [exact Hk|]. split; [lia|exact Hlt]. }
    split; [exact Hsorted|]. split; [|split; [|split; [|split]]].
    + intros index Hin. apply Hmem in Hin as [->|[->|[(k & Hk & -> & Hlt)|Hwin]]];
        [lia|lia|nia|unfold start, last in Hwin; lia].
    + set (bound := [totalPages - 1]
                    ++ map (fun k => Z.of_nat k * stride) (seq 0 34)
                    ++ map (fun k => start + Z.of_nat k) (seq 0 25)).
      assert (Hsub : indices ⊆+ bound).
      { apply NoDup_submseteq.
        - rewrite Hperm. exact Hnd.
        - intros x Hin. unfold bound. rewrite !elem_of_app, list_elem_of_singleton.
          apply Hmem in Hin as [->|[->|[(k & Hk & -> & Hlt)|Hwin]]].
          + right. left. apply list_elem_of_fmap. exists 0%nat. split; [lia|].
            apply elem_of_seq. lia.
          + now left.
          + right. left. apply list_elem_of_fmap. exists (Z.to_nat k). split; [lia|].
            apply elem_of_seq. nia.
          + right. right. apply list_elem_of_fmap. exists (Z.to_nat (x - start)).
            split; [lia|]. apply elem_of_seq. unfold start, last in *. lia. }
      apply submseteq_length in Hsub. unfold bound in Hsub.
      rewrite !length_app, !length_map, !length_seq in Hsub. cbn [length] in Hsub. lia.
    + lia.
    + intros Hpos. split; apply Hmem; auto.
    + intros index Hrange Hnear. apply Hmem. right. right. right.
      unfold start, last. lia.
Qed.

(** * Properties of the metadata editor *)

Lemma findOverlap_None (current : TocEntry) (others : list TocEntry) :
  findOverlap current others = None <->
  forall other, other ∈ others ->
    endPage other < startPage current \/ endPage current < startPage other.
Proof.
  induction others as [|first rest IH]; cbn [findOverlap].
  - split; [|reflexivity]. intros _ other Hin. inversion Hin.
  - destruct (Z.leb_spec (startPage current) (endPage first)) as [Hle|Hgt];
      destruct (Z.geb_spec (endPage current) (startPage first)) as [Hge|Hlt]; cbn [andb].
    + split; [discriminate|]. intros Hall.
      destruct (Hall first ltac:(left)); lia.
    + rewrite IH. split.
      * intros Hall other Hin. apply elem_of_cons in Hin as [->|Hin]; [now right|auto].
      * intros Hall other Hin. apply Hall. now right.
    + rewrite IH. split.
      * intros Hall other Hin. apply elem_of_cons in Hin as [->|Hin]; [now left|auto].
      * intros Hall other Hin. apply Hall. now right.
    + rewrite IH. split.
      * intros Hall other Hin. apply elem_of_cons in Hin as [->|Hin]; [now left|auto].
      * intros Hall other Hin. apply Hall. now right.
Qed.

(** X24: what validateToc accepts.  The table of contents is accepted
    exactly when every chapter starts no later than it ends and no page
    belongs to two chapters.  A chapter added by handleAddChapter spans
    the whole book, so that the table is rejected as long as another
    chapter holds a page of the book. *)
Theorem validateToc_accepts_disjoint_chapters (toc : list TocEntry) :
  (validateToc toc = true <->
   (forall chapter, chapter ∈ toc -> startPage chapter <= endPage chapter) /\
   (forall i j first second page,
      (i < j)%nat -> toc !! i = Some first -> toc !! j = Some second ->
      ~ (inChapter page first /\ inChapter page second))) /\
  (forall pageCount chapter page,
     chapter ∈ toc -> inChapter page chapter -> 1 <= page <= pageCount ->
     validateToc (handleAddChapter (Some pageCount) toc) = false).
Proof.
  assert (Hiff : forall chapters,
    validateToc chapters = true <->
    (forall chapter, chapter ∈ chapters -> startPage chapter <= endPage chapter) /\
    (forall i j first second page,
       (i < j)%nat -> chapters !! i = Some first -> chapters !! j = Some second ->
       ~ (inChapter page first /\ inChapter page second))).
  { clear toc. unfold validateToc, inChapter. intros chapters.
    induction chapters as [|current rest IH]; cbn [firstTocAlert].
    - split; [|reflexivity]. intros _. split.
      + intros chapter Hin. inversion Hin.
      + intros i j first second page _ Hi. discriminate.
    - destruct (Z.gtb_spec (startPage current) (endPage current)) as [Hbad|Hok].
      + split; [discriminate|]. intros [Hrange _].
        specialize (Hrange current ltac:(left)). lia.
      + destruct (findOverlap current rest) as [other|] eqn:Hover.
        * split; [discriminate|]. intros [Hrange Hdisjoint]. exfalso.
          assert (Hnone : findOverlap current rest = None); [|congruence].
          apply findOverlap_None. intros later Hin.
          apply list_elem_of_lookup in Hin as [j Hj].
          assert (Hlater : startPage later <= endPage later).
          { apply Hrange. right. eapply list_elem_of_lookup_2, Hj. }
          destruct (Z.lt_ge_cases (endPage later) (startPage current)) as [|Hle1];
            [now left|].
          destruct (Z.lt_ge_cases (endPage current) (startPage later)) as [|Hle2];
            [now right|].
          exfalso.
          apply (Hdisjoint 0%nat (S j) current later
                   (Z.max (startPage current) (startPage later)));
            [lia|reflexivity|exact Hj|lia].
        * rewrite IH. rewrite findOverlap_None in Hover. split.
          -- intros [Hrange Hdisjoint]. split.
             ++ intros chapter Hin. apply elem_of_cons in Hin as [->|Hin]; [lia|auto].
             ++ intros [|i] [|j] first second page Hij Hi Hj; try lia.
                ** injection Hi as <-. cbn in Hj.
                   destruct (Hover second) as [H|H];
                     [eapply list_elem_of_lookup_2, Hj|lia|lia].
                ** cbn in Hi, Hj. apply (Hdisjoint i j); [lia|assumption..].
          -- intros [Hrange Hdisjoint]. split.
             ++ intros chapter Hin. apply Hrange. now right.
             ++ intros i j first second page Hij Hi Hj.
                apply (Hdisjoint (S i) (S j)); [lia|assumption..]. }
  split; [apply Hiff|].
  intros pageCount chapter page Hin Hpage Hbook.
  destruct (validateToc (handleAddChapter (Some pageCount) toc)) eqn:Hvalid; [|reflexivity].
  exfalso. apply Hiff in Hvalid as [_ Hdisjoint].
  apply list_elem_of_lookup in Hin as [i Hi].
  pose proof (lookup_lt_Some _ _ _ Hi) as Hlt.
  unfold handleAddChapter in Hdisjoint.
  destruct (Z.eqb_spec pageCount 0) as [|_]; [lia|].
  apply (Hdisjoint i (length toc) chapter
           {| tocTitle := "New Chapter"; startPage := 1; endPage := pageCount |} page).
  - exact Hlt.
  - now rewrite lookup_app_l.
  - rewrite lookup_app_r by lia. now rewrite Nat.sub_diag.
  - split; [exact Hpage|]. unfold inChapter. cbn. lia.
Qed.

Lemma handleMoveChapter_up (toc : list TocEntry) (index : nat)
    (current target : TocEntry) :
  toc !! S index = Some current -> toc !! index = Some target ->
  handleMoveChapter (S index) up toc
  = Some (<[index := current]> (<[S index := target]> toc)).
Proof.
  intros Hcurrent Htarget. unfold handleMoveChapter. rewrite Hcurrent. cbv zeta.
  pose proof (lookup_lt_Some _ _ _ Hcurrent) as Hlt.
  replace (Z.of_nat (S index) - 1) with (Z.of_nat index) by lia.
  destruct (Z.ltb_spec (Z.of_nat index) 0) as [|_]; [lia|].
  destruct (Z.geb_spec (Z.of_nat index) (Z.of_nat (length toc))) as [|_]; [lia|].
  cbn [orb]. now rewrite Nat2Z.id, Htarget.
Qed.

Lemma handleMoveChapter_down (toc : list TocEntry) (index : nat)
    (current target : TocEntry) :
  toc !! index = Some current -> toc !! S index = Some target ->
  handleMoveChapter index down toc
  = Some (<[S index := current]> (<[index := target]> toc)).
Proof.
  intros Hcurrent Htarget. unfold handleMoveChapter. rewrite Hcurrent. cbv zeta.
  pose proof (lookup_lt_Some _ _ _ Htarget) as Hlt.
  replace (Z.of_nat index + 1) with (Z.of_nat (S index)) by lia.
  destruct (Z.ltb_spec (Z.of_nat (S index)) 0) as [|_]; [lia|].
  destruct (Z.geb_spec (Z.of_nat (S index)) (Z.of_nat (length toc))) as [|_]; [lia|].
  cbn [orb]. now rewrite Nat2Z.id, Htarget.
Qed.

Lemma swap_Permutation {A : Type} (l : list A) (i j : nat) (a b : A) :
  l !! i = Some a -> l !! j = Some b -> <[j := a]> (<[i := b]> l) ≡ₚ l.
Proof.
  intros Hi Hj. destruct (decide (i = j)) as [->|Hne].
  - rewrite list_insert_insert_eq. assert (a = b) as -> by congruence.
    now rewrite list_insert_id.
  - symmetry. apply Permutation_inj. split.
    + now rewrite !length_insert.
    + exists (fun k => if decide (k = i) then j else if decide (k = j) then i else k).
      split.
      * intros x y. repeat case_decide; congruence.
      * intros k. repeat case_decide; subst.
        -- rewrite list_lookup_insert_eq by (rewrite length_insert;
             now apply lookup_lt_Some in Hj). congruence.
        -- rewrite list_lookup_insert_ne by congruence.
           rewrite list_lookup_insert_eq by now apply lookup_lt_Some in Hi. congruence.
        -- now rewrite !list_lookup_insert_ne by congruence.
Qed.

Lemma swap_back {A : Type} (l : list A) (i j : nat) (a b : A) :
  l !! i = Some a -> l !! j = Some b ->
  <[i := a]> (<[j := b]> (<[j := a]> (<[i := b]> l))) = l.
Proof.
  intros Hi Hj. apply list_eq. intros k.
  destruct (decide (k = i)) as [->|Hki].
  - rewrite list_lookup_insert_eq by (rewrite !length_insert;
      now apply lookup_lt_Some in Hi). congruence.
  - rewrite list_lookup_insert_ne by congruence.
    destruct (decide (k = j)) as [->|Hkj].
    + rewrite list_lookup_insert_eq by (rewrite !length_insert;
        now apply lookup_lt_Some in Hj). congruence.
    + now rewrite !list_lookup_insert_ne by congruence.
Qed.

(** X25: moving a chapter.  Moving a chapter up or down swaps it with
    its neighbour and loses no chapter; the first chapter moved up and
    the last moved down stay where they are; and a chapter moved one
    way and then back leaves the list as it was. *)
Theorem handleMoveChapter_swaps (toc : list TocEntry) (index : nat) (current : TocEntry) :
  toc !! index = Some current ->
  (exists moved,
     handleMoveChapter index up toc = Some moved /\ moved ≡ₚ toc /\
     (index = 0%nat -> moved = toc) /\
     ((0 < index)%nat ->
      moved !! (index - 1)%nat = Some current /\
      moved !! index = toc !! (index - 1)%nat /\
      handleMoveChapter (index - 1) down moved = Some toc)) /\
  (exists moved,
     handleMoveChapter index down toc = Some moved /\ moved ≡ₚ toc /\
     (S index = length toc -> moved = toc) /\
     ((S index < length toc)%nat ->
      moved !! S index = Some current /\
      moved !! index = toc !! S index /\
      handleMoveChapter (S index) up moved = Some toc)).
Proof.
  intros Hcurrent. pose proof (lookup_lt_Some _ _ _ Hcurrent) as Hlt. split.
  - destruct index as [|index].
    + exists toc. split; [|split; [reflexivity|split; [reflexivity|lia]]].
      unfold handleMoveChapter. now rewrite Hcurrent.
    + destruct (lookup_lt_is_Some_2 toc index ltac:(lia)) as [target Htarget].
      eexists. split; [exact (handleMoveChapter_up toc index current target
                                Hcurrent Htarget)|].
      split; [exact (swap_Permutation toc (S index) index current target
                       Hcurrent Htarget)|].
      split; [discriminate|]. intros _. cbn [Nat.sub]. rewrite Nat.sub_0_r.
      assert (Hmoved1 : <[index := current]> (<[S index := target]> toc) !! index
                        = Some current).
      { apply list_lookup_insert_eq. rewrite length_insert. lia. }
      assert (Hmoved2 : <[index := current]> (<[S index := target]> toc) !! S index
                        = Some target).
      { rewrite list_lookup_insert_ne by lia. now apply list_lookup_insert_eq. }
      split; [exact Hmoved1|]. split; [now rewrite Hmoved2, Htarget|].
      rewrite (handleMoveChapter_down _ index current target Hmoved1 Hmoved2).
      f_equal. exact (swap_back toc (S index) index current target Hcurrent Htarget).
  - destruct (decide (S index = length toc)) as [Hlast|Hmore].
    + exists toc. split; [|split; [reflexivity|split; [reflexivity|lia]]].
      unfold handleMoveChapter. rewrite Hcurrent. cbv zeta.
      destruct (Z.geb_spec (Z.of_nat index + 1) (Z.of_nat (length toc))) as [_|]; [|lia].
      now rewrite orb_true_r.
    + destruct (lookup_lt_is_Some_2 toc (S index) ltac:(lia)) as [target Htarget].
      eexists. split; [exact (handleMoveChapter_down toc index current target
                                Hcurrent Htarget)|].
      split; [exact (swap_Permutation toc index (S index) current target
                       Hcurrent Htarget)|].
      split; [intros; lia|]. intros _.
      assert (Hmoved1 : <[S index := current]> (<[index := target]> toc) !! S index
                        = Some current).
      { apply list_lookup_insert_eq. rewrite length_insert. lia. }
      assert (Hmoved2 : <[S index := current]> (<[index := target]> toc) !! index
                        = Some target).
      { rewrite list_lookup_insert_ne by lia. now apply list_lookup_insert_eq. }
      split; [exact Hmoved1|]. split; [now rewrite Hmoved2, Htarget|].
      rewrite (handleMoveChapter_up _ index current target Hmoved1 Hmoved2).
      f_equal. exact (swap_back toc index (S index) current target Hcurrent Htarget).
Qed.

Lemma handleMoveChapter_swaps_witness :
  sampleToc !! 1%nat = Some {| tocTitle := "Two"; startPage := 11; endPage := 20 |} /\
  (exists moved,
     handleMoveChapter 1 up sampleToc = Some moved /\ moved ≡ₚ sampleToc /\
     (1%nat = 0%nat -> moved = sampleToc) /\
     ((0 < 1)%nat ->
      moved !! (1 - 1)%nat
      = Some {| tocTitle := "Two"; startPage := 11; endPage := 20 |} /\
      moved !! 1%nat = sampleToc !! (1 - 1)%nat /\
      handleMoveChapter (1 - 1) down moved = Some sampleToc)) /\
  (exists moved,
     handleMoveChapter 1 down sampleToc = Some moved /\ moved ≡ₚ sampleToc /\
     (2%nat = length sampleToc -> moved = sampleToc) /\
     ((2 < length sampleToc)%nat ->
      moved !! 2%nat
      = Some {| tocTitle := "Two"; startPage := 11; endPage := 20 |} /\
      moved !! 1%nat = sampleToc !! 2%nat /\
      handleMoveChapter 2 up moved = Some sampleToc)).
Proof.
  split; [reflexivity|].
  apply (handleMoveChapter_swaps sampleToc 1
           {| tocTitle := "Two"; startPage := 11; endPage := 20 |}).
  reflexivity.
Defined.

Lemma goToPage_showsPage (viewer : ViewerState) (index : Z) :
  showsPage viewer -> showsPage (goToPage viewer index).
Proof.
  intros Hshows. unfold goToPage.
  destruct (Z.ltb_spec index 0) as [|Hlow]; [exact Hshows|].
  destruct (Z.geb_spec index (Z.of_nat (length (viewerPages viewer)))) as [|Hhigh];
    [exact Hshows|].
  cbn [orb]. unfold showsPage. cbn [viewerPages currentIndex].
  destruct (viewerPages viewer); [cbn in Hhigh; lia|lia].
Qed.

Lemma viewerStep_showsPage (viewer : ViewerState) (event : ViewerEvent) :
  showsPage viewer -> showsPage (viewerStep viewer event).
Proof.
  intros Hshows.
  assert (Hopen : forall pageImages, showsPage (openViewer pageImages)).
  { intros [|page rest]; unfold showsPage; cbn; lia. }
  destruct event as [| | | |index|key|pageImages]; cbn [viewerStep];
    try (now apply goToPage_showsPage); try reflexivity; try exact Hshows; [|apply Hopen].
  destruct (hidden viewer); [exact Hshows|].
  destruct key; try (now apply goToPage_showsPage); try reflexivity; exact Hshows.
Qed.

(** X26: the viewer never leaves the book.  After any sequence of
    clicks, key presses, openings and closings, the current index is a
    page of the open book, or 0 when there is no page; a step to the
    previous page from the first page and to the next page from the
    last changes nothing; and keys do nothing while the viewer is
    hidden. *)
Theorem viewer_stays_in_book (events : list ViewerEvent) :
  let viewer := viewerAfter events in
  showsPage viewer /\
  (currentIndex viewer = 0 -> viewerStep viewer ClickPrev = viewer) /\
  (currentIndex viewer = Z.of_nat (length (viewerPages viewer)) - 1 ->
   viewerStep viewer ClickNext = viewer) /\
  (hidden viewer = true -> forall key, viewerStep viewer (KeyDown key) = viewer).
Proof.
  intros viewer. split; [|split; [|split]].
  - unfold viewer, viewerAfter.
    assert (Hgen : forall start, showsPage start -> showsPage (foldl viewerStep start events)).
    { induction events as [|event rest IH]; intros start Hstart; [exact Hstart|].
      cbn [foldl]. apply IH, viewerStep_showsPage, Hstart. }
    apply Hgen. reflexivity.
  - intros Hfirst. cbn [viewerStep]. unfold goToPage. rewrite Hfirst. reflexivity.
  - intros Hlast. cbn [viewerStep]. unfold goToPage. rewrite Hlast.
    destruct (Z.geb_spec (Z.of_nat (length (viewerPages viewer)) - 1 + 1)
                (Z.of_nat (length (viewerPages viewer)))) as [_|]; [|lia].
    now rewrite orb_true_r.
  - intros Hhidden key. cbn [viewerStep]. now rewrite Hhidden.
Qed.

(** * Further properties of the byte buffers *)

Lemma getUint8_setUint32_byte (buffer : Bytes) (offset k : nat) (value : Z) :
  (offset + 4 <= length buffer)%nat -> (k < 4)%nat ->
  getUint8 (setUint32 buffer offset value) (offset + k)
  = (value / 256 ^ Z.of_nat k) mod 256.
Proof.
  intros Hfit Hk. unfold setUint32.
  destruct k as [|[|[|[|k]]]]; [| | | |lia]; rewrite ?Nat.add_0_r;
    repeat first
      [ rewrite getUint8_setUint8_eq by (rewrite ?length_setUint8; lia)
      | rewrite getUint8_setUint8_ne by lia ];
    [now rewrite Z.div_1_r|reflexivity..].
Qed.

(** X27: a 64-bit field is written little-endian.  Inside the buffer,
    setBigUint64 writes an unsigned 64-bit value as eight bytes, least
    significant first: reading them back gives the value, every byte
    written is in 0..255, the bytes outside the field keep their value
    and the buffer keeps its length. *)
Theorem setBigUint64_round_trip (buffer : Bytes) (offset : nat) (value : Z) :
  (offset + 8 <= length buffer)%nat -> 0 <= value < 2 ^ 64 ->
  let written := setBigUint64 buffer offset value in
  getUint64 written offset = value /\
  length written = length buffer /\
  (forall k, (k < 8)%nat ->
     getUint8 written (offset + k) = (value / 256 ^ Z.of_nat k) mod 256) /\
  (forall i, (i < offset \/ offset + 8 <= i)%nat ->
     getUint8 written i = getUint8 buffer i).
Proof.
  intros Hfit Hvalue written.
  split; [now apply getUint64_setBigUint64|].
  split; [apply length_setBigUint64|].
  split; [|intros i Hi; now apply getUint8_setBigUint64_ne].
  intros k Hk. unfold written, setBigUint64. cbv zeta.
  change 4294967295 with (Z.ones 32). rewrite Z.land_ones by lia.
  rewrite Z.shiftr_div_pow2 by lia. change (2 ^ 32) with 4294967296.
  change (2 ^ 64) with 18446744073709551616 in Hvalue.
  destruct (Nat.lt_ge_cases k 4) as [Hlow|Hhigh].
  - rewrite getUint8_setUint32_ne by lia.
    rewrite getUint8_setUint32_byte by lia.
    destruct k as [|[|[|[|k]]]]; [| | | |lia];
      cbn [Z.of_nat Pos.of_succ_nat Pos.succ];
      [change (256 ^ 0) with 1|change (256 ^ 1) with 256|change (256 ^ 2) with 65536
      |change (256 ^ 3) with 16777216];
      Z.div_mod_to_equations; lia.
  - replace (offset + k)%nat with (offset + 4 + (k - 4))%nat by lia.
    rewrite getUint8_setUint32_byte by (rewrite ?length_setUint32; lia).
    destruct k as [|[|[|[|[|[|[|[|k]]]]]]]]; try lia;
      cbn [Nat.sub Z.of_nat Pos.of_succ_nat Pos.succ];
      [change (256 ^ 0) with 1; change (256 ^ 4) with 4294967296
      |change (256 ^ 1) with 256; change (256 ^ 5) with 1099511627776
      |change (256 ^ 2) with 65536; change (256 ^ 6) with 281474976710656
      |change (256 ^ 3) with 16777216; change (256 ^ 7) with 72057594037927936];
      Z.div_mod_to_equations; lia.
Qed.

Lemma setBigUint64_round_trip_witness :
  (40 + 8 <= length (newBuffer 48))%nat /\ 0 <= 48 < 2 ^ 64 /\
  getUint64 (setBigUint64 (newBuffer 48) 40 48) 40 = 48.
Proof.
  assert (Hfit : (40 + 8 <= length (newBuffer 48))%nat) by (vm_compute; lia).
  assert (Hvalue : 0 <= 48 < 2 ^ 64) by (split; [lia|reflexivity]).
  split; [exact Hfit|]. split; [exact Hvalue|].
  exact (proj1 (setBigUint64_round_trip (newBuffer 48) 40 48 Hfit Hvalue)).
Defined.
